(** * SpotiDownloader: the Spotify session manager and the paged track fetcher

    A shallow embedding of [backend/spotify_auth.go].  The session manager
    ([spotifyAuthManager]) is modelled by explicit state passing over a
    state [St] that holds the manager, the disk, the number of oracle calls
    made and a trace of the observable calls; the network, the JSON codec, the clock and the random
    source are oracles gathered in an [Env].  The worker pool of
    [runTrackPageWorkers] is modelled as a labelled transition system over
    the goroutines' states, one action per channel operation. *)

From Stdlib Require Import ZArith NArith List String Ascii Lia Permutation Sorted Bool.
From Stdlib.Strings Require Import Byte.
From stdpp Require Import base gmap strings list pretty.
Import ListNotations.
Open Scope string_scope.

(** ** encoding/base64

    The two encodings the file uses: [base64.RawURLEncoding.EncodeToString]
    (unpadded, URL alphabet) and [base64.StdEncoding.DecodeString] (padded,
    standard alphabet, carriage returns and line feeds skipped). *)
Module Base64.

Definition encodeStd : string :=
  "ABCDEFGHIJKLMNOPQRSTUVWXYZabcdefghijklmnopqrstuvwxyz0123456789+/".

Definition encodeURL : string :=
  "ABCDEFGHIJKLMNOPQRSTUVWXYZabcdefghijklmnopqrstuvwxyz0123456789-_".

(** [enc.encode[v]]: the character of a six-bit value. *)
Definition encode_char (alphabet : string) (v : N) : ascii :=
  nth (N.to_nat v) (list_ascii_of_string alphabet) "A"%char.

Fixpoint index_of (c : ascii) (l : list ascii) : option N :=
  match l with
  | [] => None
  | x :: r => if Ascii.eqb c x then Some 0%N
              else option_map N.succ (index_of c r)
  end.

(** [enc.decodeMap[c]]: the six-bit value of a character, if it is one of
    the alphabet. *)
Definition decode_char (alphabet : string) (c : ascii) : option N :=
  index_of c (list_ascii_of_string alphabet).

(** One full quantum: three bytes give four six-bit values. *)
Definition sextets3 (b0 b1 b2 : byte) : list N :=
  let n0 := Byte.to_N b0 in
  let n1 := Byte.to_N b1 in
  let n2 := Byte.to_N b2 in
  [ n0 / 4 ; (n0 mod 4) * 16 + n1 / 16 ; (n1 mod 16) * 4 + n2 / 64 ; n2 mod 64 ]%N.

(** The six-bit values of a byte string, without padding: a remainder of
    one byte gives two values, a remainder of two bytes gives three. *)
Fixpoint sextets (src : list byte) : list N :=
  match src with
  | b0 :: b1 :: b2 :: rest => sextets3 b0 b1 b2 ++ sextets rest
  | [b0; b1] =>
      let n0 := Byte.to_N b0 in
      let n1 := Byte.to_N b1 in
      [ n0 / 4 ; (n0 mod 4) * 16 + n1 / 16 ; (n1 mod 16) * 4 ]%N
  | [b0] =>
      let n0 := Byte.to_N b0 in
      [ n0 / 4 ; (n0 mod 4) * 16 ]%N
  | [] => []
  end.

(** [base64.RawURLEncoding.EncodeToString]. *)
Definition encodeRawURL (src : list byte) : string :=
  string_of_list_ascii (map (encode_char encodeURL) (sextets src)).

Definition byte_of_N (n : N) : byte :=
  match Byte.of_N n with Some b => b | None => x00 end.

(** Six-bit values back to bytes; the unused low bits of a short last
    quantum are dropped without a check, as the non-strict decoder does. *)
Fixpoint unsextets (fuel : nat) (vs : list N) : option (list byte) :=
  match fuel with
  | O => None
  | S fuel' =>
      match vs with
      | [] => Some []
      | [_] => None
      | [c0; c1] => Some [byte_of_N (c0 * 4 + c1 / 16)]
      | [c0; c1; c2] =>
          Some [byte_of_N (c0 * 4 + c1 / 16);
                byte_of_N ((c1 mod 16) * 16 + c2 / 4)]
      | c0 :: c1 :: c2 :: c3 :: rest =>
          match unsextets fuel' rest with
          | Some bs =>
              Some (byte_of_N (c0 * 4 + c1 / 16)
                    :: byte_of_N ((c1 mod 16) * 16 + c2 / 4)
                    :: byte_of_N ((c2 mod 4) * 64 + c3) :: bs)
          | None => None
          end
      end
  end%N.

Fixpoint decode_chars (alphabet : string) (cs : list ascii) : option (list N) :=
  match cs with
  | [] => Some []
  | c :: r =>
      match decode_char alphabet c, decode_chars alphabet r with
      | Some v, Some vs => Some (v :: vs)
      | _, _ => None
      end
  end.

(** Decoding of an unpadded text over [alphabet]. *)
Definition decodeRaw (alphabet : string) (cs : list ascii) : option (list byte) :=
  match decode_chars alphabet cs with
  | Some vs => unsextets (S (List.length vs)) vs
  | None => None
  end.

Definition is_newline (c : ascii) : bool :=
  Ascii.eqb c "010"%char || Ascii.eqb c "013"%char.

Definition is_pad (c : ascii) : bool := Ascii.eqb c "="%char.

(** The number of padding characters at the end, two at most. *)
Definition trailing_pads (cs : list ascii) : nat :=
  match rev cs with
  | a :: b :: _ => if is_pad a then (if is_pad b then 2 else 1) else 0
  | [a] => if is_pad a then 1 else 0
  | [] => 0
  end.

(** [base64.StdEncoding.DecodeString]: [None] stands for its
    [CorruptInputError]. *)
Definition decodeStdString (s : string) : option (list byte) :=
  let cs := List.filter (fun c => negb (is_newline c)) (list_ascii_of_string s) in
  if negb (Nat.eqb (List.length cs mod 4) 0) then None
  else
    let p := trailing_pads cs in
    decodeRaw encodeStd (firstn (List.length cs - p) cs).

End Base64.

(** ** Errors and results

    Go's [error] values.  An error made outside this file (by the os, net,
    http, json, rand and context packages, or by the rest of the package)
    is a [liberror]: the code only ever asks of one whether it is
    [os.ErrNotExist].  Every [errors.New] of the file is a constructor of
    its own, which no other code can produce; the wrapping [fmt.Errorf]
    calls keep the error they wrap.  [ErrPanic] is a nil dereference. *)
Inductive liberror : Type :=
| NotExist
| OtherError (msg : string).

Inductive error : Type :=
| ErrLib (e : liberror)
| ErrPanic
| ErrNoToken
| ErrMissingRefreshToken
| ErrMissingCredentials
| ErrNotAuthenticated
| ErrMissingStateOrCode
| ErrStateMismatch
| ErrTokenExchangeFailed (body : string)
| ErrRefreshFailed (body : string)
| ErrListener (e : error)
| ErrOffset (offset : Z) (e : error).

(** [errors.Is(err, os.ErrNotExist)]: looks through the [%w] wrappers. *)
Fixpoint is_not_exist (e : error) : bool :=
  match e with
  | ErrLib NotExist => true
  | ErrListener e' => is_not_exist e'
  | ErrOffset _ e' => is_not_exist e'
  | _ => false
  end.

Inductive result (A : Type) : Type :=
| Ok (a : A)
| Err (e : error).
Arguments Ok {A} a.
Arguments Err {A} e.

Definition is_ok {A} (r : result A) : bool :=
  match r with Ok _ => true | Err _ => false end.

(** What an oracle answers: a value, or an error of its own making. *)
Inductive outcome (A : Type) : Type :=
| Got (a : A)
| Failed (e : liberror).
Arguments Got {A} a.
Arguments Failed {A} e.

Definition lift {A} (o : outcome A) : result A :=
  match o with Got a => Ok a | Failed e => Err (ErrLib e) end.

Definition nonempty (s : string) : bool := negb (String.eqb s "").

(** ** Records of the file *)

Record spotifyTokenStore : Type := {
  AccessToken : string;
  RefreshToken : string;
  ExpiresAt : Z;
  Scope : string;
  TokenType : string
}.

Record SpotifyAuthStatus : Type := {
  Authenticated : bool;
  status_DisplayName : string;
  UserID : string;
  AvatarURL : string;
  status_ExpiresAt : Z;
  status_Scope : string
}.

(** [SpotifyAuthStatus{}] *)
Definition SpotifyAuthStatus_zero : SpotifyAuthStatus :=
  {| Authenticated := false; status_DisplayName := ""; UserID := "";
     AvatarURL := ""; status_ExpiresAt := 0; status_Scope := "" |}.

Record SpotifyLoginResponse : Type := { URL : string }.

(** [Images] holds the [URL] field of each image. *)
Record spotifyUserProfile : Type := {
  ID : string;
  DisplayName : string;
  Email : string;
  Images : list string
}.

(** The anonymous [tokenResp] struct both token calls decode into. *)
Record tokenResp : Type := {
  resp_AccessToken : string;
  ExpiresIn : Z;
  resp_RefreshToken : string;
  resp_Scope : string;
  resp_TokenType : string
}.

(** The form and the credentials of a POST to the token endpoint. *)
Inductive grant : Type :=
| AuthorizationCode (code redirect_uri code_verifier : string)
| RefreshGrant (refresh_token : string).

Record tokenRequest : Type := {
  req_grant : grant;
  req_clientID : string;
  req_clientSecret : string
}.

Record httpResponse : Type := { StatusCode : Z; Body : string }.

(** A reading of [time.Now()]: [Unix()] and the nanoseconds within it. *)
Record Time : Type := { Unix : Z; Nanosecond : Z }.

(** A channel of capacity one, as [loginWait] is made; [ChanNil] is the
    zero value the manager starts with. *)
Inductive chan1 : Type :=
| ChanNil
| ChanEmpty
| ChanFull (v : option error).

Record spotifyAuthManager : Type := {
  tokens : option spotifyTokenStore;
  profile : option spotifyUserProfile;
  verifier : string;
  state : string;
  redirect : string;
  server : option Z;
  loginWait : chan1
}.

(** ** The world outside the manager *)

Inductive fsOp : Type := OpReadFile | OpWriteFile | OpMkdirAll | OpRemove.

(** The calls a test double would record. *)
Inductive event : Type :=
| EvExchange (code redirectURI verifier : string)
| EvRefresh (refreshToken : string)
| EvHttpPost (req : tokenRequest)
| EvGetJSON (url token : string)
| EvHttpError (msg : string) (code : Z)
| EvPage (contentType body : string)
| EvListen (addr : string)
| EvListenerClose (port : Z)
| EvServe (port : Z)
| EvServerClose (port : Z)
| EvMkdirAll (path : string)
| EvWriteFile (path data : string)
| EvRemove (path : string).

(** What the code reaches through other packages and through the rest of
    the repository.  Oracles that can answer differently from call to call
    take the number of oracle calls made so far. *)
Record Env : Type := {
  (** [getSpotiDownloaderDir], declared in another file of the package *)
  getSpotiDownloaderDir : outcome string;
  (** [spotifyTokenURL] is declared in another file: [http.NewRequest]
      fails only if it does not parse *)
  newTokenRequest : option liberror;
  filepath_Join : string -> string -> string;
  filepath_Dir : string -> string;
  (** an operation the operating system refuses on a path *)
  fsFault : fsOp -> string -> option liberror;
  time_Now : nat -> Time;
  (** [rand.Read]: the stream of bytes it fills a buffer from *)
  rand_Read : nat -> outcome (nat -> byte);
  strings_TrimSpace : string -> string;
  sha256_Sum256 : list byte -> list byte;
  (** [url.Values.Encode] of the given keys and values *)
  url_Encode : list (string * string) -> string;
  net_Listen : nat -> string -> outcome Z;
  (** [http.DefaultClient.Do] on the token endpoint *)
  http_Do : nat -> tokenRequest -> outcome httpResponse;
  json_decodeTokenResp : string -> outcome tokenResp;
  json_MarshalIndent : spotifyTokenStore -> string;
  json_Unmarshal : string -> outcome spotifyTokenStore;
  (** [NewSpotifyMetadataClient().getJSON] into a [spotifyUserProfile] *)
  getJSON_profile : nat -> string -> string -> outcome spotifyUserProfile
}.

Record St : Type := {
  mgr : spotifyAuthManager;
  files : gmap string string;
  ticks : nat;
  trace : list event
}.

(** ** State passing *)

Definition M (A : Type) : Type := St -> A * St.

Definition ret {A} (a : A) : M A := fun s => (a, s).

Definition bind {A B} (c : M A) (k : A -> M B) : M B :=
  fun s => let (a, s') := c s in k a s'.

(** [if err != nil { return ..., err }] *)
Definition bind_ok {A B} (c : M (result A)) (k : A -> M (result B)) : M (result B) :=
  bind c (fun r => match r with Ok a => k a | Err e => ret (Err e) end).

Notation "'let*' x ':=' c 'in' k" := (bind c (fun x => k))
  (at level 10, x pattern, c at level 100, k at level 200).
Notation "'let?' x ':=' c 'in' k" := (bind_ok c (fun x => k))
  (at level 10, x pattern, c at level 100, k at level 200).

Definition get_mgr : M spotifyAuthManager := fun s => (mgr s, s).

Definition put_mgr (m : spotifyAuthManager) : M unit :=
  fun s => (tt, {| mgr := m; files := files s; ticks := ticks s; trace := trace s |}).

Definition modify_mgr (f : spotifyAuthManager -> spotifyAuthManager) : M unit :=
  let* m := get_mgr in put_mgr (f m).

Definition emit (e : event) : M unit :=
  fun s => (tt, {| mgr := mgr s; files := files s; ticks := ticks s;
                   trace := trace s ++ [e] |}).

(** One consultation of an oracle: its position in the run, then the
    counter moves on. *)
Definition tick : M nat :=
  fun s => (ticks s, {| mgr := mgr s; files := files s; ticks := S (ticks s);
                        trace := trace s |}).

Definition get_files : M (gmap string string) := fun s => (files s, s).

Definition put_files (fs : gmap string string) : M unit :=
  fun s => (tt, {| mgr := mgr s; files := fs; ticks := ticks s; trace := trace s |}).

Definition set_tokens (t : option spotifyTokenStore) (m : spotifyAuthManager) :=
  {| tokens := t; profile := profile m; verifier := verifier m; state := state m;
     redirect := redirect m; server := server m; loginWait := loginWait m |}.

Definition set_profile (p : option spotifyUserProfile) (m : spotifyAuthManager) :=
  {| tokens := tokens m; profile := p; verifier := verifier m; state := state m;
     redirect := redirect m; server := server m; loginWait := loginWait m |}.

Definition set_verifier (v : string) (m : spotifyAuthManager) :=
  {| tokens := tokens m; profile := profile m; verifier := v; state := state m;
     redirect := redirect m; server := server m; loginWait := loginWait m |}.

Definition set_state (v : string) (m : spotifyAuthManager) :=
  {| tokens := tokens m; profile := profile m; verifier := verifier m; state := v;
     redirect := redirect m; server := server m; loginWait := loginWait m |}.

Definition set_redirect (v : string) (m : spotifyAuthManager) :=
  {| tokens := tokens m; profile := profile m; verifier := verifier m; state := state m;
     redirect := v; server := server m; loginWait := loginWait m |}.

Definition set_server (v : option Z) (m : spotifyAuthManager) :=
  {| tokens := tokens m; profile := profile m; verifier := verifier m; state := state m;
     redirect := redirect m; server := v; loginWait := loginWait m |}.

Definition set_loginWait (v : chan1) (m : spotifyAuthManager) :=
  {| tokens := tokens m; profile := profile m; verifier := verifier m; state := state m;
     redirect := redirect m; server := server m; loginWait := v |}.

(** ** The os package on the modelled disk *)
Section Disk.
Variable env : Env.

Definition os_ReadFile (path : string) : M (result string) :=
  match fsFault env OpReadFile path with
  | Some e => ret (Err (ErrLib e))
  | None =>
      let* fs := get_files in
      match fs !! path with
      | Some data => ret (Ok data)
      | None => ret (Err (ErrLib NotExist))
      end
  end.

Definition os_WriteFile (path data : string) : M (result unit) :=
  match fsFault env OpWriteFile path with
  | Some e => ret (Err (ErrLib e))
  | None =>
      let* fs := get_files in
      let* _ := put_files (<[path := data]> fs) in
      let* _ := emit (EvWriteFile path data) in
      ret (Ok tt)
  end.

Definition os_MkdirAll (path : string) : M (result unit) :=
  match fsFault env OpMkdirAll path with
  | Some e => ret (Err (ErrLib e))
  | None => let* _ := emit (EvMkdirAll path) in ret (Ok tt)
  end.

(** [os.Remove]: removing a file that is not there is an error too. *)
Definition os_Remove (path : string) : M (result unit) :=
  match fsFault env OpRemove path with
  | Some e => ret (Err (ErrLib e))
  | None =>
      let* fs := get_files in
      match fs !! path with
      | Some _ =>
          let* _ := put_files (delete path fs) in
          let* _ := emit (EvRemove path) in
          ret (Ok tt)
      | None => ret (Err (ErrLib NotExist))
      end
  end.

End Disk.

(** ** Constants *)

Definition spotifyAuthorizeURL : string := "https://accounts.spotify.com/authorize".
Definition spotifyMeURL : string := "https://api.spotify.com/v1/me".
Definition defaultCallbackHost : string := "127.0.0.1:3000".
Definition spotifyScopes : string :=
  "user-library-read playlist-read-private playlist-read-collaborative".
Definition spotifyWorkerCount : nat := 8.

(** Two's-complement wrap-around of [int64] arithmetic. *)
Definition wrap64 (z : Z) : Z := ((z + 2 ^ 63) mod 2 ^ 64 - 2 ^ 63)%Z.

(** [time.Now().Add(time.Duration(expiresIn) * time.Second).Unix()], for
    the reading [t] of [time.Now()]: the duration is an [int64] count of
    nanoseconds. *)
Definition expiresAfter (t : Time) (expiresIn : Z) : Z :=
  (Unix t + (Nanosecond t + wrap64 (expiresIn * 1000000000)) / 1000000000)%Z.

(** ** Credentials, random strings, token calls *)
Section Backend.
Variable env : Env.

Definition spotifyTokenPath : result string :=
  match getSpotiDownloaderDir env with
  | Failed e => Err (ErrLib e)
  | Got dir => Ok (filepath_Join env dir "spotify_oauth.json")
  end.

Definition spotifyClientIDPath : result string :=
  match getSpotiDownloaderDir env with
  | Failed e => Err (ErrLib e)
  | Got dir => Ok (filepath_Join env dir "spotify_client_id")
  end.

Definition spotifyClientSecretPath : result string :=
  match getSpotiDownloaderDir env with
  | Failed e => Err (ErrLib e)
  | Got dir => Ok (filepath_Join env dir "spotify_client_secret")
  end.

Definition GetSpotifyClientID : M (result string) :=
  match spotifyClientIDPath with
  | Err e => ret (Err e)
  | Ok path =>
      let* r := os_ReadFile env path in
      match r with
      | Err e => if is_not_exist e then ret (Ok "") else ret (Err e)
      | Ok data => ret (Ok (strings_TrimSpace env data))
      end
  end.

Definition GetSpotifyClientSecret : M (result string) :=
  match spotifyClientSecretPath with
  | Err e => ret (Err e)
  | Ok path =>
      let* r := os_ReadFile env path in
      match r with
      | Err e => if is_not_exist e then ret (Ok "") else ret (Err e)
      | Ok data => ret (Ok (strings_TrimSpace env data))
      end
  end.

(** The fallback of [spotifyClientID] and [spotifyClientSecret]: the
    constant decoded, or the empty string if it does not decode. *)
Definition decoded_or_empty (constant : string) : string :=
  match Base64.decodeStdString constant with
  | Some decoded => string_of_list_byte decoded
  | None => ""
  end.

Definition spotifyClientID : M string :=
  let* r := GetSpotifyClientID in
  match r with
  | Ok custom =>
      if nonempty custom then ret custom
      else ret (decoded_or_empty "NWY1NzNjOTYyMDQ5NGJhZTg3ODkwYzBmMDhhNjAyOTM=")
  | Err _ => ret (decoded_or_empty "NWY1NzNjOTYyMDQ5NGJhZTg3ODkwYzBmMDhhNjAyOTM=")
  end.

Definition spotifyClientSecret : M string :=
  let* r := GetSpotifyClientSecret in
  match r with
  | Ok custom =>
      if nonempty custom then ret custom
      else ret (decoded_or_empty "MjEyNDc2ZDliMGYzNDcyZWFhNzYyZDkwYjE5YjBiYTg=")
  | Err _ => ret (decoded_or_empty "MjEyNDc2ZDliMGYzNDcyZWFhNzYyZDkwYjE5YjBiYTg=")
  end.

(** The buffer [rand.Read] has filled, from the stream of random bytes. *)
Definition filled (length : nat) (stream : nat -> byte) : list byte :=
  map stream (seq 0 length).

(** The value [randomString] returns once [rand.Read] has filled [buf]. *)
Definition randomString_of (length : nat) (buf : list byte) : string :=
  String.substring 0 length (Base64.encodeRawURL buf).

Definition randomString (length : nat) : M (result string) :=
  let* n := tick in
  match rand_Read env n with
  | Failed e => ret (Err (ErrLib e))
  | Got stream => ret (Ok (randomString_of length (filled length stream)))
  end.

Definition generateCodeVerifier : M (result string) := randomString 64.

Definition codeChallenge (verifier : string) : string :=
  Base64.encodeRawURL (sha256_Sum256 env (list_byte_of_string verifier)).

Definition buildAuthorizeURL (redirectURI state verifier : string) : M string :=
  let challenge := codeChallenge verifier in
  let* clientID := spotifyClientID in
  ret (spotifyAuthorizeURL ++ "?" ++
       url_Encode env [ ("client_id", clientID);
                    ("response_type", "code");
                    ("redirect_uri", redirectURI);
                    ("state", state);
                    ("scope", spotifyScopes);
                    ("code_challenge", challenge);
                    ("code_challenge_method", "S256");
                    ("show_dialog", "true") ]).

(** [exchangeCodeForToken].  The request is built before the credentials
    are looked up, and sent with them as basic authentication. *)
Definition exchangeCodeForToken (code redirectURI verifier : string)
  : M (result spotifyTokenStore) :=
  let* _ := emit (EvExchange code redirectURI verifier) in
  match newTokenRequest env with
  | Some e => ret (Err (ErrLib e))
  | None =>
      let* clientID := spotifyClientID in
      let* clientSecret := spotifyClientSecret in
      if negb (nonempty clientID) || negb (nonempty clientSecret)
      then ret (Err ErrMissingCredentials)
      else
        let req := {| req_grant := AuthorizationCode code redirectURI verifier;
                      req_clientID := clientID;
                      req_clientSecret := clientSecret |} in
        let* n := tick in
        let* _ := emit (EvHttpPost req) in
        match http_Do env n req with
        | Failed e => ret (Err (ErrLib e))
        | Got resp =>
            if negb (Z.eqb (StatusCode resp) 200)
            then ret (Err (ErrTokenExchangeFailed (Body resp)))
            else
              match json_decodeTokenResp env (Body resp) with
              | Failed e => ret (Err (ErrLib e))
              | Got tokenResp =>
                  let* n' := tick in
                  ret (Ok {| AccessToken := resp_AccessToken tokenResp;
                             RefreshToken := resp_RefreshToken tokenResp;
                             ExpiresAt := expiresAfter (time_Now env n')
                                                       (ExpiresIn tokenResp);
                             Scope := resp_Scope tokenResp;
                             TokenType := resp_TokenType tokenResp |})
              end
        end
  end.

(** [refreshAccessToken]. *)
Definition refreshAccessToken (refreshToken : string) : M (result spotifyTokenStore) :=
  let* _ := emit (EvRefresh refreshToken) in
  match newTokenRequest env with
  | Some e => ret (Err (ErrLib e))
  | None =>
      let* clientID := spotifyClientID in
      let* clientSecret := spotifyClientSecret in
      if negb (nonempty clientID) || negb (nonempty clientSecret)
      then ret (Err ErrMissingCredentials)
      else
        let req := {| req_grant := RefreshGrant refreshToken;
                      req_clientID := clientID;
                      req_clientSecret := clientSecret |} in
        let* n := tick in
        let* _ := emit (EvHttpPost req) in
        match http_Do env n req with
        | Failed e => ret (Err (ErrLib e))
        | Got resp =>
            if negb (Z.eqb (StatusCode resp) 200)
            then ret (Err (ErrRefreshFailed (Body resp)))
            else
              match json_decodeTokenResp env (Body resp) with
              | Failed e => ret (Err (ErrLib e))
              | Got tokenResp =>
                  let refreshToken' :=
                    if negb (nonempty (resp_RefreshToken tokenResp)) then refreshToken
                    else resp_RefreshToken tokenResp in
                  let* n' := tick in
                  ret (Ok {| AccessToken := resp_AccessToken tokenResp;
                             RefreshToken := refreshToken';
                             ExpiresAt := expiresAfter (time_Now env n')
                                                       (ExpiresIn tokenResp);
                             Scope := resp_Scope tokenResp;
                             TokenType := resp_TokenType tokenResp |})
              end
        end
  end.

End Backend.

(** ** The methods of [spotifyAuthManager]

    Every method below runs with [m.mu] held from its first line to its
    return, so each is one atomic function of the state. *)
Section Manager.
Variable env : Env.

Definition saveTokens (t : spotifyTokenStore) : M (result unit) :=
  let* _ := modify_mgr (set_tokens (Some t)) in
  match spotifyTokenPath env with
  | Err e => ret (Err e)
  | Ok path =>
      let? _ := os_MkdirAll env (filepath_Dir env path) in
      os_WriteFile env path (json_MarshalIndent env t)
  end.

Definition loadTokensFromDisk : M (result unit) :=
  match spotifyTokenPath env with
  | Err e => ret (Err e)
  | Ok path =>
      let? data := os_ReadFile env path in
      match json_Unmarshal env data with
      | Failed e => ret (Err (ErrLib e))
      | Got t => let* _ := modify_mgr (set_tokens (Some t)) in ret (Ok tt)
      end
  end.

(** [newSpotifyAuthManager]: the zero manager, then whatever the disk
    holds; a failure to load is ignored here. *)
Definition manager_zero : spotifyAuthManager :=
  {| tokens := None; profile := None; verifier := ""; state := ""; redirect := "";
     server := None; loginWait := ChanNil |}.

Definition newSpotifyAuthManager : M unit :=
  let* _ := put_mgr manager_zero in
  let* _ := loadTokensFromDisk in
  ret tt.

Definition ensureFreshTokenLocked : M (result unit) :=
  let* m := get_mgr in
  match tokens m with
  | None => ret (Err ErrNoToken)
  | Some t =>
      let* n := tick in
      if (wrap64 (Unix (time_Now env n) + 30) <? ExpiresAt t)%Z then ret (Ok tt)
      else if negb (nonempty (RefreshToken t)) then ret (Err ErrMissingRefreshToken)
      else
        let? refreshed := refreshAccessToken env (RefreshToken t) in
        saveTokens refreshed
  end.

Definition fetchProfileLocked : M (result spotifyUserProfile) :=
  let* m := get_mgr in
  match tokens m with
  | None => ret (Err ErrNotAuthenticated)
  | Some _ =>
      let? _ := ensureFreshTokenLocked in
      let* m' := get_mgr in
      match tokens m' with
      | None => ret (Err ErrPanic)
      | Some t =>
          let* n := tick in
          let* _ := emit (EvGetJSON spotifyMeURL (AccessToken t)) in
          ret (lift (getJSON_profile env n spotifyMeURL (AccessToken t)))
      end
  end.

(** The [select] with a [default]: the value goes in if the slot is free. *)
Definition pushLoginError (err : option error) : M unit :=
  modify_mgr (fun m =>
    match loginWait m with
    | ChanEmpty => set_loginWait (ChanFull err) m
    | _ => m
    end).

(** [m.server.Close()] if there is a server, then [m.server = nil]. *)
Definition closeServer : M unit :=
  let* m := get_mgr in
  let* _ := match server m with
            | Some port => emit (EvServerClose port)
            | None => ret tt
            end in
  modify_mgr (set_server None).

(** [startLogin].  The two goroutines it leaves behind, the one that
    serves the listener and the one that closes the server when the
    caller's context ends, run outside the manager's lock and are not part
    of the state; [EvServe] records that the server was started. *)
Definition startLogin : M (result SpotifyLoginResponse) :=
  let* _ := closeServer in
  let* n := tick in
  let* _ := emit (EvListen defaultCallbackHost) in
  let* ln :=
    match net_Listen env n defaultCallbackHost with
    | Got port => ret (Ok port)
    | Failed _ =>
        let* n' := tick in
        let* _ := emit (EvListen "127.0.0.1:0") in
        ret (lift (net_Listen env n' "127.0.0.1:0"))
    end in
  match ln with
  | Err e => ret (Err (ErrListener e))
  | Ok port =>
      let* _ := modify_mgr (set_redirect
                  ("http://127.0.0.1:" ++ pretty port ++ "/callback")) in
      let* v := generateCodeVerifier env in
      match v with
      | Err e => let* _ := emit (EvListenerClose port) in ret (Err e)
      | Ok verifier' =>
          let* _ := modify_mgr (set_verifier verifier') in
          let* st := randomString env 32 in
          let* _ := modify_mgr (set_state
                      match st with Ok s => s | Err _ => "" end) in
          match st with
          | Err e => let* _ := emit (EvListenerClose port) in ret (Err e)
          | Ok state' =>
              let* m := get_mgr in
              let* authURL := buildAuthorizeURL env (redirect m) state' verifier' in
              let* _ := modify_mgr (set_server (Some port)) in
              let* _ := modify_mgr (set_loginWait ChanEmpty) in
              let* _ := emit (EvServe port) in
              ret (Ok {| URL := authURL |})
          end
      end
  end.

(** The two query parameters the handler reads; [Get] gives the empty
    string for a parameter that is absent. *)
Record callbackRequest : Type := { query_state : string; query_code : string }.

Definition handleCallback_body (r : callbackRequest) : M unit :=
  let state' := query_state r in
  let code := query_code r in
  if negb (nonempty state') || negb (nonempty code) then
    let* _ := emit (EvHttpError "Invalid response from Spotify" 400) in
    pushLoginError (Some ErrMissingStateOrCode)
  else
    let* m := get_mgr in
    if negb (String.eqb state' (state m)) then
      let* _ := emit (EvHttpError "State mismatch" 400) in
      pushLoginError (Some ErrStateMismatch)
    else
      let* tokenResp := exchangeCodeForToken env code (redirect m) (verifier m) in
      match tokenResp with
      | Err e =>
          let* _ := emit (EvHttpError "Failed to exchange code" 500) in
          pushLoginError (Some e)
      | Ok t =>
          let* saved := saveTokens t in
          match saved with
          | Err e =>
              let* _ := emit (EvHttpError "Failed to persist token" 500) in
              pushLoginError (Some e)
          | Ok _ =>
              let* prof := fetchProfileLocked in
              match prof with
              | Err e =>
                  let* _ := emit (EvHttpError "Failed to fetch profile" 500) in
                  pushLoginError (Some e)
              | Ok p =>
                  let* _ := modify_mgr (set_profile (Some p)) in
                  let* _ := emit (EvPage "text/html"
                    "<html><body><p>Spotify login successful. You can close this window.</p></body></html>") in
                  pushLoginError None
              end
          end
      end.

(** The deferred function runs on every way out of the handler. *)
Definition handleCallback (r : callbackRequest) : M unit :=
  let* _ := handleCallback_body r in
  closeServer.

Definition status : M (result SpotifyAuthStatus) :=
  let* m := get_mgr in
  let* loaded :=
    match tokens m with
    | Some _ => ret (Ok tt)
    | None =>
        let* r := loadTokensFromDisk in
        match r with
        | Err e => if negb (is_not_exist e) then ret (Err e) else ret (Ok tt)
        | Ok _ => ret (Ok tt)
        end
    end in
  match loaded with
  | Err e => ret (Err e)
  | Ok _ =>
      let* m1 := get_mgr in
      match tokens m1 with
      | None =>
          ret (Ok {| Authenticated := false; status_DisplayName := ""; UserID := "";
                     AvatarURL := ""; status_ExpiresAt := 0; status_Scope := "" |})
      | Some _ =>
          let? _ := ensureFreshTokenLocked in
          let* m2 := get_mgr in
          let? _ :=
            match profile m2 with
            | Some _ => ret (Ok tt)
            | None =>
                let? prof := fetchProfileLocked in
                let* _ := modify_mgr (set_profile (Some prof)) in
                ret (Ok tt)
            end in
          let* m3 := get_mgr in
          match profile m3, tokens m3 with
          | Some p, Some t =>
              ret (Ok {| Authenticated := true;
                         status_DisplayName := DisplayName p;
                         UserID := ID p;
                         AvatarURL := match Images p with
                                      | url :: _ => url
                                      | [] => ""
                                      end;
                         status_ExpiresAt := ExpiresAt t;
                         status_Scope := Scope t |})
          | _, _ => ret (Err ErrPanic)
          end
      end
  end.

Definition logout : M (result unit) :=
  let* _ := modify_mgr (set_tokens None) in
  let* _ := modify_mgr (set_profile None) in
  match spotifyTokenPath env with
  | Ok tokenPath => let* _ := os_Remove env tokenPath in ret (Ok tt)
  | Err _ => ret (Ok tt)
  end.

End Manager.

(** ** The worker pool of [runTrackPageWorkers]

    [AlbumTrackMetadata] is declared in another file of the package; the
    pool never looks inside a track.  A slice is an [option]: [None] is the
    nil slice, which the collector tells apart from an empty one. *)
Section Pool.
Variable AlbumTrackMetadata : Type.

Record trackPageResult : Type := {
  offset : Z;
  tracks : option (list AlbumTrackMetadata);
  err : option error
}.

(** The per-offset fetch function: its two return values.  It is taken to
    answer the same for the same offset. *)
Variable fetch : Z -> option (list AlbumTrackMetadata) * option error.

(** What a worker puts on [results] for one offset, given what
    [ctx.Err()] says when the worker looks. *)
Definition job_result (ctxErr : option error) (o : Z) : trackPageResult :=
  match ctxErr with
  | Some e => {| offset := o; tracks := None; err := Some e |}
  | None =>
      match fetch o with
      | (_, Some e) => {| offset := o; tracks := None; err := Some e |}
      | (ts, None) => {| offset := o; tracks := ts; err := None |}
      end
  end.

(** A worker goroutine: blocked on [range jobs], holding an offset it has
    received, blocked on the send to [results], or returned. *)
Inductive worker : Type :=
| WIdle
| WGot (o : Z)
| WSend (r : trackPageResult)
| WDone.

(** The feeding goroutine: offsets still to send, [jobs] closed and
    waiting on the wait group, or [results] closed. *)
Inductive dispatcher : Type :=
| DFeed (queue : list Z)
| DWait
| DClosed.

Record pool : Type := {
  feeder : dispatcher;
  workers : list worker;
  ctx_err : option error;
  collected : list trackPageResult;
  firstErr : option error;
  (** ghost: every result the collector has received, in arrival order *)
  arrived : list trackPageResult
}.

Definition workerCount (offsets : list Z) : nat :=
  if Nat.ltb (List.length offsets) spotifyWorkerCount then List.length offsets
  else spotifyWorkerCount.

(** The pool once the goroutines are spawned, none of them yet run. *)
Definition start (offsets : list Z) : pool :=
  {| feeder := DFeed offsets;
     workers := repeat WIdle (workerCount offsets);
     ctx_err := None;
     collected := [];
     firstErr := None;
     arrived := [] |}.

(** The body of [for res := range results]. *)
Definition collect (res : trackPageResult) (p : pool) : pool :=
  {| feeder := feeder p;
     workers := workers p;
     ctx_err := ctx_err p;
     collected := match tracks res with
                  | Some _ => collected p ++ [res]
                  | None => collected p
                  end;
     firstErr := match err res, firstErr p with
                 | Some e, None => Some (ErrOffset (offset res) e)
                 | _, _ => firstErr p
                 end;
     arrived := arrived p ++ [res] |}.

Definition with_feeder (d : dispatcher) (p : pool) : pool :=
  {| feeder := d; workers := workers p; ctx_err := ctx_err p;
     collected := collected p; firstErr := firstErr p; arrived := arrived p |}.

Definition with_worker (i : nat) (w : worker) (p : pool) : pool :=
  {| feeder := feeder p; workers := <[i := w]> (workers p); ctx_err := ctx_err p;
     collected := collected p; firstErr := firstErr p; arrived := arrived p |}.

Definition with_ctx_err (e : option error) (p : pool) : pool :=
  {| feeder := feeder p; workers := workers p; ctx_err := e;
     collected := collected p; firstErr := firstErr p; arrived := arrived p |}.

Definition is_done (w : worker) : bool :=
  match w with WDone => true | _ => false end.

(** One step of one goroutine. *)
Inductive action : Type :=
| ASend (i : nat)      (* [jobs <- offset] meets worker [i]'s receive *)
| ACloseJobs           (* [close(jobs)] *)
| AWork (i : nat)      (* worker [i]: the [ctx.Err()] test and the fetch *)
| ARecv (i : nat)      (* worker [i]'s send meets the collector's receive *)
| AExit (i : nat)      (* worker [i] finds [jobs] closed and returns *)
| ACloseResults        (* [wg.Wait()] returns, [close(results)] *)
| ACancel (e : error). (* the context is cancelled or times out *)

Definition step (a : action) (p : pool) : option pool :=
  match a with
  | ASend i =>
      match feeder p, workers p !! i with
      | DFeed (o :: queue), Some WIdle =>
          Some (with_worker i (WGot o) (with_feeder (DFeed queue) p))
      | _, _ => None
      end
  | ACloseJobs =>
      match feeder p with
      | DFeed [] => Some (with_feeder DWait p)
      | _ => None
      end
  | AWork i =>
      match workers p !! i with
      | Some (WGot o) => Some (with_worker i (WSend (job_result (ctx_err p) o)) p)
      | _ => None
      end
  | ARecv i =>
      match workers p !! i with
      | Some (WSend r) => Some (collect r (with_worker i WIdle p))
      | _ => None
      end
  | AExit i =>
      match feeder p, workers p !! i with
      | DFeed _, _ => None
      | _, Some WIdle => Some (with_worker i WDone p)
      | _, _ => None
      end
  | ACloseResults =>
      match feeder p with
      | DWait => if forallb is_done (workers p) then Some (with_feeder DClosed p)
                 else None
      | _ => None
      end
  | ACancel e =>
      match ctx_err p with
      | None => Some (with_ctx_err (Some e) p)
      | Some _ => None
      end
  end.

(** A schedule: the actions taken, in order. *)
Fixpoint exec (acts : list action) (p : pool) : option pool :=
  match acts with
  | [] => Some p
  | a :: rest =>
      match step a p with
      | Some p' => exec rest p'
      | None => None
      end
  end.

(** [less] of the [sort.Slice] call. *)
Definition less (a b : trackPageResult) : bool := (offset a <? offset b)%Z.

Fixpoint insert_sorted (x : trackPageResult) (l : list trackPageResult)
  : list trackPageResult :=
  match l with
  | [] => [x]
  | y :: r => if less y x then y :: insert_sorted x r else x :: y :: r
  end.

(** [sort.Slice(collected, less)].  The library promises a permutation in
    which no element is [less] than an earlier one, and no more (the sort
    is not stable); insertion sort is one such. *)
Definition sortSlice (l : list trackPageResult) : list trackPageResult :=
  fold_right insert_sorted [] l.

(** The lines after the collecting loop, once [results] is closed. *)
Definition finish (p : pool) : option (list trackPageResult) * option error :=
  let firstErr' := match firstErr p, ctx_err p with
                   | None, Some e => Some e
                   | fe, _ => fe
                   end in
  match firstErr' with
  | Some e => (None, Some e)
  | None => (Some (sortSlice (collected p)), None)
  end.

(** [runTrackPageWorkers] either returns at once or spawns the pool. *)
Inductive launch : Type :=
| Immediate (out : option (list trackPageResult) * option error)
| Spawned (p : pool).

Definition runTrackPageWorkers_launch (offsets : list Z) : launch :=
  match offsets with
  | [] => Immediate (None, None)
  | _ :: _ => Spawned (start offsets)
  end.

Definition spawned_workers (l : launch) : nat :=
  match l with
  | Immediate _ => 0
  | Spawned p => List.length (workers p)
  end.

(** [runTrackPageWorkers offsets out]: the call can return [out], under
    some schedule of the goroutines and some moment of cancellation. *)
Definition runTrackPageWorkers (offsets : list Z)
    (out : option (list trackPageResult) * option error) : Prop :=
  match runTrackPageWorkers_launch offsets with
  | Immediate o => out = o
  | Spawned p0 =>
      exists acts p, exec acts p0 = Some p /\ feeder p = DClosed /\ out = finish p
  end.

(** The same, for the runs in which the context stays live to the end. *)
Definition runTrackPageWorkers_live (offsets : list Z)
    (out : option (list trackPageResult) * option error) : Prop :=
  match runTrackPageWorkers_launch offsets with
  | Immediate o => out = o
  | Spawned p0 =>
      exists acts p, exec acts p0 = Some p /\ feeder p = DClosed /\
                     ctx_err p = None /\ out = finish p
  end.

(** The elements of a slice. *)
Definition elems {A} (s : option (list A)) : list A :=
  match s with Some l => l | None => [] end.

Definition has_tracks (r : trackPageResult) : bool :=
  match tracks r with Some _ => true | None => false end.

(** The page a successful fetch of [o] delivers, kept under its offset. *)
Definition page (o : Z) : trackPageResult :=
  {| offset := o; tracks := fst (fetch o); err := None |}.

(** Strictly sequential fetching, as the specification words it: every
    offset in turn, each page kept under its offset. *)
Definition sequential_pages (offsets : list Z) : list trackPageResult :=
  map page offsets.

(** What both callers do with the pages returned:
    [tracks = append(tracks, page.tracks...)] for each in turn. *)
Definition all_tracks (rs : list trackPageResult) : list AlbumTrackMetadata :=
  flat_map (fun r => elems (tracks r)) rs.

End Pool.

Arguments offset {AlbumTrackMetadata} t.
Arguments tracks {AlbumTrackMetadata} t.
Arguments err {AlbumTrackMetadata} t.
Arguments feeder {AlbumTrackMetadata} p.
Arguments workers {AlbumTrackMetadata} p.
Arguments ctx_err {AlbumTrackMetadata} p.
Arguments collected {AlbumTrackMetadata} p.
Arguments firstErr {AlbumTrackMetadata} p.
Arguments arrived {AlbumTrackMetadata} p.
Arguments WIdle {AlbumTrackMetadata}.
Arguments WGot {AlbumTrackMetadata} o.
Arguments WSend {AlbumTrackMetadata} r.
Arguments WDone {AlbumTrackMetadata}.
Arguments Immediate {AlbumTrackMetadata} out.
Arguments Spawned {AlbumTrackMetadata} p.
Arguments start {AlbumTrackMetadata} offsets.
Arguments collect {AlbumTrackMetadata} res p.
Arguments with_feeder {AlbumTrackMetadata} d p.
Arguments with_worker {AlbumTrackMetadata} i w p.
Arguments with_ctx_err {AlbumTrackMetadata} e p.
Arguments is_done {AlbumTrackMetadata} w.
Arguments less {AlbumTrackMetadata} a b.
Arguments insert_sorted {AlbumTrackMetadata} x l.
Arguments sortSlice {AlbumTrackMetadata} l.
Arguments finish {AlbumTrackMetadata} p.
Arguments runTrackPageWorkers_launch {AlbumTrackMetadata} offsets.
Arguments spawned_workers {AlbumTrackMetadata} l.
Arguments has_tracks {AlbumTrackMetadata} r.
Arguments job_result {AlbumTrackMetadata} fetch ctxErr o.
Arguments step {AlbumTrackMetadata} fetch a p.
Arguments exec {AlbumTrackMetadata} fetch acts p.
Arguments runTrackPageWorkers {AlbumTrackMetadata} fetch offsets out.
Arguments runTrackPageWorkers_live {AlbumTrackMetadata} fetch offsets out.
Arguments page {AlbumTrackMetadata} fetch o.
Arguments sequential_pages {AlbumTrackMetadata} fetch offsets.
Arguments all_tracks {AlbumTrackMetadata} rs.

(** ** Ghost definitions for the proofs about the pool *)
Section PoolGhost.
Context {AlbumTrackMetadata : Type}.
Implicit Types (p : pool AlbumTrackMetadata) (r : trackPageResult AlbumTrackMetadata).

Definition queue_of (d : dispatcher) : list Z :=
  match d with DFeed q => q | _ => [] end.

(** The offset a worker holds, as a job or inside a result not yet sent. *)
Definition held (w : worker AlbumTrackMetadata) : list Z :=
  match w with
  | WGot o => [o]
  | WSend r => [offset r]
  | _ => []
  end.

(** Where every offset is: received, in a worker's hands, or queued. *)
Definition accounted p : list Z :=
  map offset (arrived p) ++ flat_map held (workers p) ++ queue_of (feeder p).

(** The error the collecting loop keeps: the first one to arrive, wrapped
    with its offset. *)
Fixpoint first_failure (l : list (trackPageResult AlbumTrackMetadata)) : option error :=
  match l with
  | [] => None
  | r :: rest =>
      match err r with
      | Some e => Some (ErrOffset (offset r) e)
      | None => first_failure rest
      end
  end.

(** The first result that carries an error. *)
Definition first_failed (l : list (trackPageResult AlbumTrackMetadata))
  : option (trackPageResult AlbumTrackMetadata) :=
  List.find (fun r => match err r with Some _ => true | None => false end) l.

(** The number of steps a goroutine has left at most. *)
Definition worker_weight (w : worker AlbumTrackMetadata) : nat :=
  match w with WGot _ => 3 | WSend _ => 2 | WIdle => 1 | WDone => 0 end.

Definition feeder_weight (d : dispatcher) : nat :=
  match d with DFeed q => 2 + 3 * List.length q | DWait => 1 | DClosed => 0 end.

Definition weight p : nat :=
  feeder_weight (feeder p) + list_sum (map worker_weight (workers p))
  + match ctx_err p with None => 1 | Some _ => 0 end.

Definition is_cancel (a : action) : bool :=
  match a with ACancel _ => true | _ => false end.

Definition le_offset r1 r2 : Prop := (offset r1 <= offset r2)%Z.

Variable fetch : Z -> option (list AlbumTrackMetadata) * option error.

(** What each result in the pool is: the outcome of its job under some
    reading of the context, and the outcome of the fetch itself as long as
    the context is live. *)
Definition sound p r : Prop :=
  (exists c, r = job_result fetch c (offset r)) /\
  (ctx_err p = None -> r = job_result fetch None (offset r)).

Definition sound_worker p (w : worker AlbumTrackMetadata) : Prop :=
  match w with WSend r => sound p r | _ => True end.

(** The invariant of a run over [offsets]. *)
Record Inv (offsets : list Z) p : Prop := {
  inv_accounted : accounted p ≡ₚ offsets;
  inv_arrived : Forall (sound p) (arrived p);
  inv_workers : Forall (sound_worker p) (workers p);
  inv_collected : collected p = List.filter has_tracks (arrived p);
  inv_firstErr : firstErr p = first_failure (arrived p);
  inv_feeding : (exists q, feeder p = DFeed q) -> Forall (fun w => w <> WDone) (workers p);
  inv_closed : feeder p = DClosed -> Forall (fun w => w = WDone) (workers p);
  inv_count : List.length (workers p) = workerCount offsets
}.

End PoolGhost.

(** ** Concrete inputs *)

(** A fetch that succeeds with a nil slice, as a Go function that returns
    [nil, nil] does. *)
Definition fetch_nil (o : Z) : option (list Z) * option error := (None, None).

(** A fetch that succeeds everywhere, with one track per page. *)
Definition fetch_ok (o : Z) : option (list Z) * option error := (Some [o], None).

(** A fetch that fails at offset 100. *)
Definition fetch_fail (o : Z) : option (list Z) * option error :=
  if (o =? 100)%Z then (None, Some (ErrLib (OtherError "unexpected status 500")))
  else (Some [o], None).

(** One worker, one offset, from the send to the close of [results]. *)
Definition schedule_one : list action :=
  [ASend 0; AWork 0; ARecv 0; ACloseJobs; AExit 0; ACloseResults].

(** ** Reading the trace, and what the token calls come to *)

Definition is_refresh (e : event) : bool :=
  match e with EvRefresh _ => true | _ => false end.

Definition is_exchange (e : event) : bool :=
  match e with EvExchange _ _ _ => true | _ => false end.

Definition is_post (e : event) : bool :=
  match e with EvHttpPost _ => true | _ => false end.

(** The number of calls of [refreshAccessToken], of
    [exchangeCodeForToken], and of requests sent to the token endpoint. *)
Definition refresh_calls (evs : list event) : nat := List.length (List.filter is_refresh evs).
Definition exchange_calls (evs : list event) : nat := List.length (List.filter is_exchange evs).
Definition posts (evs : list event) : nat := List.length (List.filter is_post evs).

(** The request a token call sends from state [s]. *)
Definition request_of (env : Env) (g : grant) (s : St) : tokenRequest :=
  {| req_grant := g;
     req_clientID := fst (spotifyClientID env s);
     req_clientSecret := fst (spotifyClientSecret env s) |}.

(** What a token call makes of the answer to its request. *)
Definition reply_of (env : Env) (failed : string -> error) (o : outcome httpResponse)
  : result tokenResp :=
  match o with
  | Failed e => Err (ErrLib e)
  | Got resp =>
      if negb (Z.eqb (StatusCode resp) 200) then Err (failed (Body resp))
      else lift (json_decodeTokenResp env (Body resp))
  end.

(** [s] after [n] more oracle calls and the events [evs]. *)
Definition with_trace (s : St) (n : nat) (evs : list event) : St :=
  {| mgr := mgr s; files := files s; ticks := n + ticks s; trace := (trace s ++ evs)%list |}.

(** The record a token call builds from a decoded response. *)
Definition token_of (refreshToken : string) (now : Time) (r : tokenResp) : spotifyTokenStore :=
  {| AccessToken := resp_AccessToken r;
     RefreshToken := refreshToken;
     ExpiresAt := expiresAfter now (ExpiresIn r);
     Scope := resp_Scope r;
     TokenType := resp_TokenType r |}.

(** ** Test doubles *)

Definition appDir : string := "/home/user/.spotidownloader".
Definition tokenPath : string := "/home/user/.spotidownloader/spotify_oauth.json".

Definition no_fault (op : fsOp) (path : string) : option liberror := None.

(** An operating system that refuses every removal. *)
Definition remove_refused (op : fsOp) (path : string) : option liberror :=
  match op with
  | OpRemove => Some (OtherError "permission denied")
  | _ => None
  end.

(** A 200 response with an access token and no new refresh token. *)
Definition resp_ok : tokenResp :=
  {| resp_AccessToken := "BQ-access"; ExpiresIn := 3600; resp_RefreshToken := "";
     resp_Scope := spotifyScopes; resp_TokenType := "Bearer" |}.


Definition tok_fresh : spotifyTokenStore :=
  {| AccessToken := "BQ-stored"; RefreshToken := "rt-1"; ExpiresAt := 4102444800;
     Scope := spotifyScopes; TokenType := "Bearer" |}.

(** Ten seconds left on the clock of [test_env]. *)
Definition tok_stale : spotifyTokenStore :=
  {| AccessToken := "BQ-stored"; RefreshToken := "rt-1"; ExpiresAt := 1700000010;
     Scope := spotifyScopes; TokenType := "Bearer" |}.

Definition tok_stale_no_refresh : spotifyTokenStore :=
  {| AccessToken := "BQ-stored"; RefreshToken := ""; ExpiresAt := 1700000010;
     Scope := spotifyScopes; TokenType := "Bearer" |}.

Definition profile0 : spotifyUserProfile :=
  {| ID := "user-1"; DisplayName := "User One"; Email := "user@example.org";
     Images := ["https://i.scdn.co/image/1"] |}.

(** An environment in which everything answers: the token endpoint with
    a 200 that decodes to [resp], the disk as [fault] allows. *)
Definition test_env (fault : fsOp -> string -> option liberror) (resp : tokenResp) : Env :=
  {| getSpotiDownloaderDir := Got appDir;
     newTokenRequest := None;
     filepath_Join := fun dir name => (dir ++ "/" ++ name)%string;
     filepath_Dir := fun _ => appDir;
     fsFault := fault;
     time_Now := fun _ => {| Unix := 1700000000; Nanosecond := 0 |};
     rand_Read := fun _ => Got (fun _ => x00);
     strings_TrimSpace := fun s => s;
     sha256_Sum256 := fun _ => repeat x00 32;
     url_Encode := fun kvs => String.concat "&" (map (fun kv => (fst kv ++ "=" ++ snd kv)%string) kvs);
     net_Listen := fun _ _ => Got 3000%Z;
     http_Do := fun _ _ => Got {| StatusCode := 200; Body := "body" |};
     json_decodeTokenResp := fun _ => Got resp;
     json_MarshalIndent := fun t => (AccessToken t ++ "," ++ RefreshToken t)%string;
     json_Unmarshal := fun _ => Got tok_fresh;
     getJSON_profile := fun _ _ _ => Got profile0 |}.

Definition manager_with (t : option spotifyTokenStore) (issued : string) : spotifyAuthManager :=
  {| tokens := t; profile := None; verifier := "verifier-0"; state := issued;
     redirect := "http://127.0.0.1:3000/callback"; server := Some 3000%Z;
     loginWait := ChanEmpty |}.

Definition no_files : gmap string string := ∅.

Definition st_with (m : spotifyAuthManager) (fs : gmap string string) : St :=
  {| mgr := m; files := fs; ticks := 0; trace := [] |}.

(** Two streams of random bytes that differ at byte 31 only. *)
Definition stream_a (i : nat) : byte := x00.
Definition stream_b (i : nat) : byte := if Nat.eqb i 31 then xff else x00.

(** * The settings calls and the library fetchers *)

(** ** Custom client credentials *)
Section ClientSettings.
Variable env : Env.

(** [SetSpotifyClientID]: persists a custom client ID (empty clears it). *)
Definition SetSpotifyClientID (id : string) : M (result unit) :=
  let id := strings_TrimSpace env id in
  match spotifyClientIDPath env with
  | Err e => ret (Err e)
  | Ok path =>
      if String.eqb id "" then
        let* r := os_Remove env path in
        match r with
        | Err e => if is_not_exist e then ret (Ok tt) else ret (Err e)
        | Ok _ => ret (Ok tt)
        end
      else
        let? _ := os_MkdirAll env (filepath_Dir env path) in
        os_WriteFile env path id
  end.

(** [SetSpotifyClientSecret]: the same, on the file of the secret. *)
Definition SetSpotifyClientSecret (secret : string) : M (result unit) :=
  let secret := strings_TrimSpace env secret in
  match spotifyClientSecretPath env with
  | Err e => ret (Err e)
  | Ok path =>
      if String.eqb secret "" then
        let* r := os_Remove env path in
        match r with
        | Err e => if is_not_exist e then ret (Ok tt) else ret (Err e)
        | Ok _ => ret (Ok tt)
        end
      else
        let? _ := os_MkdirAll env (filepath_Dir env path) in
        os_WriteFile env path secret
  end.

End ClientSettings.

(** The client ID and secret the file carries, decoded. *)
Definition builtinClientID : string :=
  decoded_or_empty "NWY1NzNjOTYyMDQ5NGJhZTg3ODkwYzBmMDhhNjAyOTM=".
Definition builtinClientSecret : string :=
  decoded_or_empty "MjEyNDc2ZDliMGYzNDcyZWFhNzYyZDkwYjE5YjBiYTg=".

(** ** The fetchers of the user's library

    [trackFull], [AlbumTrackMetadata] and [image] are declared in other
    files of the package: the fetchers use a track only through
    [convertTrackToAlbumTrack] and an image only through its URL.  A
    decoded response is a record of the fields the code reads; a nil
    [*trackFull] is [None].

    The [fmt.Errorf] wrappers around a failed request keep the error they
    wrap, as elsewhere; the [errors.New] of each fetcher is the error of
    its text, [not authenticated]; a [make] that panics is [ErrPanic].
    The page workers are answered as the server answers at one reading of
    the clock, taken when the pool is launched: the pool asks its fetch
    function once for each offset.  [convertSavedTrackItems] never
    returns a nil slice, so no page of the fetchers is dropped by the
    collector. *)

Record PlaylistSummary : Type := {
  summary_ID : string;
  summary_Name : string;
  summary_Owner : string;
  TracksTotal : Z;
  ImageURL : string;
  IsPublic : bool
}.

Record PlaylistWithTracks (AlbumTrackMetadata : Type) : Type := {
  Playlist : PlaylistSummary;
  Tracks : list AlbumTrackMetadata
}.
Arguments Playlist {AlbumTrackMetadata} p.
Arguments Tracks {AlbumTrackMetadata} p.

Record tracksPage (trackFull : Type) : Type := {
  page_Items : list (option trackFull);
  page_Total : Z
}.
Arguments page_Items {trackFull} t.
Arguments page_Total {trackFull} t.

Record playlistInfo : Type := {
  info_ID : string;
  info_Name : string;
  info_Public : bool;
  info_Images : list string;
  info_OwnerDisplayName : string;
  info_TracksTotal : Z
}.

Record playlistItem : Type := {
  item_ID : string;
  item_Name : string;
  item_Public : bool;
  item_Images : list string;
  item_TracksTotal : Z;
  item_OwnerDisplayName : string
}.

Record playlistsPage : Type := {
  playlists_Items : list playlistItem;
  playlists_Next : string
}.

(** What a fetcher has in hand when it stops running under the lock: its
    return values, or the tracks of the first page, the offsets of the
    other pages, the [pageFetcher] closure and what is made of the tracks
    in the end. *)
Inductive paging (AlbumTrackMetadata A : Type) : Type :=
| Returned (r : result A)
| Paged (tracks : list AlbumTrackMetadata) (offsets : list Z)
        (pageFetcher : Z -> option (list AlbumTrackMetadata) * option error)
        (done : list AlbumTrackMetadata -> A).
Arguments Returned {AlbumTrackMetadata A} r.
Arguments Paged {AlbumTrackMetadata A} tracks offsets pageFetcher done.

(** [for offset := limit; offset < total; offset += limit], appending
    each offset; [int] is 64 bits wide. *)
Fixpoint offsets_loop (fuel : nat) (limit total offset : Z) (offsets : list Z) : list Z :=
  match fuel with
  | O => offsets
  | S fuel' =>
      if (offset <? total)%Z
      then offsets_loop fuel' limit total (wrap64 (offset + limit)) (offsets ++ [offset])%list
      else offsets
  end.

(** The loop in the fetchers, from [limit]: it takes fewer than [total]
    rounds unless [offset] overflows, which a [total] that [make] has
    accepted as a capacity rules out. *)
Definition page_offsets (limit total : Z) : list Z :=
  offsets_loop (Z.to_nat total) limit total limit [].

Section Fetchers.
Context {trackFull AlbumTrackMetadata : Type}.
Variable env : Env.
Variable convertTrackToAlbumTrack : trackFull -> AlbumTrackMetadata.
(** [NewSpotifyMetadataClient().getJSON] into each of the three shapes of
    response, at a reading of the clock, for a URL and a token *)
Variable getJSON_tracks : nat -> string -> string -> outcome (tracksPage trackFull).
Variable getJSON_playlist : nat -> string -> string -> outcome playlistInfo.
Variable getJSON_playlists : nat -> string -> string -> outcome playlistsPage.
(** the largest capacity [make([]AlbumTrackMetadata, 0, n)] can allocate
    on the machine (far below [2 ^ 62]): it panics on a negative capacity
    and on one that is out of range *)
Variable maxSliceCap : Z.

Definition convertSavedTrackItems (items : list (option trackFull))
  : list AlbumTrackMetadata :=
  fold_left (fun converted item =>
               match item with
               | Some track => (converted ++ [convertTrackToAlbumTrack track])%list
               | None => converted
               end)
            items [].

Definition make_fits (cap : Z) : bool := ((0 <=? cap) && (cap <=? maxSliceCap))%Z.

Definition first_image (images : list string) : string :=
  match images with url :: _ => url | [] => "" end.

Definition summary_of_item (p : playlistItem) : PlaylistSummary :=
  {| summary_ID := item_ID p;
     summary_Name := item_Name p;
     summary_Owner := item_OwnerDisplayName p;
     TracksTotal := item_TracksTotal p;
     ImageURL := first_image (item_Images p);
     IsPublic := item_Public p |}.

(** The loop of [fetchUserPlaylists]: [None] when the fuel runs out with
    a next page still to fetch. *)
Fixpoint playlists_loop (fuel : nat) (token playlistsURL : string)
    (all : list PlaylistSummary) : M (option (result (list PlaylistSummary))) :=
  match fuel with
  | O => ret None
  | S fuel' =>
      if String.eqb playlistsURL "" then ret (Some (Ok all))
      else
        let* n := tick in
        let* _ := emit (EvGetJSON playlistsURL token) in
        match getJSON_playlists n playlistsURL token with
        | Failed e => ret (Some (Err (ErrLib e)))
        | Got page =>
            playlists_loop fuel' token (playlists_Next page)
              (fold_left (fun all p => (all ++ [summary_of_item p])%list)
                         (playlists_Items page) all)
        end
  end.

Definition fetchUserPlaylists (fuel : nat)
  : M (option (result (list PlaylistSummary))) :=
  let* m := get_mgr in
  match tokens m with
  | None => ret (Some (Err ErrNotAuthenticated))
  | Some _ =>
      let* r := ensureFreshTokenLocked env in
      match r with
      | Err e => ret (Some (Err e))
      | Ok _ =>
          let* m' := get_mgr in
          match tokens m' with
          | None => ret (Some (Err ErrPanic))
          | Some t =>
              playlists_loop fuel (AccessToken t)
                "https://api.spotify.com/v1/me/playlists?limit=50" []
          end
      end
  end.

(** The [pageFetcher] closure of [fetchUserSavedTracks], for the answers
    the server gives at one reading of the clock. *)
Definition savedTracks_pageFetcher (n : nat) (token : string) (limit offset : Z)
  : option (list AlbumTrackMetadata) * option error :=
  match getJSON_tracks n
          ("https://api.spotify.com/v1/me/tracks?limit=" ++ pretty limit
           ++ "&offset=" ++ pretty offset) token with
  | Failed e => (None, Some (ErrLib e))
  | Got page => (Some (convertSavedTrackItems (page_Items page)), None)
  end.

(** [fetchUserSavedTracks] up to the call of [runTrackPageWorkers]. *)
Definition fetchUserSavedTracks_begin
  : M (paging AlbumTrackMetadata (list AlbumTrackMetadata)) :=
  let* m := get_mgr in
  match tokens m with
  | None => ret (Returned (Err ErrNotAuthenticated))
  | Some _ =>
      let* r := ensureFreshTokenLocked env in
      match r with
      | Err e => ret (Returned (Err e))
      | Ok _ =>
          let* m' := get_mgr in
          match tokens m' with
          | None => ret (Returned (Err ErrPanic))
          | Some t =>
              let token := AccessToken t in
              let limit := 50%Z in
              let firstURL := "https://api.spotify.com/v1/me/tracks?limit=" ++ pretty limit
                              ++ "&offset=0" in
              let* n := tick in
              let* _ := emit (EvGetJSON firstURL token) in
              match getJSON_tracks n firstURL token with
              | Failed e => ret (Returned (Err (ErrLib e)))
              | Got firstPage =>
                  if negb (make_fits (page_Total firstPage))
                  then ret (Returned (Err ErrPanic))
                  else
                    let tracks := ([] ++ convertSavedTrackItems (page_Items firstPage))%list in
                    if (page_Total firstPage
                        <=? Z.of_nat (List.length (page_Items firstPage)))%Z
                    then ret (Returned (Ok tracks))
                    else
                      let offsets := page_offsets limit (page_Total firstPage) in
                      let* n' := tick in
                      ret (Paged tracks offsets (savedTracks_pageFetcher n' token limit)
                                 (fun tracks => tracks))
              end
          end
      end
  end.

(** The lines after the call of [runTrackPageWorkers], in both callers. *)
Definition append_pages {A} (tracks : list AlbumTrackMetadata)
    (done : list AlbumTrackMetadata -> A)
    (out : option (list (trackPageResult AlbumTrackMetadata)) * option error)
  : result A :=
  match snd out with
  | Some e => Err e
  | None => Ok (done (tracks ++ all_tracks (elems (fst out)))%list)
  end.

(** [fetchUserSavedTracks s r s']: the call can return [r] and leave
    [s'], under some schedule of the pool. *)
Definition fetchUserSavedTracks (s : St) (r : result (list AlbumTrackMetadata))
    (s' : St) : Prop :=
  s' = snd (fetchUserSavedTracks_begin s) /\
  match fst (fetchUserSavedTracks_begin s) with
  | Returned r0 => r = r0
  | Paged tracks offsets pageFetcher done =>
      exists out, runTrackPageWorkers pageFetcher offsets out /\
                  r = append_pages tracks done out
  end.

(** The same, for the runs in which the context stays live to the end. *)
Definition fetchUserSavedTracks_live (s : St) (r : result (list AlbumTrackMetadata))
    (s' : St) : Prop :=
  s' = snd (fetchUserSavedTracks_begin s) /\
  match fst (fetchUserSavedTracks_begin s) with
  | Returned r0 => r = r0
  | Paged tracks offsets pageFetcher done =>
      exists out, runTrackPageWorkers_live pageFetcher offsets out /\
                  r = append_pages tracks done out
  end.

Definition playlist_pageFetcher (n : nat) (token playlistID : string) (limit offset : Z)
  : option (list AlbumTrackMetadata) * option error :=
  match getJSON_tracks n
          ("https://api.spotify.com/v1/playlists/" ++ playlistID ++ "/tracks?limit="
           ++ pretty limit ++ "&offset=" ++ pretty offset) token with
  | Failed e => (None, Some (ErrLib e))
  | Got page => (Some (convertSavedTrackItems (page_Items page)), None)
  end.

(** The value [fetchPlaylistWithTracks] returns for the tracks it has. *)
Definition playlist_with (info : playlistInfo) (tracks : list AlbumTrackMetadata)
  : PlaylistWithTracks AlbumTrackMetadata :=
  {| Playlist := {| summary_ID := info_ID info;
                    summary_Name := info_Name info;
                    summary_Owner := info_OwnerDisplayName info;
                    TracksTotal := info_TracksTotal info;
                    ImageURL := first_image (info_Images info);
                    IsPublic := info_Public info |};
     Tracks := tracks |}.

(** [fetchPlaylistWithTracks] up to the call of [runTrackPageWorkers]. *)
Definition fetchPlaylistWithTracks_begin (playlistID : string)
  : M (paging AlbumTrackMetadata (PlaylistWithTracks AlbumTrackMetadata)) :=
  let* m := get_mgr in
  match tokens m with
  | None => ret (Returned (Err ErrNotAuthenticated))
  | Some _ =>
      let* r := ensureFreshTokenLocked env in
      match r with
      | Err e => ret (Returned (Err e))
      | Ok _ =>
          let* m' := get_mgr in
          match tokens m' with
          | None => ret (Returned (Err ErrPanic))
          | Some t =>
              let token := AccessToken t in
              let metaURL := "https://api.spotify.com/v1/playlists/" ++ playlistID in
              let* n0 := tick in
              let* _ := emit (EvGetJSON metaURL token) in
              match getJSON_playlist n0 metaURL token with
              | Failed e => ret (Returned (Err (ErrLib e)))
              | Got info =>
                  let limit := 100%Z in
                  let firstURL := "https://api.spotify.com/v1/playlists/" ++ playlistID
                                  ++ "/tracks?limit=" ++ pretty limit ++ "&offset=0" in
                  let* n := tick in
                  let* _ := emit (EvGetJSON firstURL token) in
                  match getJSON_tracks n firstURL token with
                  | Failed e => ret (Returned (Err (ErrLib e)))
                  | Got firstPage =>
                      if negb (make_fits (info_TracksTotal info))
                      then ret (Returned (Err ErrPanic))
                      else
                        let tracks := ([] ++ convertSavedTrackItems (page_Items firstPage))%list in
                        if (Z.of_nat (List.length (page_Items firstPage))
                            <? info_TracksTotal info)%Z
                        then
                          let offsets := page_offsets limit (info_TracksTotal info) in
                          let* n' := tick in
                          ret (Paged tracks offsets
                                     (playlist_pageFetcher n' token playlistID limit)
                                     (playlist_with info))
                        else ret (Returned (Ok (playlist_with info tracks)))
                  end
              end
          end
      end
  end.

Definition fetchPlaylistWithTracks (playlistID : string) (s : St)
    (r : result (PlaylistWithTracks AlbumTrackMetadata)) (s' : St) : Prop :=
  s' = snd (fetchPlaylistWithTracks_begin playlistID s) /\
  match fst (fetchPlaylistWithTracks_begin playlistID s) with
  | Returned r0 => r = r0
  | Paged tracks offsets pageFetcher done =>
      exists out, runTrackPageWorkers pageFetcher offsets out /\
                  r = append_pages tracks done out
  end.

Definition fetchPlaylistWithTracks_live (playlistID : string) (s : St)
    (r : result (PlaylistWithTracks AlbumTrackMetadata)) (s' : St) : Prop :=
  s' = snd (fetchPlaylistWithTracks_begin playlistID s) /\
  match fst (fetchPlaylistWithTracks_begin playlistID s) with
  | Returned r0 => r = r0
  | Paged tracks offsets pageFetcher done =>
      exists out, runTrackPageWorkers_live pageFetcher offsets out /\
                  r = append_pages tracks done out
  end.

(** The pages a walk along the [next] links meets, from [url] at the
    reading [n] of the clock, to the page that has no next. *)
Fixpoint next_chain (n : nat) (token url : string) (pages : list playlistsPage) : Prop :=
  match pages with
  | [] => url = ""
  | p :: rest =>
      url <> "" /\ getJSON_playlists n url token = Got p /\
      next_chain (S n) token (playlists_Next p) rest
  end.

(** The slice of a library a page of [limit] items at [offset] holds. *)
Definition slice_of (library : list (option trackFull)) (limit offset : Z)
  : list (option trackFull) :=
  firstn (Z.to_nat limit) (skipn (Z.to_nat offset) library).

End Fetchers.

(** * Readings for the further properties *)

(** ** Ghost readings of a cancelled pool *)
Section PoolCancelled.
Context {AlbumTrackMetadata : Type}.

(** A result of a worker that found the context cancelled. *)
Definition gave_up (e : error) (r : trackPageResult AlbumTrackMetadata) : Prop :=
  tracks r = None /\ err r = Some e.

Definition gave_up_worker (e : error) (w : worker AlbumTrackMetadata) : Prop :=
  match w with WSend r => gave_up e r | _ => True end.

End PoolCancelled.

(** ** Readings of the session *)

(** What the handler writes to the response writer. *)
Definition is_response (e : event) : bool :=
  match e with EvHttpError _ _ | EvPage _ _ => true | _ => false end.

Definition responses (evs : list event) : nat := List.length (List.filter is_response evs).

(** The events of a token refresh, of a profile request and of a write of
    the token file: none is a response, an exchange or a server event. *)
Definition is_background (e : event) : bool :=
  match e with
  | EvRefresh _ | EvHttpPost _ | EvGetJSON _ _ | EvMkdirAll _ | EvWriteFile _ _ => true
  | _ => false
  end.

(** [m'] is [m] but for the token it holds. *)
Definition same_session (m m' : spotifyAuthManager) : Prop :=
  profile m' = profile m /\ verifier m' = verifier m /\ state m' = state m /\
  redirect m' = redirect m /\ server m' = server m /\ loginWait m' = loginWait m.

(** The token file is as it was, or holds the record now in memory. *)
Definition disk_follows (env : Env) (s s' : St) : Prop :=
  files s' = files s \/
  exists path t, spotifyTokenPath env = Ok path /\ tokens (mgr s') = Some t /\
                 files s' = <[path := json_MarshalIndent env t]> (files s).

(** The token file holds the record the manager has in memory. *)
Definition in_step (env : Env) (s : St) : Prop :=
  exists path t, spotifyTokenPath env = Ok path /\ tokens (mgr s) = Some t /\
                 files s !! path = Some (json_MarshalIndent env t).

(** The callback passes the two tests that come before the exchange. *)
Definition accepted (r : callbackRequest) (s : St) : bool :=
  nonempty (query_state r) && nonempty (query_code r)
  && String.eqb (query_state r) (state (mgr s)).

(** [m'] has the login session of [m]: only token and profile may differ. *)
Definition same_login (m m' : spotifyAuthManager) : Prop :=
  verifier m' = verifier m /\ state m' = state m /\ redirect m' = redirect m /\
  server m' = server m /\ loginWait m' = loginWait m.

(** The way every path of the handler ends: one response, one push. *)
Definition answer (e : event) (v : option error) : M unit :=
  let* _ := emit e in pushLoginError v.

Definition pushed (v : option error) (m m' : spotifyAuthManager) : Prop :=
  verifier m' = verifier m /\ state m' = state m /\ redirect m' = redirect m /\
  server m' = server m /\ tokens m' = tokens m /\ profile m' = profile m /\
  loginWait m' = match loginWait m with ChanEmpty => ChanFull v | c => c end.

Definition success_page : event :=
  EvPage "text/html"
    "<html><body><p>Spotify login successful. You can close this window.</p></body></html>".

Definition with_mgr (m : spotifyAuthManager) (s : St) : St :=
  {| mgr := m; files := files s; ticks := ticks s; trace := trace s |}.


Section CallbackOutcomes.
Variable env : Env.

(** How a callback can end: the state it leaves, by the response sent. *)
Inductive callback_outcome (r : callbackRequest) (s s' : St) : event -> Prop :=
| Rejected msg :
    accepted r s = false ->
    tokens (mgr s') = tokens (mgr s) -> profile (mgr s') = profile (mgr s) ->
    files s' = files s ->
    callback_outcome r s s' (EvHttpError msg 400)
| ExchangeFailed e :
    accepted r s = true ->
    fst (exchangeCodeForToken env (query_code r) (redirect (mgr s)) (verifier (mgr s)) s)
      = Err e ->
    tokens (mgr s') = tokens (mgr s) -> profile (mgr s') = profile (mgr s) ->
    files s' = files s ->
    loginWait (mgr s') = match loginWait (mgr s) with
                         | ChanEmpty => ChanFull (Some e) | c => c end ->
    callback_outcome r s s' (EvHttpError "Failed to exchange code" 500)
| PersistFailed t e :
    accepted r s = true ->
    fst (exchangeCodeForToken env (query_code r) (redirect (mgr s)) (verifier (mgr s)) s)
      = Ok t ->
    tokens (mgr s') = Some t -> profile (mgr s') = profile (mgr s) ->
    files s' = files s ->
    loginWait (mgr s') = match loginWait (mgr s) with
                         | ChanEmpty => ChanFull (Some e) | c => c end ->
    callback_outcome r s s' (EvHttpError "Failed to persist token" 500)
| ProfileFailed e :
    accepted r s = true ->
    profile (mgr s') = profile (mgr s) ->
    loginWait (mgr s') = match loginWait (mgr s) with
                         | ChanEmpty => ChanFull (Some e) | c => c end ->
    callback_outcome r s s' (EvHttpError "Failed to fetch profile" 500)
| LoggedIn p :
    accepted r s = true ->
    in_step env s' -> profile (mgr s') = Some p ->
    loginWait (mgr s') = match loginWait (mgr s) with
                         | ChanEmpty => ChanFull None | c => c end ->
    callback_outcome r s s' success_page.

End CallbackOutcomes.

(** Letters, digits, [-] and [_]: the unreserved characters of a URL, less
    [.] and [~]. *)
Definition url_safe (c : ascii) : bool :=
  let n := nat_of_ascii c in
  (Nat.leb 65 n && Nat.leb n 90) || (Nat.leb 97 n && Nat.leb n 122)
  || (Nat.leb 48 n && Nat.leb n 57) || Nat.eqb n 45 || Nat.eqb n 95.

(** ** More test doubles *)

(** An operating system that refuses every write of a file. *)
Definition write_refused (op : fsOp) (path : string) : option liberror :=
  match op with
  | OpWriteFile => Some (OtherError "permission denied")
  | _ => None
  end.

(** [test_env] with the token endpoint out of reach. *)
Definition env_offline : Env :=
  {| getSpotiDownloaderDir := Got appDir;
     newTokenRequest := None;
     filepath_Join := fun dir name => (dir ++ "/" ++ name)%string;
     filepath_Dir := fun _ => appDir;
     fsFault := no_fault;
     time_Now := fun _ => {| Unix := 1700000000; Nanosecond := 0 |};
     rand_Read := fun _ => Got (fun _ => x00);
     strings_TrimSpace := fun s => s;
     sha256_Sum256 := fun _ => repeat x00 32;
     url_Encode := fun kvs =>
       String.concat "&" (map (fun kv => (fst kv ++ "=" ++ snd kv)%string) kvs);
     net_Listen := fun _ _ => Got 3000%Z;
     http_Do := fun _ _ => Failed (OtherError "dial tcp: connection refused");
     json_decodeTokenResp := fun _ => Got resp_ok;
     json_MarshalIndent := fun t => (AccessToken t ++ "," ++ RefreshToken t)%string;
     json_Unmarshal := fun _ => Got tok_fresh;
     getJSON_profile := fun _ _ _ => Got profile0 |}.

(** The callback of a login that was issued the state [issued]. *)
Definition callback_ok : callbackRequest :=
  {| query_state := "issued"; query_code := "code-1" |}.

(** The path of the custom client ID in [test_env]. *)
Definition clientIDPath : string := "/home/user/.spotidownloader/spotify_client_id".
Definition clientSecretPath : string := "/home/user/.spotidownloader/spotify_client_secret".

(** A disk that holds a custom client ID and a custom client secret. *)
Definition custom_files : gmap string string :=
  <[clientIDPath := "custom-id"]> (<[clientSecretPath := "custom-secret"]> no_files).

(** ** A test server for the fetchers

    Tracks are strings here.  The library has 120 tracks, the eighth of
    which the server lists as nil; playlist [pl1] has the same tracks. *)

Definition library120 : list (option string) :=
  map (fun k => if Nat.eqb k 7 then None else Some (pretty k)) (seq 0 120).

Definition convert_test (track : string) : string := ("track " ++ track)%string.

(** The pages of the library and of playlist [pl1], at any time and for
    any token; [broken] is an offset at which the server fails. *)
Definition server_tracks (broken : Z) (n : nat) (url token : string)
  : outcome (tracksPage string) :=
  if String.eqb url "https://api.spotify.com/v1/me/tracks?limit=50&offset=0"
  then Got {| page_Items := slice_of library120 50 0; page_Total := 120 |}
  else if String.eqb url "https://api.spotify.com/v1/me/tracks?limit=50&offset=50"
  then (if (broken =? 50)%Z then Failed (OtherError "unexpected status 502")
        else Got {| page_Items := slice_of library120 50 50; page_Total := 120 |})
  else if String.eqb url "https://api.spotify.com/v1/me/tracks?limit=50&offset=100"
  then (if (broken =? 100)%Z then Failed (OtherError "unexpected status 502")
        else Got {| page_Items := slice_of library120 50 100; page_Total := 120 |})
  else if String.eqb url "https://api.spotify.com/v1/playlists/pl1/tracks?limit=100&offset=0"
  then Got {| page_Items := slice_of library120 100 0; page_Total := 120 |}
  else if String.eqb url "https://api.spotify.com/v1/playlists/pl1/tracks?limit=100&offset=100"
  then Got {| page_Items := slice_of library120 100 100; page_Total := 120 |}
  else Failed (OtherError "unexpected status 404").

Definition info_pl1 : playlistInfo :=
  {| info_ID := "pl1"; info_Name := "Road trip"; info_Public := true;
     info_Images := ["https://i.scdn.co/image/pl1"];
     info_OwnerDisplayName := "User One"; info_TracksTotal := 120 |}.

Definition server_playlist (n : nat) (url token : string) : outcome playlistInfo :=
  if String.eqb url "https://api.spotify.com/v1/playlists/pl1" then Got info_pl1
  else Failed (OtherError "unexpected status 404").

Definition item_pl1 : playlistItem :=
  {| item_ID := "pl1"; item_Name := "Road trip"; item_Public := true;
     item_Images := ["https://i.scdn.co/image/pl1"]; item_TracksTotal := 120;
     item_OwnerDisplayName := "User One" |}.

Definition item_pl2 : playlistItem :=
  {| item_ID := "pl2"; item_Name := "Quiet"; item_Public := false;
     item_Images := []; item_TracksTotal := 3; item_OwnerDisplayName := "User One" |}.

Definition playlists_page1 : playlistsPage :=
  {| playlists_Items := [item_pl1];
     playlists_Next := "https://api.spotify.com/v1/me/playlists?offset=50&limit=50" |}.

Definition playlists_page2 : playlistsPage :=
  {| playlists_Items := [item_pl2]; playlists_Next := "" |}.

(** Two pages of playlists, the first with a link to the second. *)
Definition server_playlists (n : nat) (url token : string) : outcome playlistsPage :=
  if String.eqb url "https://api.spotify.com/v1/me/playlists?limit=50"
  then Got playlists_page1
  else if String.eqb url "https://api.spotify.com/v1/me/playlists?offset=50&limit=50"
  then Got playlists_page2
  else Failed (OtherError "unexpected status 404").

(** A state with a token that needs no refresh, and what the freshness
    check makes of it: one reading of the clock. *)
Definition st_fresh : St := st_with (manager_with (Some tok_fresh) "") no_files.
Definition st_checked : St :=
  {| mgr := manager_with (Some tok_fresh) ""; files := no_files; ticks := 1; trace := [] |}.

(** * Proofs *)

(** ** The base64 model on known vectors *)

Example decodeStd_Zm9v :
  Base64.decodeStdString "Zm9vYg==" = Some (list_byte_of_string "foob").
Proof. vm_compute. reflexivity. Qed.

Example encodeRawURL_foob :
  Base64.encodeRawURL (list_byte_of_string "foob") = "Zm9vYg".
Proof. vm_compute. reflexivity. Qed.

Example encodeRawURL_high :
  Base64.encodeRawURL [xfb; xff; xbf] = "-_-_".
Proof. vm_compute. reflexivity. Qed.

(** ** The worker pool *)

Open Scope list_scope.

Section PoolFacts.
Context {AlbumTrackMetadata : Type}.
Variable fetch : Z -> option (list AlbumTrackMetadata) * option error.
Implicit Types (p : pool AlbumTrackMetadata) (r : trackPageResult AlbumTrackMetadata)
  (w : worker AlbumTrackMetadata) (rs : list (trackPageResult AlbumTrackMetadata)).

Lemma offset_job_result c o : offset (job_result fetch c o) = o.
Proof.
  unfold job_result. destruct c; [reflexivity |].
  destruct (fetch o) as [ts [e |]]; reflexivity.
Qed.

(** A worker at index [i] splits the list around it. *)
Lemma worker_split (ws : list (worker AlbumTrackMetadata)) i w0 :
  ws !! i = Some w0 ->
  exists l1 l2, ws = l1 ++ w0 :: l2 /\ forall w, <[i := w]> ws = l1 ++ w :: l2.
Proof.
  intros H. exists (take i ws), (drop (S i) ws). split.
  - symmetry. apply take_drop_middle. exact H.
  - intros w. apply insert_take_drop. eapply lookup_lt_Some. exact H.
Qed.

Lemma first_failure_app rs r :
  first_failure (rs ++ [r]) =
  match first_failure rs with
  | Some e => Some e
  | None => match err r with
            | Some e => Some (ErrOffset (offset r) e)
            | None => None
            end
  end.
Proof.
  induction rs as [| x l IH]; simpl.
  - destruct (err r); reflexivity.
  - destruct (err x); [reflexivity | exact IH].
Qed.

Lemma first_failure_found rs :
  first_failure rs =
  match first_failed rs with
  | Some r => match err r with
              | Some e => Some (ErrOffset (offset r) e)
              | None => None
              end
  | None => None
  end.
Proof.
  unfold first_failed. induction rs as [| x l IH]; simpl; [reflexivity |].
  destruct (err x) eqn:E; [rewrite E; reflexivity | exact IH].
Qed.


Lemma Inv_start offsets : Inv fetch offsets (start offsets).
Proof.
  split; simpl.
  - unfold accounted. simpl.
    replace (flat_map held (repeat WIdle (workerCount offsets))) with (@nil Z); [reflexivity |].
    induction (workerCount offsets); simpl; auto.
  - constructor.
  - apply List.Forall_forall. intros w Hw. apply repeat_spec in Hw. subst. exact I.
  - reflexivity.
  - reflexivity.
  - intros _. apply List.Forall_forall. intros w Hw. apply repeat_spec in Hw. subst. discriminate.
  - discriminate.
  - apply repeat_length.
Qed.


Lemma step_ctx_live a p p' :
  step fetch a p = Some p' -> ctx_err p' = None -> ctx_err p = None.
Proof.
  destruct a; simpl; intros H;
    repeat match type of H with
           | match ?x with _ => _ end = _ => destruct x eqn:?; try discriminate
           end;
    inversion H; subst; simpl; auto; discriminate.
Qed.

Lemma sound_mono p p' r :
  (ctx_err p' = None -> ctx_err p = None) -> sound fetch p r -> sound fetch p' r.
Proof. intros Hm [H1 H2]. split; auto. Qed.

Lemma sound_job_result p o : sound fetch p (job_result fetch (ctx_err p) o).
Proof.
  split.
  - exists (ctx_err p). rewrite offset_job_result. reflexivity.
  - intros H. rewrite H, offset_job_result. reflexivity.
Qed.

Lemma sound_all_mono p p' rs :
  (ctx_err p' = None -> ctx_err p = None) ->
  Forall (sound fetch p) rs -> Forall (sound fetch p') rs.
Proof.
  intros Hm. apply List.Forall_impl. intros r. apply sound_mono. exact Hm.
Qed.

Lemma sound_workers_mono p p' ws :
  (ctx_err p' = None -> ctx_err p = None) ->
  Forall (sound_worker fetch p) ws -> Forall (sound_worker fetch p') ws.
Proof.
  intros Hm. apply List.Forall_impl. intros [| o | r |]; simpl; auto.
  apply sound_mono. exact Hm.
Qed.

(** Replacing the worker at [i]: what holds of all the others still does. *)
Lemma Forall_replace (P : worker AlbumTrackMetadata -> Prop) ws i w0 w :
  ws !! i = Some w0 -> Forall P ws -> P w -> Forall P (<[i := w]> ws).
Proof.
  intros Hi Hall Hw. destruct (worker_split _ _ _ Hi) as (l1 & l2 & E1 & E2).
  rewrite E2. rewrite E1 in Hall. apply Forall_app in Hall as [H1 H2].
  apply Forall_app. split; [exact H1 |].
  inversion H2; subst. constructor; assumption.
Qed.

Lemma held_replace ws i w0 w :
  ws !! i = Some w0 ->
  held w ++ flat_map held ws ≡ₚ held w0 ++ flat_map held (<[i := w]> ws).
Proof.
  intros Hi. destruct (worker_split _ _ _ Hi) as (l1 & l2 & E1 & E2).
  rewrite E2. rewrite E1 at 1. rewrite !flat_map_app. simpl.
  rewrite !app_assoc.
  rewrite (Permutation_app_comm (held w) (flat_map held l1)).
  rewrite (Permutation_app_comm (held w0) (flat_map held l1)).
  rewrite <- !app_assoc. apply Permutation_app_head.
  rewrite !app_assoc. apply Permutation_app_tail. apply Permutation_app_comm.
Qed.

Lemma weight_replace ws i w0 w :
  ws !! i = Some w0 ->
  worker_weight w + list_sum (map worker_weight ws)
  = worker_weight w0 + list_sum (map worker_weight (<[i := w]> ws)).
Proof.
  intros Hi. destruct (worker_split _ _ _ Hi) as (l1 & l2 & E1 & E2).
  rewrite E2. rewrite E1 at 1. rewrite !map_app, !list_sum_app. simpl. lia.
Qed.

Lemma Inv_step offsets a p p' :
  Inv fetch offsets p -> step fetch a p = Some p' -> Inv fetch offsets p'.
Proof.
  intros [Hacc Harr Hws Hcol Hfe Hfeed Hclosed Hcount] Hstep.
  pose proof (step_ctx_live _ _ _ Hstep) as Hlive.
  pose proof (sound_all_mono _ _ _ Hlive Harr) as Harr'.
  pose proof (sound_workers_mono _ _ _ Hlive Hws) as Hws'.
  destruct a; simpl in Hstep.
  - (* ASend *)
    destruct (feeder p) as [[| o q] | |] eqn:Ef; try discriminate.
    destruct (workers p !! i) as [[| | |] |] eqn:Ew; try discriminate.
    inversion Hstep; subst; clear Hstep.
    pose proof (held_replace _ _ _ (WGot o) Ew) as Hh. simpl in Hh.
    split; simpl.
    + unfold accounted in *. simpl. rewrite Ef in Hacc. simpl in Hacc.
      rewrite <- Hacc. apply Permutation_app_head.
      rewrite <- Hh. simpl. apply Permutation_middle.
    + exact Harr'.
    + eapply (Forall_replace _ _ _ _ _ Ew Hws'); exact I.
    + exact Hcol.
    + exact Hfe.
    + intros _. eapply Forall_replace; eauto; discriminate.
    + discriminate.
    + rewrite length_insert. exact Hcount.
  - (* ACloseJobs *)
    destruct (feeder p) as [[| o q] | |] eqn:Ef; try discriminate.
    inversion Hstep; subst; clear Hstep.
    split; simpl; try assumption.
    + unfold accounted in *. simpl. rewrite Ef in Hacc. exact Hacc.
    + intros [q Hq]. discriminate.
    + discriminate.
  - (* AWork *)
    destruct (workers p !! i) as [[| o | |] |] eqn:Ew; try discriminate.
    inversion Hstep; subst; clear Hstep.
    pose proof (held_replace _ _ _ (WSend (job_result fetch (ctx_err p) o)) Ew) as Hh.
    simpl in Hh. rewrite offset_job_result in Hh.
    split; simpl.
    + unfold accounted in *. simpl. rewrite <- Hacc.
      apply Permutation_app_head. apply Permutation_app_tail.
      apply Permutation_cons_inv with (a := o). symmetry. exact Hh.
    + exact Harr'.
    + eapply (Forall_replace _ _ _ _ _ Ew Hws'); simpl; apply (sound_job_result (with_worker i (WSend (job_result fetch (ctx_err p) o)) p)).
    + exact Hcol.
    + exact Hfe.
    + intros Hq. eapply Forall_replace; eauto; discriminate.
    + intros Hc. specialize (Hclosed Hc).
      eapply List.Forall_forall in Hclosed;
        [| eapply list_elem_of_In, list_elem_of_lookup_2; exact Ew].
      discriminate.
    + rewrite length_insert. exact Hcount.
  - (* ARecv *)
    destruct (workers p !! i) as [[| | r |] |] eqn:Ew; try discriminate.
    inversion Hstep; subst; clear Hstep.
    pose proof (held_replace _ _ _ WIdle Ew) as Hh. simpl in Hh.
    assert (Hr : sound fetch (collect r (with_worker i WIdle p)) r).
    { eapply List.Forall_forall in Hws';
        [| eapply list_elem_of_In, list_elem_of_lookup_2; exact Ew].
      exact Hws'. }
    split; simpl.
    + unfold accounted in *. simpl. rewrite <- Hacc.
      rewrite map_app. simpl. rewrite <- app_assoc. apply Permutation_app_head.
      simpl. rewrite Hh. reflexivity.
    + apply Forall_app. split; [exact Harr' |]. constructor; [exact Hr | constructor].
    + eapply (Forall_replace _ _ _ _ _ Ew Hws'); exact I.
    + rewrite List.filter_app. simpl. unfold has_tracks at 2.
      destruct (tracks r); rewrite Hcol; [reflexivity | rewrite app_nil_r; reflexivity].
    + rewrite first_failure_app, <- Hfe.
      destruct (err r), (firstErr p); reflexivity.
    + intros Hq. eapply Forall_replace; eauto; discriminate.
    + intros Hc. specialize (Hclosed Hc).
      eapply List.Forall_forall in Hclosed;
        [| eapply list_elem_of_In, list_elem_of_lookup_2; exact Ew].
      discriminate.
    + rewrite length_insert. exact Hcount.
  - (* AExit *)
    assert (Hex : feeder p <> DClosed -> (forall q, feeder p <> DFeed q) ->
                  workers p !! i = Some WIdle -> p' = with_worker i WDone p ->
                  Inv fetch offsets p').
    { intros Hnc Hnf Ew ->.
      pose proof (held_replace _ _ _ WDone Ew) as Hh. simpl in Hh.
      split; simpl.
      + unfold accounted in *. simpl. rewrite <- Hh. exact Hacc.
      + exact Harr'.
      + eapply (Forall_replace _ _ _ _ _ Ew Hws'); exact I.
      + exact Hcol.
      + exact Hfe.
      + intros [q Hq]. destruct (Hnf _ Hq).
      + intros Hc. destruct (Hnc Hc).
      + rewrite length_insert. exact Hcount. }
    destruct (feeder p) as [q | |] eqn:Ef; try discriminate;
      destruct (workers p !! i) as [[| | |] |] eqn:Ew; try discriminate;
      inversion Hstep; subst; clear Hstep.
    + apply Hex; auto; discriminate.
    + exfalso. specialize (Hclosed eq_refl).
      eapply List.Forall_forall in Hclosed;
        [| eapply list_elem_of_In, list_elem_of_lookup_2; exact Ew].
      discriminate.
  - (* ACloseResults *)
    destruct (feeder p) as [q | |] eqn:Ef; try discriminate.
    destruct (forallb is_done (workers p)) eqn:Ed; try discriminate.
    inversion Hstep; subst; clear Hstep.
    split; simpl; try assumption.
    + unfold accounted in *. simpl. rewrite Ef in Hacc. exact Hacc.
    + intros [q Hq]. discriminate.
    + intros _. apply List.Forall_forall. intros w Hw.
      rewrite forallb_forall in Ed. specialize (Ed w Hw).
      destruct w; simpl in Ed; congruence.
  - (* ACancel *)
    destruct (ctx_err p) eqn:Ec; try discriminate.
    inversion Hstep; subst; clear Hstep.
    split; simpl; assumption.
Qed.

Lemma Inv_exec offsets acts p p' :
  Inv fetch offsets p -> exec fetch acts p = Some p' -> Inv fetch offsets p'.
Proof.
  revert p. induction acts as [| a acts IH]; simpl; intros p Hinv Hex.
  - inversion Hex; subst. exact Hinv.
  - destruct (step fetch a p) as [p1 |] eqn:Est; [| discriminate].
    eapply IH; [| exact Hex]. eapply Inv_step; eauto.
Qed.

Lemma exec_app acts1 acts2 p p1 p2 :
  exec fetch acts1 p = Some p1 -> exec fetch acts2 p1 = Some p2 ->
  exec fetch (acts1 ++ acts2) p = Some p2.
Proof.
  revert p. induction acts1 as [| a acts1 IH]; simpl; intros p H1 H2.
  - inversion H1; subst. exact H2.
  - destruct (step fetch a p); [eauto | discriminate].
Qed.

(** *** Every schedule is finite *)

Lemma step_weight a p p' : step fetch a p = Some p' -> weight p' < weight p.
Proof.
  unfold weight. destruct a; simpl; intros Hstep.
  - destruct (feeder p) as [[| o q] | |] eqn:Ef; try discriminate.
    destruct (workers p !! i) as [[| | |] |] eqn:Ew; try discriminate.
    inversion Hstep; subst; clear Hstep. simpl.
    pose proof (weight_replace _ _ _ (WGot o) Ew) as Hw. simpl in Hw. lia.
  - destruct (feeder p) as [[| o q] | |] eqn:Ef; try discriminate.
    inversion Hstep; subst; clear Hstep. simpl. lia.
  - destruct (workers p !! i) as [[| o | |] |] eqn:Ew; try discriminate.
    inversion Hstep; subst; clear Hstep. simpl.
    pose proof (weight_replace _ _ _ (WSend (job_result fetch (ctx_err p) o)) Ew) as Hw.
    simpl in Hw. lia.
  - destruct (workers p !! i) as [[| | r |] |] eqn:Ew; try discriminate.
    inversion Hstep; subst; clear Hstep. simpl.
    pose proof (weight_replace _ _ _ WIdle Ew) as Hw. simpl in Hw. lia.
  - destruct (feeder p) as [q | |] eqn:Ef; try discriminate;
      destruct (workers p !! i) as [[| | |] |] eqn:Ew; try discriminate;
      inversion Hstep; subst; clear Hstep; simpl;
      pose proof (weight_replace _ _ _ WDone Ew) as Hw; simpl in Hw; rewrite Ef; simpl; lia.
  - destruct (feeder p) as [q | |] eqn:Ef; try discriminate.
    destruct (forallb is_done (workers p)); try discriminate.
    inversion Hstep; subst; clear Hstep. simpl. lia.
  - destruct (ctx_err p) eqn:Ec; try discriminate.
    inversion Hstep; subst; clear Hstep. simpl. lia.
Qed.

Lemma exec_bounded acts p p' :
  exec fetch acts p = Some p' -> List.length acts + weight p' <= weight p.
Proof.
  revert p. induction acts as [| a acts IH]; simpl; intros p Hex.
  - inversion Hex; subst. lia.
  - destruct (step fetch a p) as [p1 |] eqn:Est; [| discriminate].
    apply IH in Hex. apply step_weight in Est. lia.
Qed.

(** *** No schedule gets stuck before [results] is closed *)

Lemma busy_or_resting (ws : list (worker AlbumTrackMetadata)) :
  (exists i o, ws !! i = Some (WGot o)) \/
  (exists i r, ws !! i = Some (WSend r)) \/
  Forall (fun w => w = WIdle \/ w = WDone) ws.
Proof.
  induction ws as [| w ws IH].
  - right. right. constructor.
  - destruct w as [| o | r |].
    + destruct IH as [(i & o & H) | [(i & r & H) | H]].
      * left. exists (S i), o. exact H.
      * right. left. exists (S i), r. exact H.
      * right. right. constructor; auto.
    + left. exists 0, o. reflexivity.
    + right. left. exists 0, r. reflexivity.
    + destruct IH as [(i & o & H) | [(i & r & H) | H]].
      * left. exists (S i), o. exact H.
      * right. left. exists (S i), r. exact H.
      * right. right. constructor; auto.
Qed.

Lemma idle_or_all_done (ws : list (worker AlbumTrackMetadata)) :
  Forall (fun w => w = WIdle \/ w = WDone) ws ->
  (exists i, ws !! i = Some WIdle) \/ forallb is_done ws = true.
Proof.
  induction 1 as [| w ws [-> | ->] _ IH].
  - right. reflexivity.
  - left. exists 0. reflexivity.
  - destruct IH as [[i H] | H].
    + left. exists (S i). exact H.
    + right. simpl. exact H.
Qed.

Lemma workerCount_pos offsets : offsets <> [] -> 0 < workerCount offsets.
Proof.
  unfold workerCount, spotifyWorkerCount. destruct offsets as [| o l]; [congruence |].
  intros _. destruct (Nat.ltb_spec (List.length (o :: l)) 8); simpl in *; lia.
Qed.

Lemma progress offsets p :
  offsets <> [] -> Inv fetch offsets p -> feeder p <> DClosed ->
  exists a p', is_cancel a = false /\ step fetch a p = Some p'.
Proof.
  intros Hne Hinv Hopen.
  destruct (busy_or_resting (workers p)) as [(i & o & H) | [(i & r & H) | Hrest]].
  - exists (AWork i). eexists. split; [reflexivity |]. simpl. rewrite H. reflexivity.
  - exists (ARecv i). eexists. split; [reflexivity |]. simpl. rewrite H. reflexivity.
  - destruct (feeder p) as [[| o q] | |] eqn:Ef.
    + exists ACloseJobs. eexists. split; [reflexivity |]. simpl. rewrite Ef. reflexivity.
    + pose proof (inv_feeding _ _ _ Hinv (ex_intro _ _ Ef)) as Hnd.
      pose proof (inv_count _ _ _ Hinv) as Hc.
      pose proof (workerCount_pos _ Hne) as Hpos.
      destruct (workers p) as [| w ws] eqn:Ews; [simpl in Hc; lia |].
      inversion Hrest as [| ? ? [-> | ->] _]; subst.
      * exists (ASend 0). eexists. split; [reflexivity |]. simpl.
        rewrite Ef, Ews. reflexivity.
      * inversion Hnd; subst. congruence.
    + destruct (idle_or_all_done _ Hrest) as [[i H] | H].
      * exists (AExit i). eexists. split; [reflexivity |]. simpl.
        rewrite Ef, H. reflexivity.
      * exists ACloseResults. eexists. split; [reflexivity |]. simpl.
        rewrite Ef, H. reflexivity.
    + congruence.
Qed.

Lemma step_keeps_ctx a p p' :
  is_cancel a = false -> step fetch a p = Some p' -> ctx_err p' = ctx_err p.
Proof.
  destruct a; simpl; try discriminate; intros _ H;
    repeat match type of H with
           | match ?x with _ => _ end = _ => destruct x eqn:?; try discriminate
           end;
    inversion H; subst; reflexivity.
Qed.

(** From any state of a run there is a schedule to the end, and one that
    leaves the context as it is. *)
Lemma completes offsets p :
  offsets <> [] -> Inv fetch offsets p ->
  exists acts p', exec fetch acts p = Some p' /\ feeder p' = DClosed /\
                  ctx_err p' = ctx_err p.
Proof.
  intros Hne. remember (weight p) as n eqn:En. revert p En.
  induction n as [n IH] using lt_wf_ind. intros p -> Hinv.
  destruct (feeder p) as [q | |] eqn:Ef.
  1, 2: destruct (progress offsets p Hne Hinv ltac:(congruence)) as (a & p1 & Hnc & Hst);
        destruct (IH (weight p1) (step_weight _ _ _ Hst) p1 eq_refl
                     (Inv_step _ _ _ _ Hinv Hst)) as (acts & p' & Hex & Hd & Hc);
        exists (a :: acts), p'; simpl; rewrite Hst; repeat split; auto;
        rewrite Hc; eapply step_keeps_ctx; eauto.
  exists [], p. repeat split; auto.
Qed.

(** *** [sort.Slice] *)

Lemma insert_sorted_perm r rs : insert_sorted r rs ≡ₚ r :: rs.
Proof.
  induction rs as [| y l IH]; simpl; [reflexivity |].
  destruct (less y r); [| reflexivity].
  rewrite IH. apply perm_swap.
Qed.

Lemma sortSlice_perm rs : sortSlice rs ≡ₚ rs.
Proof.
  induction rs as [| x l IH]; simpl; [reflexivity |].
  rewrite insert_sorted_perm. rewrite IH. reflexivity.
Qed.

Lemma insert_sorted_sorted r rs :
  StronglySorted le_offset rs -> StronglySorted le_offset (insert_sorted r rs).
Proof.
  induction 1 as [| y l Hs IH Hy]; simpl.
  - constructor; constructor.
  - unfold less. destruct (Z.ltb_spec (offset y) (offset r)) as [Hlt | Hge].
    + constructor; [exact IH |].
      rewrite insert_sorted_perm. constructor; [unfold le_offset; lia | exact Hy].
    + constructor; [constructor; assumption |].
      constructor; [exact Hge |].
      eapply List.Forall_impl; [| exact Hy]. unfold le_offset. intros; lia.
Qed.

Lemma sortSlice_sorted rs : StronglySorted le_offset (sortSlice rs).
Proof.
  induction rs as [| x l IH]; simpl; [constructor |].
  apply insert_sorted_sorted. exact IH.
Qed.

(** Two sorted lists with the same elements are the same list, when the
    elements that share an offset are equal. *)
Lemma sorted_perm_unique rs1 rs2 :
  StronglySorted le_offset rs1 -> StronglySorted le_offset rs2 -> rs1 ≡ₚ rs2 ->
  (forall a b, In a rs1 -> In b rs1 -> offset a = offset b -> a = b) ->
  rs1 = rs2.
Proof.
  intros H1. revert rs2. induction H1 as [| a l1 Hs1 IH Ha]; intros rs2 H2 Hp Huniq.
  - apply Permutation_nil in Hp. congruence.
  - destruct rs2 as [| b l2]; [symmetry in Hp; apply Permutation_nil in Hp; discriminate |].
    inversion H2 as [| ? ? Hs2 Hb]; subst.
    assert (Hab : a = b).
    { assert (Hin_b : In b (a :: l1)).
      { eapply Permutation_in; [symmetry; exact Hp | left; reflexivity]. }
      assert (Hin_a : In a (b :: l2)).
      { eapply Permutation_in; [exact Hp | left; reflexivity]. }
      apply Huniq; [left; reflexivity | exact Hin_b |].
      assert (L1 : le_offset a b).
      { destruct Hin_b as [-> | Hin]; [unfold le_offset; lia |].
        eapply List.Forall_forall in Ha; eauto. }
      assert (L2 : le_offset b a).
      { destruct Hin_a as [-> | Hin]; [unfold le_offset; lia |].
        eapply List.Forall_forall in Hb; eauto. }
      unfold le_offset in *. lia. }
    subst b. f_equal. apply IH; auto.
    + eapply Permutation_cons_inv. exact Hp.
    + intros x y Hx Hy. apply Huniq; right; assumption.
Qed.

Lemma sortSlice_unique rs1 rs2 :
  rs1 ≡ₚ rs2 ->
  (forall a b, In a rs1 -> In b rs1 -> offset a = offset b -> a = b) ->
  sortSlice rs1 = sortSlice rs2.
Proof.
  intros Hp Huniq. apply sorted_perm_unique.
  - apply sortSlice_sorted.
  - apply sortSlice_sorted.
  - rewrite !sortSlice_perm. exact Hp.
  - intros a b Ha Hb. apply Huniq.
    + eapply Permutation_in; [apply sortSlice_perm | exact Ha].
    + eapply Permutation_in; [apply sortSlice_perm | exact Hb].
Qed.

Lemma sortSlice_sorted_id rs :
  StronglySorted le_offset rs ->
  (forall a b, In a rs -> In b rs -> offset a = offset b -> a = b) ->
  sortSlice rs = rs.
Proof.
  intros Hs Huniq. apply sorted_perm_unique.
  - apply sortSlice_sorted.
  - exact Hs.
  - apply sortSlice_perm.
  - intros a b Ha Hb. apply Huniq.
    + eapply Permutation_in; [apply sortSlice_perm | exact Ha].
    + eapply Permutation_in; [apply sortSlice_perm | exact Hb].
Qed.

(** *** The state once [results] is closed *)


Lemma closed_accounts offsets p :
  Inv fetch offsets p -> feeder p = DClosed -> map offset (arrived p) ≡ₚ offsets.
Proof.
  intros Hinv Hc. pose proof (inv_accounted _ _ _ Hinv) as Hacc.
  pose proof (inv_closed _ _ _ Hinv Hc) as Hd.
  unfold accounted in Hacc. rewrite Hc in Hacc. simpl in Hacc.
  replace (flat_map held (workers p)) with (@nil Z) in Hacc.
  - rewrite !app_nil_r in Hacc. exact Hacc.
  - clear -Hd. induction Hd as [| w ws -> _ IH]; simpl; auto.
Qed.

Lemma job_result_live o :
  snd (fetch o) = None -> job_result fetch None o = page fetch o.
Proof.
  unfold job_result, page. destruct (fetch o) as [ts [e |]]; simpl; [discriminate | reflexivity].
Qed.

Lemma live_arrivals offsets p :
  (forall o, In o offsets -> snd (fetch o) = None) ->
  Inv fetch offsets p -> feeder p = DClosed -> ctx_err p = None ->
  arrived p = map (page fetch) (map offset (arrived p)) /\
  arrived p ≡ₚ sequential_pages fetch offsets.
Proof.
  intros Hok Hinv Hc Hlive.
  pose proof (closed_accounts _ _ Hinv Hc) as Hperm.
  assert (E : arrived p = map (page fetch) (map offset (arrived p))).
  { rewrite map_map. rewrite <- (map_id (arrived p)) at 1.
    apply map_ext_in. intros r Hr.
    pose proof (inv_arrived _ _ _ Hinv) as Hs.
    eapply List.Forall_forall in Hs; [| exact Hr].
    destruct Hs as [_ Hs]. rewrite (Hs Hlive) at 1.
    apply job_result_live. apply Hok.
    eapply Permutation_in; [exact Hperm |]. apply in_map. exact Hr. }
  split; [exact E |].
  rewrite E. unfold sequential_pages. apply Permutation_map. exact Hperm.
Qed.

Lemma first_failure_none rs :
  Forall (fun r => err r = None) rs -> first_failure rs = None.
Proof.
  induction 1 as [| r l Hr _ IH]; simpl; [reflexivity |]. rewrite Hr. exact IH.
Qed.

Lemma filter_perm (f : trackPageResult AlbumTrackMetadata -> bool) rs1 rs2 :
  rs1 ≡ₚ rs2 -> List.filter f rs1 ≡ₚ List.filter f rs2.
Proof.
  induction 1 as [| x l l' _ IH | x y l | l l' l'' _ IH1 _ IH2]; simpl.
  - reflexivity.
  - destruct (f x); [constructor |]; exact IH.
  - destruct (f x), (f y); try reflexivity. apply perm_swap.
  - etransitivity; eauto.
Qed.

Lemma pages_share_offsets offsets a b :
  In a (List.filter has_tracks (sequential_pages fetch offsets)) ->
  In b (List.filter has_tracks (sequential_pages fetch offsets)) ->
  offset a = offset b -> a = b.
Proof.
  unfold sequential_pages. intros Ha Hb.
  apply filter_In in Ha as [Ha _]. apply filter_In in Hb as [Hb _].
  apply in_map_iff in Ha as (oa & <- & _). apply in_map_iff in Hb as (ob & <- & _).
  simpl. intros ->. reflexivity.
Qed.

(** The outcome of a run that ends with the context live and every fetch
    a success. *)
Lemma live_outcome offsets acts p :
  (forall o, In o offsets -> snd (fetch o) = None) ->
  exec fetch acts (start offsets) = Some p -> feeder p = DClosed -> ctx_err p = None ->
  finish p = (Some (sortSlice (List.filter has_tracks (sequential_pages fetch offsets))), None).
Proof.
  intros Hok Hex Hc Hlive.
  pose proof (Inv_exec _ _ _ _ (Inv_start offsets) Hex) as Hinv.
  destruct (live_arrivals _ _ Hok Hinv Hc Hlive) as [E Hperm].
  unfold finish. rewrite (inv_firstErr _ _ _ Hinv), Hlive.
  rewrite first_failure_none.
  - rewrite (inv_collected _ _ _ Hinv). f_equal. f_equal.
    symmetry. apply sortSlice_unique.
    + apply filter_perm. symmetry. exact Hperm.
    + apply pages_share_offsets.
  - rewrite E. apply List.Forall_forall. intros r Hr.
    apply in_map_iff in Hr as (o & <- & _). reflexivity.
Qed.


Lemma all_tracks_filter rs : all_tracks (List.filter has_tracks rs) = all_tracks rs.
Proof.
  induction rs as [| r l IH]; simpl; [reflexivity |].
  unfold has_tracks at 1. destruct (tracks r) eqn:E; simpl; rewrite ?E, IH; reflexivity.
Qed.

Lemma filter_sorted (f : trackPageResult AlbumTrackMetadata -> bool) rs :
  StronglySorted le_offset rs -> StronglySorted le_offset (List.filter f rs).
Proof.
  induction 1 as [| r l Hs IH Hr]; simpl; [constructor |].
  destruct (f r); [| exact IH].
  constructor; [exact IH |].
  apply List.Forall_forall. intros x Hx. apply filter_In in Hx as [Hx _].
  eapply List.Forall_forall in Hr; eauto.
Qed.

Lemma sequential_share_offsets offsets a b :
  In a (sequential_pages fetch offsets) -> In b (sequential_pages fetch offsets) ->
  offset a = offset b -> a = b.
Proof.
  unfold sequential_pages. intros Ha Hb.
  apply in_map_iff in Ha as (oa & <- & _). apply in_map_iff in Hb as (ob & <- & _).
  simpl. intros ->. reflexivity.
Qed.

Lemma sortSlice_filter_pages offsets :
  sortSlice (List.filter has_tracks (sequential_pages fetch offsets))
  = List.filter has_tracks (sortSlice (sequential_pages fetch offsets)).
Proof.
  apply sorted_perm_unique.
  - apply sortSlice_sorted.
  - apply filter_sorted, sortSlice_sorted.
  - rewrite sortSlice_perm. apply filter_perm. symmetry. apply sortSlice_perm.
  - intros a b Ha Hb. apply pages_share_offsets with (offsets := offsets).
    + eapply Permutation_in; [apply sortSlice_perm | exact Ha].
    + eapply Permutation_in; [apply sortSlice_perm | exact Hb].
Qed.

Lemma sequential_sorted offsets :
  StronglySorted Z.le offsets -> StronglySorted le_offset (sequential_pages fetch offsets).
Proof.
  unfold sequential_pages. induction 1 as [| o l Hs IH Ho]; simpl; constructor.
  - exact IH.
  - apply List.Forall_forall. intros r Hr. apply in_map_iff in Hr as (o' & <- & Ho').
    eapply List.Forall_forall in Ho; eauto.
Qed.

Lemma filter_all_tracks offsets :
  (forall o, In o offsets -> fst (fetch o) <> None) ->
  List.filter has_tracks (sequential_pages fetch offsets) = sequential_pages fetch offsets.
Proof.
  unfold sequential_pages. induction offsets as [| o l IH]; simpl; intros H; [reflexivity |].
  unfold has_tracks at 1. simpl. destruct (fst (fetch o)) eqn:E.
  - f_equal. apply IH. intros o' Ho'. apply H. right. exact Ho'.
  - exfalso. apply (H o); [left; reflexivity | exact E].
Qed.

Lemma launch_nonempty offsets :
  offsets <> [] ->
  @runTrackPageWorkers_launch AlbumTrackMetadata offsets = Spawned (start offsets).
Proof. destruct offsets; [congruence | reflexivity]. Qed.

(** C3: with every fetch a success and the context live to the end, the
    call returns, and what it returns is the sequential pages that carry a
    non-nil track slice, in ascending order of offset: a page whose slice
    is nil is left out, so the pages returned are all the sequential pages
    only when no fetch gives a nil slice; the tracks handed on are those of
    the sequential pages in every case. *)
Theorem workers_agree_with_sequential (offsets : list Z) :
  (forall o, In o offsets -> snd (fetch o) = None) ->
  (exists out, runTrackPageWorkers_live fetch offsets out) /\
  (forall out, runTrackPageWorkers_live fetch offsets out ->
     snd out = None /\
     elems (fst out) = sortSlice (List.filter has_tracks (sequential_pages fetch offsets)) /\
     elems (fst out) ≡ₚ List.filter has_tracks (sequential_pages fetch offsets) /\
     StronglySorted le_offset (elems (fst out)) /\
     all_tracks (elems (fst out)) = all_tracks (sortSlice (sequential_pages fetch offsets)) /\
     (StronglySorted Z.le offsets ->
      all_tracks (elems (fst out)) = all_tracks (sequential_pages fetch offsets)) /\
     ((forall o, In o offsets -> fst (fetch o) <> None) ->
      elems (fst out) ≡ₚ sequential_pages fetch offsets)).
Proof.
  intros Hok.
  assert (Hall : forall out, runTrackPageWorkers_live fetch offsets out ->
            snd out = None /\
            elems (fst out) = sortSlice (List.filter has_tracks (sequential_pages fetch offsets))).
  { intros out Hrun. unfold runTrackPageWorkers_live in Hrun.
    destruct offsets as [| o l]; simpl in Hrun.
    - subst out. split; reflexivity.
    - destruct Hrun as (acts & p & Hex & Hc & Hlive & ->).
      rewrite (live_outcome _ _ _ Hok Hex Hc Hlive). split; reflexivity. }
  split.
  - unfold runTrackPageWorkers_live. destruct offsets as [| o l] eqn:Eo; simpl.
    + eexists. reflexivity.
    + destruct (completes (o :: l) (start (o :: l)) ltac:(discriminate) (Inv_start _))
        as (acts & p & Hex & Hc & Hctx).
      exists (finish p), acts, p. repeat split; auto.
  - intros out Hrun. destruct (Hall out Hrun) as [Herr Hel].
    split; [exact Herr |]. split; [exact Hel |]. rewrite Hel.
    split; [apply sortSlice_perm |].
    split; [apply sortSlice_sorted |].
    split; [rewrite sortSlice_filter_pages; apply all_tracks_filter |].
    split.
    + intros Hsorted. rewrite sortSlice_filter_pages, all_tracks_filter.
      rewrite sortSlice_sorted_id; [reflexivity | |].
      * apply sequential_sorted. exact Hsorted.
      * apply sequential_share_offsets.
    + intros Hnn. rewrite sortSlice_perm, filter_all_tracks; [reflexivity | exact Hnn].
Qed.

Lemma first_failed_some rs r0 :
  In r0 rs -> err r0 <> None ->
  exists r e, first_failed rs = Some r /\ err r = Some e /\ In r rs.
Proof.
  unfold first_failed. intros Hin Herr.
  destruct (List.find (fun r => match err r with Some _ => true | None => false end) rs)
    as [r |] eqn:Ef.
  - apply find_some in Ef as [Hr He]. destruct (err r) as [e |] eqn:E; [| discriminate].
    exists r, e. auto.
  - eapply find_none in Ef; [| exact Hin]. simpl in Ef.
    destruct (err r0); [discriminate | congruence].
Qed.

(** C4: when the fetch of some offset fails, the call returns, and every
    return is a nil slice with an error: the first result carrying an error
    that reached the collector, wrapped with the offset of that result, an
    offset of the list whose fetch failed (or, once the context is
    cancelled, whose worker gave up on it). *)
Theorem first_failure_is_returned (offsets : list Z) (o : Z) (e : error) :
  In o offsets -> snd (fetch o) = Some e ->
  (exists out, runTrackPageWorkers fetch offsets out) /\
  (forall acts p,
     exec fetch acts (start offsets) = Some p -> feeder p = DClosed ->
     exists r e',
       first_failed (arrived p) = Some r /\ err r = Some e' /\
       In (offset r) offsets /\
       finish p = (None, Some (ErrOffset (offset r) e')) /\
       (ctx_err p = None -> snd (fetch (offset r)) = Some e')) /\
  (forall out, runTrackPageWorkers fetch offsets out ->
     fst out = None /\
     exists o' e', In o' offsets /\ snd out = Some (ErrOffset o' e')).
Proof.
  intros Hin Hfail.
  assert (Hne : offsets <> []) by (intros ->; destruct Hin).
  assert (Hruns : forall acts p,
     exec fetch acts (start offsets) = Some p -> feeder p = DClosed ->
     exists r e',
       first_failed (arrived p) = Some r /\ err r = Some e' /\
       In (offset r) offsets /\
       finish p = (None, Some (ErrOffset (offset r) e')) /\
       (ctx_err p = None -> snd (fetch (offset r)) = Some e')).
  { intros acts p Hex Hc.
    pose proof (Inv_exec _ _ _ _ (Inv_start offsets) Hex) as Hinv.
    pose proof (closed_accounts _ _ Hinv Hc) as Hperm.
    pose proof (inv_arrived _ _ _ Hinv) as Hsound.
    assert (Ho : In o (map offset (arrived p))).
    { eapply Permutation_in; [symmetry; exact Hperm | exact Hin]. }
    apply in_map_iff in Ho as (r0 & Hr0 & Hin0).
    assert (Herr0 : err r0 <> None).
    { eapply List.Forall_forall in Hsound; [| exact Hin0].
      destruct Hsound as [[c Hc0] _]. rewrite Hc0, Hr0. unfold job_result.
      destruct c; [discriminate |].
      destruct (fetch o) as [ts [e0 |]]; simpl in *; [discriminate | congruence]. }
    destruct (first_failed_some _ _ Hin0 Herr0) as (r & e' & Hff & He' & Hr).
    exists r, e'. repeat split; auto.
    - eapply Permutation_in; [exact Hperm |]. apply in_map. exact Hr.
    - unfold finish. rewrite (inv_firstErr _ _ _ Hinv), first_failure_found, Hff, He'.
      reflexivity.
    - intros Hlive. eapply List.Forall_forall in Hsound; [| exact Hr].
      destruct Hsound as [_ Hs]. specialize (Hs Hlive).
      rewrite Hs in He'. unfold job_result in He'.
      destruct (fetch (offset r)) as [ts [e0 |]]; simpl in *; congruence. }
  split; [| split].
  - unfold runTrackPageWorkers. rewrite (launch_nonempty _ Hne).
    destruct (completes offsets (start offsets) Hne (Inv_start _))
      as (acts & p & Hex & Hc & _).
    exists (finish p), acts, p. auto.
  - exact Hruns.
  - intros out Hrun. unfold runTrackPageWorkers in Hrun.
    rewrite (launch_nonempty _ Hne) in Hrun.
    destruct Hrun as (acts & p & Hex & Hc & ->).
    destruct (Hruns acts p Hex Hc) as (r & e' & _ & _ & Hino & Hfin & _).
    rewrite Hfin. split; [reflexivity |]. exists (offset r), e'. auto.
Qed.

Lemma workerCount_min offsets : workerCount offsets = Nat.min 8 (List.length offsets).
Proof.
  unfold workerCount, spotifyWorkerCount.
  destruct (Nat.ltb_spec (List.length offsets) 8); lia.
Qed.

(** C5: the call spawns min(8, number of offsets) workers, none for an
    empty list, for which it returns at once a nil slice and no error; no
    schedule changes the number of workers. *)
Theorem workers_spawned (offsets : list Z) :
  spawned_workers (@runTrackPageWorkers_launch AlbumTrackMetadata offsets)
    = Nat.min 8 (List.length offsets) /\
  @runTrackPageWorkers_launch AlbumTrackMetadata [] = Immediate (None, None) /\
  spawned_workers (@runTrackPageWorkers_launch AlbumTrackMetadata []) = 0 /\
  (forall out, runTrackPageWorkers fetch [] out <-> out = (None, None)) /\
  (forall acts p, exec fetch acts (start offsets) = Some p ->
                  List.length (workers p) = Nat.min 8 (List.length offsets)).
Proof.
  split; [| split; [| split; [| split]]].
  - destruct offsets as [| o l]; [reflexivity |].
    simpl. rewrite repeat_length. apply workerCount_min.
  - reflexivity.
  - reflexivity.
  - intros out. unfold runTrackPageWorkers. simpl. tauto.
  - intros acts p Hex.
    pose proof (Inv_exec _ _ _ _ (Inv_start offsets) Hex) as Hinv.
    rewrite (inv_count _ _ _ Hinv). apply workerCount_min.
Qed.

End PoolFacts.
(** *** The pool on concrete inputs *)

Example run_two_pages :
  exec fetch_ok [ASend 0; ASend 1; AWork 1; AWork 0; ARecv 1; ARecv 0;
                 ACloseJobs; AExit 0; AExit 1; ACloseResults]
       (start [50; 100]%Z)
  = Some {| feeder := DClosed; workers := [WDone; WDone]; ctx_err := None;
            collected := [page fetch_ok 100; page fetch_ok 50];
            firstErr := None;
            arrived := [page fetch_ok 100; page fetch_ok 50] |}.
Proof. reflexivity. Qed.

Example run_two_pages_sorted :
  sortSlice [page fetch_ok 100; page fetch_ok 50] = [page fetch_ok 50; page fetch_ok 100].
Proof. reflexivity. Qed.

Lemma workers_agree_with_sequential_witness :
  exists out, runTrackPageWorkers_live fetch_ok [50; 100]%Z out.
Proof.
  exact (proj1 (workers_agree_with_sequential fetch_ok [50; 100]%Z
                  (fun o _ => eq_refl))).
Defined.

(** C3 as it is worded fails on a fetch that succeeds with a nil
    slice: the run below has the context live and no error, and returns no
    page where the sequential fetch has one. *)
Lemma nil_page_is_dropped :
  (forall o, In o [50%Z] -> snd (fetch_nil o) = None) /\
  runTrackPageWorkers_live fetch_nil [50%Z] (Some [], None) /\
  sequential_pages fetch_nil [50%Z] = [{| offset := 50; tracks := None; err := None |}] /\
  ~ (elems (fst (Some (@nil (trackPageResult Z)), @None error))
     ≡ₚ sequential_pages fetch_nil [50%Z]).
Proof.
  split; [intros; reflexivity |]. split; [| split].
  - exists schedule_one. eexists. repeat split.
  - reflexivity.
  - simpl. intros H. apply Permutation_nil in H. discriminate.
Qed.

Lemma first_failure_is_returned_witness :
  exists out, runTrackPageWorkers fetch_fail [50; 100]%Z out.
Proof.
  exact (proj1 (first_failure_is_returned fetch_fail [50; 100]%Z 100%Z
                  (ErrLib (OtherError "unexpected status 500"))
                  (or_intror (or_introl eq_refl)) eq_refl)).
Defined.

(** C4 as it is worded fails on a run that is cancelled after a fetch
    has failed: the fetch of offset 100 fails, the context is cancelled
    before the worker that holds offset 50 looks at it, and that
    worker's result is the first to reach the collector.  The call
    returns the context's error wrapped with offset 50, a page whose
    fetch succeeds and was never made. *)
Lemma cancelled_run_names_a_page_that_did_not_fail :
  snd (fetch_fail 100) = Some (ErrLib (OtherError "unexpected status 500")) /\
  fetch_fail 50 = (Some [50%Z], None) /\
  option_map finish
    (exec fetch_fail
          [ASend 0; ASend 1; AWork 1; ACancel (ErrLib (OtherError "context canceled"));
           AWork 0; ARecv 0; ARecv 1; ACloseJobs; AExit 0; AExit 1; ACloseResults]
          (start [50; 100]%Z))
  = Some (None, Some (ErrOffset 50 (ErrLib (OtherError "context canceled")))) /\
  runTrackPageWorkers fetch_fail [50; 100]%Z
    (None, Some (ErrOffset 50 (ErrLib (OtherError "context canceled")))).
Proof.
  split; [reflexivity |]. split; [reflexivity |].
  split; [vm_compute; reflexivity |].
  exists [ASend 0; ASend 1; AWork 1; ACancel (ErrLib (OtherError "context canceled"));
          AWork 0; ARecv 0; ARecv 1; ACloseJobs; AExit 0; AExit 1; ACloseResults].
  eexists. split; [vm_compute; reflexivity |]. split; reflexivity.
Qed.

(** A context cancelled before the only job is taken: the worker gives
    up on the offset without the fetch, and the call fails although the
    fetch would have succeeded. *)
Example run_cancelled :
  option_map finish
    (exec fetch_ok (ACancel (ErrLib (OtherError "context canceled")) :: schedule_one)
          (start [50%Z]))
  = Some (None, Some (ErrOffset 50 (ErrLib (OtherError "context canceled")))).
Proof. reflexivity. Qed.

Example run_failing_page :
  option_map finish
    (exec fetch_fail [ASend 1; ASend 0; AWork 0; AWork 1; ARecv 0; ARecv 1;
                      ACloseJobs; AExit 0; AExit 1; ACloseResults]
          (start [50; 100]%Z))
  = Some (None, Some (ErrOffset 100 (ErrLib (OtherError "unexpected status 500")))).
Proof. reflexivity. Qed.

(** ** Random strings *)

Lemma sextets_app (l1 l2 : list byte) (k : nat) :
  List.length l1 = 3 * k ->
  Base64.sextets (l1 ++ l2) = Base64.sextets l1 ++ Base64.sextets l2 /\
  List.length (Base64.sextets l1) = 4 * k.
Proof.
  revert l1. induction k as [| k IH]; intros l1 Hlen.
  - destruct l1; [split; reflexivity | simpl in Hlen; lia].
  - destruct l1 as [| b0 [| b1 [| b2 rest]]]; simpl in Hlen; try lia.
    destruct (IH rest ltac:(lia)) as [E L].
    change (Base64.sextets ((b0 :: b1 :: b2 :: rest) ++ l2))
      with (Base64.sextets3 b0 b1 b2 ++ Base64.sextets (rest ++ l2)).
    change (Base64.sextets (b0 :: b1 :: b2 :: rest))
      with (Base64.sextets3 b0 b1 b2 ++ Base64.sextets rest).
    rewrite E, <- app_assoc. split; [reflexivity |].
    rewrite length_app, L. simpl. lia.
Qed.

Lemma substring_prefix (l1 l2 : list ascii) :
  String.substring 0 (List.length l1) (string_of_list_ascii (l1 ++ l2))
  = string_of_list_ascii l1.
Proof.
  induction l1 as [| c l IH]; simpl.
  - destruct (string_of_list_ascii l2); reflexivity.
  - rewrite IH. reflexivity.
Qed.

(** Of the bytes read, a random string of [4 * k] characters keeps the
    first [3 * k]. *)
Lemma randomString_of_prefix (k : nat) (buf : list byte) :
  3 * k <= List.length buf ->
  randomString_of (4 * k) buf = Base64.encodeRawURL (firstn (3 * k) buf).
Proof.
  intros Hlen. unfold randomString_of, Base64.encodeRawURL.
  rewrite <- (firstn_skipn (3 * k) buf) at 1.
  destruct (sextets_app (firstn (3 * k) buf) (skipn (3 * k) buf) k) as [E L].
  { rewrite length_firstn. lia. }
  rewrite E, map_app.
  rewrite <- L, <- (length_map (Base64.encode_char Base64.encodeURL)).
  apply substring_prefix.
Qed.

Lemma filled_length n stream : List.length (filled n stream) = n.
Proof. unfold filled. rewrite length_map, length_seq. reflexivity. Qed.

Lemma decode_encode_char (v : N) :
  (v < 64)%N ->
  Base64.decode_char Base64.encodeURL (Base64.encode_char Base64.encodeURL v) = Some v.
Proof.
  intros Hv.
  assert (Hall : forallb (fun n =>
            match Base64.decode_char Base64.encodeURL
                    (Base64.encode_char Base64.encodeURL (N.of_nat n)) with
            | Some v' => N.eqb v' (N.of_nat n)
            | None => false
            end) (seq 0 64) = true) by (vm_compute; reflexivity).
  rewrite forallb_forall in Hall.
  specialize (Hall (N.to_nat v)). rewrite N2Nat.id in Hall.
  assert (Hin : In (N.to_nat v) (seq 0 64)) by (apply in_seq; lia).
  specialize (Hall Hin).
  destruct (Base64.decode_char _ _) as [v' |]; [| discriminate].
  apply N.eqb_eq in Hall. congruence.
Qed.

Ltac Zify.zify_post_hook ::= Z.to_euclidean_division_equations.

Lemma sextets_bounded (l : list byte) : Forall (fun v => (v < 64)%N) (Base64.sextets l).
Proof.
  assert (H : forall n (l : list byte), List.length l <= n ->
                Forall (fun v => (v < 64)%N) (Base64.sextets l)).
  { clear l. induction n as [| n IH]; intros l Hl.
    - destruct l; [constructor | simpl in Hl; lia].
    - destruct l as [| b0 [| b1 [| b2 rest]]].
      + constructor.
      + pose proof (Byte.to_N_bounded b0). simpl.
        repeat constructor; lia.
      + pose proof (Byte.to_N_bounded b0). pose proof (Byte.to_N_bounded b1). simpl.
        repeat constructor; lia.
      + pose proof (Byte.to_N_bounded b0). pose proof (Byte.to_N_bounded b1).
        pose proof (Byte.to_N_bounded b2).
        change (Base64.sextets (b0 :: b1 :: b2 :: rest))
          with (Base64.sextets3 b0 b1 b2 ++ Base64.sextets rest).
        apply Forall_app. split.
        * unfold Base64.sextets3. repeat constructor; lia.
        * apply IH. simpl in Hl. lia. }
  apply (H (List.length l)). lia.
Qed.

Lemma decode_chars_encode (vs : list N) :
  Forall (fun v => (v < 64)%N) vs ->
  Base64.decode_chars Base64.encodeURL (map (Base64.encode_char Base64.encodeURL) vs)
  = Some vs.
Proof.
  induction 1 as [| v l Hv _ IH]; simpl; [reflexivity |].
  rewrite (decode_encode_char v Hv), IH. reflexivity.
Qed.

Lemma byte_of_to_N (b : byte) (n : N) : n = Byte.to_N b -> Base64.byte_of_N n = b.
Proof. intros ->. unfold Base64.byte_of_N. rewrite Byte.of_to_N. reflexivity. Qed.

Lemma unsextets_sextets (fuel : nat) (l : list byte) :
  List.length l < fuel -> Base64.unsextets fuel (Base64.sextets l) = Some l.
Proof.
  revert l. induction fuel as [| fuel IH]; intros l Hl; [lia |].
  destruct l as [| b0 [| b1 [| b2 rest]]].
  - reflexivity.
  - pose proof (Byte.to_N_bounded b0). simpl.
    f_equal. f_equal. apply byte_of_to_N. lia.
  - pose proof (Byte.to_N_bounded b0). pose proof (Byte.to_N_bounded b1). simpl.
    f_equal. f_equal; [| f_equal]; apply byte_of_to_N; lia.
  - pose proof (Byte.to_N_bounded b0). pose proof (Byte.to_N_bounded b1).
    pose proof (Byte.to_N_bounded b2).
    change (Base64.sextets (b0 :: b1 :: b2 :: rest))
      with (Base64.sextets3 b0 b1 b2 ++ Base64.sextets rest).
    unfold Base64.sextets3. cbn [app Base64.unsextets].
    rewrite IH by (simpl in Hl; lia).
    f_equal. f_equal; [| f_equal; [| f_equal]]; apply byte_of_to_N; lia.
Qed.

Lemma sextets_longer (l : list byte) : List.length l <= List.length (Base64.sextets l).
Proof.
  assert (H : forall n (l : list byte), List.length l <= n ->
                List.length l <= List.length (Base64.sextets l)).
  { clear l. induction n as [| n IH]; intros l Hl.
    - destruct l; simpl in *; lia.
    - destruct l as [| b0 [| b1 [| b2 rest]]]; simpl; try lia.
      specialize (IH rest ltac:(simpl in Hl; lia)). lia. }
  apply (H (List.length l)). lia.
Qed.

(** The encoding can be undone: the encoded text holds every byte. *)
Lemma decode_encodeRawURL (l : list byte) :
  Base64.decodeRaw Base64.encodeURL (list_ascii_of_string (Base64.encodeRawURL l)) = Some l.
Proof.
  unfold Base64.decodeRaw, Base64.encodeRawURL.
  rewrite list_ascii_of_string_of_list_ascii.
  rewrite decode_chars_encode by apply sextets_bounded.
  apply unsextets_sextets. pose proof (sextets_longer l). lia.
Qed.

Lemma encodeRawURL_inj (l1 l2 : list byte) :
  Base64.encodeRawURL l1 = Base64.encodeRawURL l2 -> l1 = l2.
Proof.
  intros H. pose proof (decode_encodeRawURL l1) as H1.
  rewrite H, decode_encodeRawURL in H1. congruence.
Qed.

(** ** Credentials *)

Lemma nonempty_true s : nonempty s = true <-> s <> ""%string.
Proof.
  unfold nonempty. destruct (String.eqb_spec s ""); simpl; split; congruence.
Qed.

Lemma nonempty_false s : nonempty s = false <-> s = ""%string.
Proof.
  unfold nonempty. destruct (String.eqb_spec s ""); simpl; split; congruence.
Qed.

Lemma fallback_clientID :
  decoded_or_empty "NWY1NzNjOTYyMDQ5NGJhZTg3ODkwYzBmMDhhNjAyOTM="
  = "5f573c9620494bae87890c0f08a60293"%string.
Proof. vm_compute. reflexivity. Qed.

Lemma fallback_clientSecret :
  decoded_or_empty "MjEyNDc2ZDliMGYzNDcyZWFhNzYyZDkwYjE5YjBiYTg="
  = "212476d9b0f3472eaa762d90b19b0ba8"%string.
Proof. vm_compute. reflexivity. Qed.

Section Credentials.
Variable env : Env.

Lemma os_ReadFile_pure path s : snd (os_ReadFile env path s) = s.
Proof.
  unfold os_ReadFile. destruct (fsFault env OpReadFile path); [reflexivity |].
  unfold bind, get_files, ret. destruct (files s !! path); reflexivity.
Qed.

Lemma GetSpotifyClientID_pure s : snd (GetSpotifyClientID env s) = s.
Proof.
  unfold GetSpotifyClientID. destruct (spotifyClientIDPath env); [| reflexivity].
  unfold bind. pose proof (os_ReadFile_pure a s) as H.
  destruct (os_ReadFile env a s) as [[data | e] s1]; simpl in H; subst s1.
  - reflexivity.
  - destruct (is_not_exist e); reflexivity.
Qed.

Lemma GetSpotifyClientSecret_pure s : snd (GetSpotifyClientSecret env s) = s.
Proof.
  unfold GetSpotifyClientSecret. destruct (spotifyClientSecretPath env); [| reflexivity].
  unfold bind. pose proof (os_ReadFile_pure a s) as H.
  destruct (os_ReadFile env a s) as [[data | e] s1]; simpl in H; subst s1.
  - reflexivity.
  - destruct (is_not_exist e); reflexivity.
Qed.

Lemma spotifyClientID_run s :
  snd (spotifyClientID env s) = s /\ nonempty (fst (spotifyClientID env s)) = true.
Proof.
  unfold spotifyClientID, bind. pose proof (GetSpotifyClientID_pure s) as H.
  destruct (GetSpotifyClientID env s) as [[custom | e] s1]; simpl in H; subst s1.
  - destruct (nonempty custom) eqn:E; simpl; [auto |].
    rewrite fallback_clientID. auto.
  - simpl. rewrite fallback_clientID. auto.
Qed.

Lemma spotifyClientSecret_run s :
  snd (spotifyClientSecret env s) = s /\ nonempty (fst (spotifyClientSecret env s)) = true.
Proof.
  unfold spotifyClientSecret, bind. pose proof (GetSpotifyClientSecret_pure s) as H.
  destruct (GetSpotifyClientSecret env s) as [[custom | e] s1]; simpl in H; subst s1.
  - destruct (nonempty custom) eqn:E; simpl; [auto |].
    rewrite fallback_clientSecret. auto.
  - simpl. rewrite fallback_clientSecret. auto.
Qed.

End Credentials.

(** ** The token calls *)

Lemma bind_run {A B} (c : M A) (k : A -> M B) s :
  bind c k s = k (fst (c s)) (snd (c s)).
Proof. unfold bind. destruct (c s); reflexivity. Qed.

Section TokenCalls.
Variable env : Env.

Lemma os_ReadFile_files path s s' :
  files s = files s' -> fst (os_ReadFile env path s) = fst (os_ReadFile env path s').
Proof.
  intros H. unfold os_ReadFile. destruct (fsFault env OpReadFile path); [reflexivity |].
  unfold bind, get_files, ret. rewrite H. destruct (files s' !! path); reflexivity.
Qed.

Lemma spotifyClientID_files s s' :
  files s = files s' -> fst (spotifyClientID env s) = fst (spotifyClientID env s').
Proof.
  intros H. unfold spotifyClientID, GetSpotifyClientID, bind.
  destruct (spotifyClientIDPath env) as [path |]; [| reflexivity].
  pose proof (os_ReadFile_files path s s' H) as E.
  destruct (os_ReadFile env path s) as [r1 s1], (os_ReadFile env path s') as [r2 s2].
  simpl in E. subst r2. destruct r1 as [data | e]; simpl.
  - destruct (nonempty (strings_TrimSpace env data)); reflexivity.
  - destruct (is_not_exist e); reflexivity.
Qed.

Lemma spotifyClientSecret_files s s' :
  files s = files s' -> fst (spotifyClientSecret env s) = fst (spotifyClientSecret env s').
Proof.
  intros H. unfold spotifyClientSecret, GetSpotifyClientSecret, bind.
  destruct (spotifyClientSecretPath env) as [path |]; [| reflexivity].
  pose proof (os_ReadFile_files path s s' H) as E.
  destruct (os_ReadFile env path s) as [r1 s1], (os_ReadFile env path s') as [r2 s2].
  simpl in E. subst r2. destruct r1 as [data | e]; simpl.
  - destruct (nonempty (strings_TrimSpace env data)); reflexivity.
  - destruct (is_not_exist e); reflexivity.
Qed.

Lemma request_of_files g s s' :
  files s = files s' -> request_of env g s = request_of env g s'.
Proof.
  intros H. unfold request_of.
  rewrite (spotifyClientID_files s s' H), (spotifyClientSecret_files s s' H). reflexivity.
Qed.

Lemma exchangeCodeForToken_run code redirectURI verifier' s :
  let g := AuthorizationCode code redirectURI verifier' in
  let call := EvExchange code redirectURI verifier' in
  exchangeCodeForToken env code redirectURI verifier' s =
  match newTokenRequest env with
  | Some e => (Err (ErrLib e), with_trace s 0 [call])
  | None =>
      match reply_of env ErrTokenExchangeFailed (http_Do env (ticks s) (request_of env g s)) with
      | Err e => (Err e, with_trace s 1 [call; EvHttpPost (request_of env g s)])
      | Ok r =>
          (Ok (token_of (resp_RefreshToken r) (time_Now env (S (ticks s))) r),
           with_trace s 2 [call; EvHttpPost (request_of env g s)])
      end
  end.
Proof.
  intros g call. subst g call. unfold exchangeCodeForToken.
  rewrite bind_run. cbn [fst snd emit].
  destruct (newTokenRequest env); [reflexivity |].
  set (s0 := {| mgr := mgr s; files := files s; ticks := ticks s;
                trace := trace s ++ [EvExchange code redirectURI verifier'] |}).
  rewrite bind_run. destruct (spotifyClientID_run env s0) as [E1 N1]. rewrite E1.
  rewrite bind_run. destruct (spotifyClientSecret_run env s0) as [E2 N2]. rewrite E2.
  rewrite N1, N2. cbn [negb orb].
  rewrite !bind_run. cbn [fst snd tick emit].
  unfold request_of.
  rewrite (spotifyClientID_files s s0 eq_refl), (spotifyClientSecret_files s s0 eq_refl).
  unfold reply_of, with_trace, token_of. subst s0. cbn [ticks mgr files trace].
  destruct (http_Do env (ticks s) _) as [resp | e]; [| rewrite <- app_assoc; reflexivity].
  destruct (negb (StatusCode resp =? 200)%Z); [rewrite <- app_assoc; reflexivity |].
  destruct (json_decodeTokenResp env (Body resp)) as [r | e]; cbn [lift];
    [| rewrite <- app_assoc; reflexivity].
  rewrite bind_run. cbn [fst snd tick ret ticks mgr files trace].
  rewrite <- app_assoc. reflexivity.
Qed.

Lemma refreshAccessToken_run refreshToken s :
  let g := RefreshGrant refreshToken in
  let call := EvRefresh refreshToken in
  refreshAccessToken env refreshToken s =
  match newTokenRequest env with
  | Some e => (Err (ErrLib e), with_trace s 0 [call])
  | None =>
      match reply_of env ErrRefreshFailed (http_Do env (ticks s) (request_of env g s)) with
      | Err e => (Err e, with_trace s 1 [call; EvHttpPost (request_of env g s)])
      | Ok r =>
          (Ok (token_of (if nonempty (resp_RefreshToken r) then resp_RefreshToken r
                         else refreshToken)
                        (time_Now env (S (ticks s))) r),
           with_trace s 2 [call; EvHttpPost (request_of env g s)])
      end
  end.
Proof.
  intros g call. subst g call. unfold refreshAccessToken.
  rewrite bind_run. cbn [fst snd emit].
  destruct (newTokenRequest env); [reflexivity |].
  set (s0 := {| mgr := mgr s; files := files s; ticks := ticks s;
                trace := trace s ++ [EvRefresh refreshToken] |}).
  rewrite bind_run. destruct (spotifyClientID_run env s0) as [E1 N1]. rewrite E1.
  rewrite bind_run. destruct (spotifyClientSecret_run env s0) as [E2 N2]. rewrite E2.
  rewrite N1, N2. cbn [negb orb].
  rewrite !bind_run. cbn [fst snd tick emit].
  unfold request_of.
  rewrite (spotifyClientID_files s s0 eq_refl), (spotifyClientSecret_files s s0 eq_refl).
  unfold reply_of, with_trace, token_of. subst s0. cbn [ticks mgr files trace].
  destruct (http_Do env (ticks s) _) as [resp | e]; [| rewrite <- app_assoc; reflexivity].
  destruct (negb (StatusCode resp =? 200)%Z); [rewrite <- app_assoc; reflexivity |].
  destruct (json_decodeTokenResp env (Body resp)) as [r | e]; cbn [lift];
    [| rewrite <- app_assoc; reflexivity].
  rewrite bind_run. cbn [fst snd tick ret ticks mgr files trace].
  destruct (nonempty (resp_RefreshToken r)); cbn [negb];
    rewrite <- app_assoc; reflexivity.
Qed.

End TokenCalls.

Section ManagerFacts.
Variable env : Env.

Lemma saveTokens_spec t s :
  exists evs,
    trace (snd (saveTokens env t s)) = trace s ++ evs /\
    refresh_calls evs = 0 /\ exchange_calls evs = 0 /\ posts evs = 0 /\
    tokens (mgr (snd (saveTokens env t s))) = Some t /\
    (fst (saveTokens env t s) = Ok tt ->
     exists path, spotifyTokenPath env = Ok path /\
                  files (snd (saveTokens env t s)) !! path = Some (json_MarshalIndent env t)).
Proof.
  unfold saveTokens, bind_ok, bind, modify_mgr, bind, get_mgr, put_mgr. simpl.
  destruct (spotifyTokenPath env) as [path | e]; simpl.
  2: { exists []. rewrite app_nil_r. repeat split; auto. discriminate. }
  unfold os_MkdirAll. destruct (fsFault env OpMkdirAll (filepath_Dir env path)); simpl.
  { exists []. rewrite app_nil_r. repeat split; auto. discriminate. }
  unfold os_WriteFile. destruct (fsFault env OpWriteFile path); simpl.
  { eexists. repeat split; auto. discriminate. }
  eexists. split; [rewrite <- app_assoc; reflexivity |].
  repeat split; auto. intros _. exists path. split; [reflexivity |].
  apply lookup_insert_eq.
Qed.

(** C10: the client identifier and the client secret are never empty,
    whatever the override files hold and whether or not they can be read,
    so neither token call ever fails for want of credentials. *)
Theorem client_credentials_never_missing
    (code redirectURI verifier' refreshToken : string) (s : St) :
  fst (spotifyClientID env s) <> ""%string /\
  fst (spotifyClientSecret env s) <> ""%string /\
  fst (exchangeCodeForToken env code redirectURI verifier' s) <> Err ErrMissingCredentials /\
  fst (refreshAccessToken env refreshToken s) <> Err ErrMissingCredentials.
Proof.
  split; [| split; [| split]].
  - apply nonempty_true, spotifyClientID_run.
  - apply nonempty_true, spotifyClientSecret_run.
  - rewrite exchangeCodeForToken_run. cbv zeta.
    destruct (newTokenRequest env); simpl; [discriminate |].
    unfold reply_of. destruct (http_Do env _ _) as [resp | e]; simpl; [| discriminate].
    destruct (negb _); simpl; [discriminate |].
    destruct (json_decodeTokenResp env (Body resp)); simpl; discriminate.
  - rewrite refreshAccessToken_run. cbv zeta.
    destruct (newTokenRequest env); simpl; [discriminate |].
    unfold reply_of. destruct (http_Do env _ _) as [resp | e]; simpl; [| discriminate].
    destruct (negb _); simpl; [discriminate |].
    destruct (json_decodeTokenResp env (Body resp)); simpl; discriminate.
Qed.

(** C8: on a 200 response that decodes, the refresh returns a record; its
    refresh token is the one in the response, or the prior one when the
    response has none. *)
Theorem refresh_token_retained (refreshToken body : string) (s : St) (r : tokenResp) :
  newTokenRequest env = None ->
  http_Do env (ticks s) (request_of env (RefreshGrant refreshToken) s)
    = Got {| StatusCode := 200; Body := body |} ->
  json_decodeTokenResp env body = Got r ->
  exists t,
    fst (refreshAccessToken env refreshToken s) = Ok t /\
    AccessToken t = resp_AccessToken r /\
    (resp_RefreshToken r = ""%string -> RefreshToken t = refreshToken) /\
    (resp_RefreshToken r <> ""%string -> RefreshToken t = resp_RefreshToken r).
Proof.
  intros Hreq Hdo Hdec. rewrite refreshAccessToken_run. cbv zeta.
  rewrite Hreq, Hdo. unfold reply_of. simpl. rewrite Hdec. simpl.
  eexists. split; [reflexivity |]. simpl. split; [reflexivity |].
  split; intros H.
  - rewrite H. reflexivity.
  - apply nonempty_true in H. rewrite H. reflexivity.
Qed.

Lemma refresh_calls_app l1 l2 : refresh_calls (l1 ++ l2) = refresh_calls l1 + refresh_calls l2.
Proof. unfold refresh_calls. rewrite List.filter_app, length_app. reflexivity. Qed.

Lemma wrap64_small z : (- 2 ^ 63 <= z < 2 ^ 63)%Z -> wrap64 z = z.
Proof.
  intros H. unfold wrap64. rewrite Z.mod_small; lia.
Qed.

(** C1: a freshness check on a stored token makes no refresh call when
    more than 30 seconds remain; with fewer than 30 seconds remaining it
    makes exactly one, before anything else, if a refresh token is stored,
    and none, failing with the missing-refresh-token error, if the stored
    refresh token is empty. *)
Theorem freshness_check (s : St) (t : spotifyTokenStore) :
  tokens (mgr s) = Some t ->
  (- 2 ^ 63 <= Unix (time_Now env (ticks s)) < 2 ^ 63 - 30)%Z ->
  exists evs,
    trace (snd (ensureFreshTokenLocked env s)) = trace s ++ evs /\
    ((ExpiresAt t - Unix (time_Now env (ticks s)) > 30)%Z ->
       fst (ensureFreshTokenLocked env s) = Ok tt /\ evs = []) /\
    ((ExpiresAt t - Unix (time_Now env (ticks s)) < 30)%Z ->
       RefreshToken t <> ""%string ->
       refresh_calls evs = 1 /\
       exists rest, evs = EvRefresh (RefreshToken t) :: rest) /\
    ((ExpiresAt t - Unix (time_Now env (ticks s)) < 30)%Z ->
       RefreshToken t = ""%string ->
       fst (ensureFreshTokenLocked env s) = Err ErrMissingRefreshToken /\ evs = []).
Proof.
  intros Ht Hnow.
  unfold ensureFreshTokenLocked, bind, get_mgr. rewrite Ht. unfold tick. simpl.
  rewrite wrap64_small by lia.
  destruct (Z.ltb_spec (Unix (time_Now env (ticks s)) + 30) (ExpiresAt t)) as [Hf | Hstale].
  { exists []. simpl. rewrite app_nil_r. repeat split; auto; intros; lia. }
  destruct (nonempty (RefreshToken t)) eqn:Hrt; simpl.
  2: { apply nonempty_false in Hrt. exists []. simpl. rewrite app_nil_r.
       split; [reflexivity |]. split; [intros; lia |].
       split; [intros _ H; congruence | auto]. }
  unfold bind_ok, bind.
  match goal with |- context [refreshAccessToken env ?rt ?s0] =>
    pose proof (refreshAccessToken_run env rt s0) as Hrun; cbv zeta in Hrun;
    destruct (refreshAccessToken env rt s0) as [r1 s1] end.
  assert (Hpre : exists rest, trace s1 = trace s ++ EvRefresh (RefreshToken t) :: rest
                              /\ refresh_calls rest = 0).
  { destruct (newTokenRequest env).
    - inversion Hrun; subst. exists []. split; reflexivity.
    - destruct (reply_of env ErrRefreshFailed _); inversion Hrun; subst;
        eexists; split; reflexivity. }
  destruct Hpre as (rest & Htr & Hrest).
  destruct r1 as [refreshed | e].
  - destruct (saveTokens_spec refreshed s1) as (evs & Hs & Hnr & _).
    exists (EvRefresh (RefreshToken t) :: rest ++ evs).
    split; [rewrite Hs, Htr, <- app_assoc; reflexivity |].
    split; [intros; lia |]. split; [| intros _ H; apply nonempty_true in Hrt; congruence].
    intros _ _. split; [| eexists; reflexivity].
    change (refresh_calls ([EvRefresh (RefreshToken t)] ++ rest ++ evs) = 1).
    rewrite !refresh_calls_app, Hrest, Hnr. reflexivity.
  - exists (EvRefresh (RefreshToken t) :: rest). simpl.
    split; [exact Htr |].
    split; [intros; lia |]. split; [| intros _ H; apply nonempty_true in Hrt; congruence].
    intros _ _. split; [| eexists; reflexivity].
    change (refresh_calls ([EvRefresh (RefreshToken t)] ++ rest) = 1).
    rewrite refresh_calls_app, Hrest. reflexivity.
Qed.

Lemma reply_of_ok failed o r :
  reply_of env failed o = Ok r ->
  exists resp, o = Got resp /\ StatusCode resp = 200%Z /\
               json_decodeTokenResp env (Body resp) = Got r.
Proof.
  unfold reply_of. destruct o as [resp | e]; [| discriminate].
  destruct (Z.eqb_spec (StatusCode resp) 200); simpl; [| discriminate].
  destruct (json_decodeTokenResp env (Body resp)) as [r' | e'] eqn:E; simpl; [| discriminate].
  intros H. inversion H; subst. exists resp. auto.
Qed.


(** The two ways out of the handler before the exchange: case on the
    result slot and on the server, then read the state off. *)
Ltac callback_rejected s :=
  let Elw := fresh "Elw" in
  let Esv := fresh "Esv" in
  destruct (loginWait (mgr s)) eqn:Elw; simpl; rewrite ?Elw; simpl;
  destruct (server (mgr s)) eqn:Esv; simpl;
  eexists; (split; [rewrite <- ?app_assoc; reflexivity |]);
  do 4 (split; [reflexivity |]);
  (split;
   [ intros ? ?; first [congruence | split; rewrite ?Elw; reflexivity]
   | let H := fresh in
     intros H; first [split; rewrite ?Elw; reflexivity | destruct H; congruence] ]).

(** C2: a callback whose state differs from the one issued is answered
    with a 400 and never reaches the token exchange: no exchange call, no
    request to the token endpoint, nothing stored.  The error is the state
    mismatch when state and code are both present; a callback that lacks
    one of them is turned away before the comparison, as malformed. *)
Theorem mismatched_state_rejected (r : callbackRequest) (s : St) :
  query_state r <> state (mgr s) ->
  exists msg evs,
    trace (snd (handleCallback env r s)) = trace s ++ EvHttpError msg 400 :: evs /\
    exchange_calls (EvHttpError msg 400 :: evs) = 0 /\
    posts (EvHttpError msg 400 :: evs) = 0 /\
    tokens (mgr (snd (handleCallback env r s))) = tokens (mgr s) /\
    files (snd (handleCallback env r s)) = files s /\
    (query_state r <> ""%string -> query_code r <> ""%string ->
     msg = "State mismatch"%string /\
     loginWait (mgr (snd (handleCallback env r s)))
     = match loginWait (mgr s) with
       | ChanEmpty => ChanFull (Some ErrStateMismatch)
       | c => c
       end) /\
    (query_state r = ""%string \/ query_code r = ""%string ->
     msg = "Invalid response from Spotify"%string /\
     loginWait (mgr (snd (handleCallback env r s)))
     = match loginWait (mgr s) with
       | ChanEmpty => ChanFull (Some ErrMissingStateOrCode)
       | c => c
       end).
Proof.
  intros Hne. unfold handleCallback, handleCallback_body.
  destruct (nonempty (query_state r)) eqn:Es; simpl;
    [destruct (nonempty (query_code r)) eqn:Ec; simpl |].
  - (* both present: the comparison *)
    apply nonempty_true in Es, Ec.
    exists "State mismatch"%string.
    unfold bind, emit, pushLoginError, modify_mgr, bind, get_mgr, put_mgr, closeServer,
      bind, get_mgr, modify_mgr, bind, get_mgr, put_mgr, emit, ret. simpl.
    destruct (String.eqb_spec (query_state r) (state (mgr s))) as [Heq | _]; [congruence |].
    simpl.
    callback_rejected s.
  - apply nonempty_true in Es. apply nonempty_false in Ec.
    exists "Invalid response from Spotify"%string.
    unfold bind, emit, pushLoginError, modify_mgr, bind, get_mgr, put_mgr, closeServer,
      bind, get_mgr, modify_mgr, bind, get_mgr, put_mgr, emit, ret. simpl.
    callback_rejected s.
  - apply nonempty_false in Es.
    exists "Invalid response from Spotify"%string.
    unfold bind, emit, pushLoginError, modify_mgr, bind, get_mgr, put_mgr, closeServer,
      bind, get_mgr, modify_mgr, bind, get_mgr, put_mgr, emit, ret. simpl.
    callback_rejected s.
Qed.

(** C9: logout always succeeds and clears the token and the profile held
    in memory, and a second logout changes nothing.  It asks for the token
    file to be removed and does not look at the answer: when the path
    resolves and the removal is not refused, no token file is left, and a
    status check that can read the directory then reports
    [authenticated=false] without error. *)
Theorem logout_clears (s : St) :
  fst (logout env s) = Ok tt /\
  tokens (mgr (snd (logout env s))) = None /\
  profile (mgr (snd (logout env s))) = None /\
  logout env (snd (logout env s)) = (Ok tt, snd (logout env s)) /\
  (forall path,
     spotifyTokenPath env = Ok path -> fsFault env OpRemove path = None ->
     files (snd (logout env s)) !! path = None /\
     (fsFault env OpReadFile path = None ->
      fst (status env (snd (logout env s))) = Ok SpotifyAuthStatus_zero)).
Proof.
  unfold logout, bind, modify_mgr, bind, get_mgr, put_mgr. simpl.
  destruct (spotifyTokenPath env) as [path | e] eqn:Ep; simpl.
  2: { do 4 (split; [reflexivity |]). intros p Hp. discriminate. }
  unfold os_Remove. destruct (fsFault env OpRemove path) as [e |] eqn:Ef; simpl.
  { rewrite ?Ef. simpl. do 4 (split; [reflexivity |]).
    intros p Hp Hr. inversion Hp; subst. congruence. }
  unfold bind, get_files, put_files, emit, ret. simpl.
  destruct (files s !! path) as [data |] eqn:El; simpl.
  - rewrite ?Ef. simpl. rewrite lookup_delete_eq. simpl.
    split; [reflexivity |]. split; [reflexivity |]. split; [reflexivity |].
    split; [reflexivity |].
    intros p Hp _. inversion Hp; subst p. split; [apply lookup_delete_eq |].
    intros Hr. unfold status, bind, get_mgr. simpl.
    unfold loadTokensFromDisk. rewrite Ep. unfold bind_ok, bind, os_ReadFile.
    rewrite Hr. unfold bind, get_files, ret. simpl. rewrite lookup_delete_eq. simpl.
    reflexivity.
  - rewrite ?Ef. simpl. rewrite ?El. simpl.
    split; [reflexivity |]. split; [reflexivity |]. split; [reflexivity |].
    split; [reflexivity |].
    intros p Hp _. inversion Hp; subst p. split; [exact El |].
    intros Hr. unfold status, bind, get_mgr. simpl.
    unfold loadTokensFromDisk. rewrite Ep. unfold bind_ok, bind, os_ReadFile.
    rewrite Hr. unfold bind, get_files, ret. simpl. rewrite ?El. simpl.
    reflexivity.
Qed.

End ManagerFacts.

(** ** Login *)

Section Login.
Variable env : Env.

Lemma randomString_run n s :
  randomString env n s =
  (match rand_Read env (ticks s) with
   | Failed e => Err (ErrLib e)
   | Got stream => Ok (randomString_of n (filled n stream))
   end,
   {| mgr := mgr s; files := files s; ticks := S (ticks s); trace := trace s |}).
Proof.
  unfold randomString, bind, tick. simpl. destruct (rand_Read env (ticks s)); reflexivity.
Qed.

Ltac mrun :=
  repeat first
    [ progress cbn [fst snd tick emit ret get_mgr put_mgr mgr files ticks trace]
    | rewrite bind_run ].

(** After the listener is open: the two random strings, then the URL. *)
Ltac login_tail :=
  rewrite !randomString_run; cbn [fst snd ticks mgr files trace];
  match goal with |- context [rand_Read env ?n] =>
    let st1 := fresh "st1" in
    let E1 := fresh "E1" in
    destruct (rand_Read env n) as [st1 | ?] eqn:E1; [| mrun; cbn; discriminate];
    mrun; rewrite !randomString_run; cbn [fst snd ticks mgr files trace];
    let st2 := fresh "st2" in
    let E2 := fresh "E2" in
    destruct (rand_Read env (S n)) as [st2 | ?] eqn:E2; [| mrun; cbn; discriminate];
    mrun;
    match goal with |- context [spotifyClientID env ?s3] =>
      let Eid := fresh "Eid" in
      destruct (spotifyClientID_run env s3) as [Eid _];
      destruct (spotifyClientID env s3) as [? ?]
    end;
    cbn [fst snd] in *; subst; mrun;
    intros _; exists n, st1, st2; auto
  end.

Lemma startLogin_tokens (s : St) (resp : SpotifyLoginResponse) :
  fst (startLogin env s) = Ok resp ->
  exists n st1 st2,
    rand_Read env n = Got st1 /\ rand_Read env (S n) = Got st2 /\
    verifier (mgr (snd (startLogin env s))) = randomString_of 64 (filled 64 st1) /\
    state (mgr (snd (startLogin env s))) = randomString_of 32 (filled 32 st2).
Proof.
  unfold startLogin, generateCodeVerifier, buildAuthorizeURL, modify_mgr.
  rewrite bind_run. destruct (closeServer s) as [[] s0]. cbn [fst snd].
  mrun.
  destruct (net_Listen env (ticks s0) defaultCallbackHost) as [port | e0].
  - mrun. login_tail.
  - mrun. destruct (net_Listen env (S (ticks s0)) "127.0.0.1:0") as [port | e0'];
      cbn [lift]; [| mrun; cbn; discriminate].
    mrun. login_tail.
Qed.

End Login.

Lemma randomString_of_same_iff (k : nat) (b1 b2 : list byte) :
  3 * k <= List.length b1 -> 3 * k <= List.length b2 ->
  (randomString_of (4 * k) b1 = randomString_of (4 * k) b2
   <-> firstn (3 * k) b1 = firstn (3 * k) b2).
Proof.
  intros H1 H2. rewrite !randomString_of_prefix by assumption. split.
  - apply encodeRawURL_inj.
  - intros ->. reflexivity.
Qed.

(** C6: after a successful [startLogin] the verifier is the URL-safe
    encoding of the first 48 of the 64 random bytes read for it, and the
    state token that of the first 24 of the 32 read for it: each token is
    fixed by those bytes and fixes them, and the bytes read beyond them
    play no part. *)
Theorem login_tokens_randomness (env : Env) (s : St) (resp : SpotifyLoginResponse) :
  fst (startLogin env s) = Ok resp ->
  exists n st1 st2,
    rand_Read env n = Got st1 /\ rand_Read env (S n) = Got st2 /\
    verifier (mgr (snd (startLogin env s)))
      = Base64.encodeRawURL (firstn 48 (filled 64 st1)) /\
    state (mgr (snd (startLogin env s)))
      = Base64.encodeRawURL (firstn 24 (filled 32 st2)) /\
    (forall st1',
       randomString_of 64 (filled 64 st1') = verifier (mgr (snd (startLogin env s)))
       <-> firstn 48 (filled 64 st1') = firstn 48 (filled 64 st1)) /\
    (forall st2',
       randomString_of 32 (filled 32 st2') = state (mgr (snd (startLogin env s)))
       <-> firstn 24 (filled 32 st2') = firstn 24 (filled 32 st2)).
Proof.
  intros Hok. destruct (startLogin_tokens env s resp Hok) as (n & st1 & st2 & E1 & E2 & Hv & Hs).
  exists n, st1, st2. rewrite Hv, Hs.
  split; [exact E1 |]. split; [exact E2 |].
  split; [apply (randomString_of_prefix 16); rewrite filled_length; lia |].
  split; [apply (randomString_of_prefix 8); rewrite filled_length; lia |].
  split; intros st'.
  - apply (randomString_of_same_iff 16); rewrite filled_length; lia.
  - apply (randomString_of_same_iff 8); rewrite filled_length; lia.
Qed.

(** ** The manager on concrete inputs *)

Lemma login_tokens_randomness_witness :
  exists n st1 st2,
    rand_Read (test_env no_fault resp_ok) n = Got st1 /\
    rand_Read (test_env no_fault resp_ok) (S n) = Got st2 /\
    verifier (mgr (snd (startLogin (test_env no_fault resp_ok)
                                   (st_with (manager_with None "") no_files))))
      = Base64.encodeRawURL (firstn 48 (filled 64 st1)) /\
    state (mgr (snd (startLogin (test_env no_fault resp_ok)
                                (st_with (manager_with None "") no_files))))
      = Base64.encodeRawURL (firstn 24 (filled 32 st2)).
Proof.
  destruct (login_tokens_randomness (test_env no_fault resp_ok)
              (st_with (manager_with None "") no_files)
              (match fst (startLogin (test_env no_fault resp_ok)
                            (st_with (manager_with None "") no_files)) with
               | Ok r => r
               | Err _ => {| URL := "" |}
               end)
              ltac:(vm_compute; reflexivity))
    as (n & st1 & st2 & H1 & H2 & H3 & H4 & _).
  exists n, st1, st2. auto.
Defined.

Example login_state_token :
  state (mgr (snd (startLogin (test_env no_fault resp_ok)
                              (st_with (manager_with None "") no_files))))
  = "AAAAAAAAAAAAAAAAAAAAAAAAAAAAAAAA"%string.
Proof. vm_compute. reflexivity. Qed.

(** C6 as it is worded fails for the state token: two reads of
    32 random bytes that differ in the last byte give the same token. *)
Lemma state_token_ignores_last_bytes :
  filled 32 stream_a <> filled 32 stream_b /\
  List.length (filled 32 stream_a) = 32 /\
  List.length (filled 32 stream_b) = 32 /\
  randomString_of 32 (filled 32 stream_a) = randomString_of 32 (filled 32 stream_b) /\
  randomString_of 32 (filled 32 stream_a) = "AAAAAAAAAAAAAAAAAAAAAAAAAAAAAAAA"%string.
Proof.
  split; [| split; [| split; [| split]]]; try (vm_compute; reflexivity).
  vm_compute. discriminate.
Qed.

Lemma freshness_check_witness :
  exists evs,
    trace (snd (ensureFreshTokenLocked (test_env no_fault resp_ok)
                  (st_with (manager_with (Some tok_stale) "") no_files)))
    = [] ++ evs /\
    refresh_calls evs = 1.
Proof.
  destruct (freshness_check (test_env no_fault resp_ok)
              (st_with (manager_with (Some tok_stale) "") no_files) tok_stale
              eq_refl ltac:(simpl; lia))
    as (evs & Htr & _ & Hstale & _).
  exists evs. split; [exact Htr |].
  apply Hstale; [simpl; lia | discriminate].
Defined.

Example refresh_of_stale_token :
  trace (snd (ensureFreshTokenLocked (test_env no_fault resp_ok)
                (st_with (manager_with (Some tok_stale) "") no_files)))
  = [ EvRefresh "rt-1";
      EvHttpPost {| req_grant := RefreshGrant "rt-1";
                    req_clientID := "5f573c9620494bae87890c0f08a60293";
                    req_clientSecret := "212476d9b0f3472eaa762d90b19b0ba8" |};
      EvMkdirAll appDir;
      EvWriteFile tokenPath "BQ-access,rt-1" ].
Proof. vm_compute. reflexivity. Qed.

(** What the check does with exactly 30 seconds left. *)
Example refresh_at_thirty_seconds :
  refresh_calls
    (trace (snd (ensureFreshTokenLocked (test_env no_fault resp_ok)
       (st_with (manager_with
          (Some {| AccessToken := "BQ-stored"; RefreshToken := "rt-1";
                   ExpiresAt := 1700000030; Scope := ""; TokenType := "Bearer" |}) "")
          no_files))))
  = 1.
Proof. vm_compute. reflexivity. Qed.

(** C1 as it is worded fails on a stale token stored without a
    refresh token: ten seconds remain, and the check makes no refresh
    call. *)
Lemma stale_token_without_refresh_token :
  tokens (mgr (st_with (manager_with (Some tok_stale_no_refresh) "") no_files))
    = Some tok_stale_no_refresh /\
  (ExpiresAt tok_stale_no_refresh
   - Unix (time_Now (test_env no_fault resp_ok) 0) = 10)%Z /\
  refresh_calls
    (trace (snd (ensureFreshTokenLocked (test_env no_fault resp_ok)
                   (st_with (manager_with (Some tok_stale_no_refresh) "") no_files))))
    = 0 /\
  fst (ensureFreshTokenLocked (test_env no_fault resp_ok)
         (st_with (manager_with (Some tok_stale_no_refresh) "") no_files))
    = Err ErrMissingRefreshToken.
Proof. repeat split; vm_compute; reflexivity. Qed.

Lemma mismatched_state_rejected_witness :
  exists msg evs,
    trace (snd (handleCallback (test_env no_fault resp_ok)
                  {| query_state := "forged"; query_code := "code-1" |}
                  (st_with (manager_with None "issued") no_files)))
    = [] ++ EvHttpError msg 400 :: evs /\
    exchange_calls (EvHttpError msg 400 :: evs) = 0 /\
    msg = "State mismatch"%string.
Proof.
  destruct (mismatched_state_rejected (test_env no_fault resp_ok)
              {| query_state := "forged"; query_code := "code-1" |}
              (st_with (manager_with None "issued") no_files)
              ltac:(discriminate))
    as (msg & evs & Htr & Hex & _ & _ & _ & Hboth & _).
  exists msg, evs. split; [exact Htr |]. split; [exact Hex |].
  apply Hboth; discriminate.
Defined.

(** C2 as it is worded fails on a callback that carries a state
    other than the one issued and no code: it is rejected as malformed,
    not as a state mismatch. *)
Lemma forged_state_without_code :
  query_state {| query_state := "forged"; query_code := "" |}
    <> state (mgr (st_with (manager_with None "issued") no_files)) /\
  trace (snd (handleCallback (test_env no_fault resp_ok)
                {| query_state := "forged"; query_code := "" |}
                (st_with (manager_with None "issued") no_files)))
    = [EvHttpError "Invalid response from Spotify" 400; EvServerClose 3000] /\
  loginWait (mgr (snd (handleCallback (test_env no_fault resp_ok)
                         {| query_state := "forged"; query_code := "" |}
                         (st_with (manager_with None "issued") no_files))))
    = ChanFull (Some ErrMissingStateOrCode).
Proof.
  split; [simpl; discriminate |]. split; vm_compute; reflexivity.
Qed.


Lemma refresh_token_retained_witness :
  exists t,
    fst (refreshAccessToken (test_env no_fault resp_ok) "rt-1"
           (st_with (manager_with (Some tok_stale) "") no_files)) = Ok t /\
    RefreshToken t = "rt-1"%string.
Proof.
  destruct (refresh_token_retained (test_env no_fault resp_ok) "rt-1" "body"
              (st_with (manager_with (Some tok_stale) "") no_files) resp_ok
              eq_refl eq_refl eq_refl)
    as (t & Hok & _ & Hkeep & _).
  exists t. split; [exact Hok |]. apply Hkeep. reflexivity.
Defined.

Example refresh_token_replaced :
  option_map RefreshToken
    (match fst (refreshAccessToken
                  (test_env no_fault
                     {| resp_AccessToken := "BQ-access"; ExpiresIn := 3600;
                        resp_RefreshToken := "rt-2"; resp_Scope := "";
                        resp_TokenType := "Bearer" |})
                  "rt-1" (st_with (manager_with (Some tok_stale) "") no_files)) with
     | Ok t => Some t
     | Err _ => None
     end)
  = Some "rt-2"%string.
Proof. vm_compute. reflexivity. Qed.

(** C9 as it is worded fails when the removal is refused:
    logout still returns success, the token file stays, and the next
    status check loads it and reports [authenticated=true]. *)
Lemma logout_leaves_file_when_removal_refused :
  fst (logout (test_env remove_refused resp_ok)
         (st_with (manager_with (Some tok_fresh) "")
                  (<[tokenPath := "BQ-stored,rt-1"%string]> no_files)))
    = Ok tt /\
  files (snd (logout (test_env remove_refused resp_ok)
                (st_with (manager_with (Some tok_fresh) "")
                         (<[tokenPath := "BQ-stored,rt-1"%string]> no_files))))
    !! tokenPath = Some "BQ-stored,rt-1"%string /\
  fst (status (test_env remove_refused resp_ok)
         (snd (logout (test_env remove_refused resp_ok)
                 (st_with (manager_with (Some tok_fresh) "")
                          (<[tokenPath := "BQ-stored,rt-1"%string]> no_files)))))
    = Ok {| Authenticated := true; status_DisplayName := "User One";
            UserID := "user-1"; AvatarURL := "https://i.scdn.co/image/1";
            status_ExpiresAt := 4102444800; status_Scope := spotifyScopes |}.
Proof. repeat split; vm_compute; reflexivity. Qed.

Example logout_then_status :
  fst (status (test_env no_fault resp_ok)
         (snd (logout (test_env no_fault resp_ok)
                 (st_with (manager_with (Some tok_fresh) "")
                          (<[tokenPath := "BQ-stored,rt-1"%string]> no_files)))))
  = Ok SpotifyAuthStatus_zero.
Proof. vm_compute. reflexivity. Qed.

Example logout_never_authenticated :
  logout (test_env no_fault resp_ok) (st_with manager_zero no_files)
  = (Ok tt, st_with manager_zero no_files).
Proof. vm_compute. reflexivity. Qed.

(** * Further properties *)

(** One step of a run of the state-passing code. *)
Ltac mrun :=
  repeat first
    [ progress cbn [fst snd tick emit ret get_mgr put_mgr get_files put_files
                    mgr files ticks trace]
    | rewrite bind_run ].

(** ** The worker pool, under every schedule *)

Section PoolMore.
Context {AlbumTrackMetadata : Type}.
Variable fetch : Z -> option (list AlbumTrackMetadata) * option error.
Implicit Types (p : pool AlbumTrackMetadata) (r : trackPageResult AlbumTrackMetadata)
  (w : worker AlbumTrackMetadata) (rs : list (trackPageResult AlbumTrackMetadata)).

Lemma weight_start (offsets : list Z) :
  weight (@start AlbumTrackMetadata offsets)
  = 3 + 3 * List.length offsets + Nat.min 8 (List.length offsets).
Proof.
  rewrite <- workerCount_min. unfold weight, start.
  cbn [feeder workers ctx_err feeder_weight].
  assert (H : forall n, list_sum (map worker_weight (repeat (@WIdle AlbumTrackMetadata) n)) = n).
  { induction n; simpl; auto. }
  rewrite H. lia.
Qed.

(** X1: [runTrackPageWorkers] terminates under every schedule: a run of
    the pool for [n] offsets, cancelled or not, takes at most
    [3 + 3 n + min 8 n] steps of its goroutines. *)
Theorem every_schedule_is_short (offsets : list Z) (acts : list action) p :
  exec fetch acts (start offsets) = Some p ->
  List.length acts <= 3 + 3 * List.length offsets + Nat.min 8 (List.length offsets).
Proof.
  intros Hex. apply exec_bounded in Hex. rewrite weight_start in Hex. lia.
Qed.

(** X2: the pool never deadlocks.  From every state a schedule can reach,
    some goroutine can take a step as long as [results] is not closed, and
    the run can be continued to the close of [results] without cancelling
    the context: the call returns. *)
Theorem no_schedule_gets_stuck (offsets : list Z) (acts : list action) p :
  offsets <> [] ->
  exec fetch acts (start offsets) = Some p ->
  (feeder p <> DClosed ->
   exists a p', is_cancel a = false /\ step fetch a p = Some p') /\
  (exists more p', exec fetch (acts ++ more) (start offsets) = Some p' /\
                   feeder p' = DClosed /\ ctx_err p' = ctx_err p).
Proof.
  intros Hne Hex.
  pose proof (Inv_exec fetch _ _ _ _ (Inv_start fetch offsets) Hex) as Hinv.
  split.
  - intros Hopen. eapply progress; eauto.
  - destruct (completes fetch offsets p Hne Hinv) as (more & p' & Hm & Hc & Hctx).
    exists more, p'. split; [| auto]. eapply exec_app; eauto.
Qed.

Lemma held_length (ws : list (worker AlbumTrackMetadata)) :
  List.length (flat_map held ws) <= List.length ws.
Proof.
  induction ws as [| w ws IH]; simpl; [lia |].
  rewrite length_app. destruct w; simpl; lia.
Qed.

(** X3: no offset is lost or fetched twice.  At every moment of every
    schedule the offsets still queued, those held by workers and those
    whose result has arrived are together the offsets given, at most
    [min 8 n] of them are in flight, and once [results] is closed one
    result has arrived for each offset. *)
Theorem every_offset_accounted (offsets : list Z) (acts : list action) p :
  exec fetch acts (start offsets) = Some p ->
  accounted p ≡ₚ offsets /\
  List.length (flat_map held (workers p)) <= Nat.min 8 (List.length offsets) /\
  List.length (arrived p) <= List.length offsets /\
  (feeder p = DClosed -> map offset (arrived p) ≡ₚ offsets).
Proof.
  intros Hex.
  pose proof (Inv_exec fetch _ _ _ _ (Inv_start fetch offsets) Hex) as Hinv.
  pose proof (inv_accounted _ _ _ Hinv) as Hacc.
  split; [exact Hacc |]. split; [| split].
  - rewrite <- workerCount_min, <- (inv_count _ _ _ Hinv). apply held_length.
  - apply Permutation_length in Hacc. unfold accounted in Hacc.
    rewrite !length_app, length_map in Hacc. lia.
  - intros Hc. eapply closed_accounts; eauto.
Qed.

Lemma step_cancelled (fetch' : Z -> option (list AlbumTrackMetadata) * option error)
    (e : error) a p p' :
  ctx_err p = Some e -> step fetch a p = Some p' ->
  ctx_err p' = Some e /\ step fetch' a p = Some p'.
Proof.
  intros Hc. destruct a; simpl; rewrite ?Hc; intros H;
    repeat match type of H with
           | match ?x with _ => _ end = _ => destruct x eqn:?; try discriminate
           end;
    inversion H; subst; simpl; auto.
Qed.

Lemma exec_cancelled (fetch' : Z -> option (list AlbumTrackMetadata) * option error)
    (e : error) acts p p' :
  ctx_err p = Some e -> exec fetch acts p = Some p' ->
  ctx_err p' = Some e /\ exec fetch' acts p = Some p'.
Proof.
  revert p. induction acts as [| a acts IH]; simpl; intros p Hc Hex.
  - inversion Hex; subst. auto.
  - destruct (step fetch a p) as [p1 |] eqn:Est; [| discriminate].
    destruct (step_cancelled fetch' e a p p1 Hc Est) as [Hc1 Est'].
    rewrite Est'. eapply IH; eauto.
Qed.

Lemma step_gave_up (e : error) a p p' :
  ctx_err p = Some e ->
  Forall (gave_up e) (arrived p) -> Forall (gave_up_worker e) (workers p) ->
  step fetch a p = Some p' ->
  Forall (gave_up e) (arrived p') /\ Forall (gave_up_worker e) (workers p').
Proof.
  intros Hc Ha Hw. destruct a; simpl; intros Hstep.
  - destruct (feeder p) as [[| o q] | |]; try discriminate.
    destruct (workers p !! i) as [[| | |] |] eqn:Ew; try discriminate.
    inversion Hstep; subst. simpl. split; [exact Ha |].
    eapply Forall_replace; eauto. exact I.
  - destruct (feeder p) as [[| o q] | |]; try discriminate.
    inversion Hstep; subst. simpl. auto.
  - destruct (workers p !! i) as [[| o | |] |] eqn:Ew; try discriminate.
    inversion Hstep; subst. simpl. split; [exact Ha |].
    eapply Forall_replace; eauto. simpl. rewrite Hc. split; reflexivity.
  - destruct (workers p !! i) as [[| | r |] |] eqn:Ew; try discriminate.
    inversion Hstep; subst. simpl.
    assert (Hr : gave_up e r).
    { eapply List.Forall_forall in Hw;
        [| eapply list_elem_of_In, list_elem_of_lookup_2; exact Ew]. exact Hw. }
    split.
    + apply Forall_app. split; [exact Ha |]. constructor; [exact Hr | constructor].
    + eapply Forall_replace; eauto. exact I.
  - destruct (feeder p) as [q | |]; try discriminate;
      destruct (workers p !! i) as [[| | |] |] eqn:Ew; try discriminate;
      inversion Hstep; subst; simpl; (split; [exact Ha |]);
      eapply Forall_replace; eauto; exact I.
  - destruct (feeder p) as [q | |]; try discriminate.
    destruct (forallb is_done (workers p)); try discriminate.
    inversion Hstep; subst. simpl. auto.
  - rewrite Hc in Hstep. discriminate.
Qed.

Lemma exec_gave_up (e : error) acts p p' :
  ctx_err p = Some e ->
  Forall (gave_up e) (arrived p) -> Forall (gave_up_worker e) (workers p) ->
  exec fetch acts p = Some p' ->
  Forall (gave_up e) (arrived p').
Proof.
  revert p. induction acts as [| a acts IH]; simpl; intros p Hc Ha Hw Hex.
  - inversion Hex; subst. exact Ha.
  - destruct (step fetch a p) as [p1 |] eqn:Est; [| discriminate].
    destruct (step_gave_up e a p p1 Hc Ha Hw Est) as [Ha1 Hw1].
    destruct (step_cancelled fetch e a p p1 Hc Est) as [Hc1 _].
    eapply IH; eauto.
Qed.

(** X4: a context cancelled before the first job is handed out makes
    the fetch function irrelevant: the run is the same for every fetch
    function, no page is collected, and the call returns the context's
    error wrapped with one of the offsets given. *)
Theorem cancelled_before_start (e : error) (offsets : list Z) (acts : list action) p :
  offsets <> [] ->
  exec fetch (ACancel e :: acts) (start offsets) = Some p ->
  feeder p = DClosed ->
  (forall fetch', exec fetch' (ACancel e :: acts) (start offsets) = Some p) /\
  collected p = [] /\
  exists o, In o offsets /\ finish p = (None, Some (ErrOffset o e)).
Proof.
  intros Hne Hex Hclosed.
  pose proof (Inv_exec fetch _ _ _ _ (Inv_start fetch offsets) Hex) as Hinv.
  simpl in Hex.
  set (p0 := with_ctx_err (Some e) (@start AlbumTrackMetadata offsets)) in *.
  assert (Hc0 : ctx_err p0 = Some e) by reflexivity.
  assert (Hgave : Forall (gave_up e) (arrived p)).
  { apply (exec_gave_up e acts p0 p Hc0); [constructor | | exact Hex].
    simpl. apply List.Forall_forall. intros w Hw. apply repeat_spec in Hw. subst. exact I. }
  split; [| split].
  - intros fetch'. simpl. fold p0. eapply exec_cancelled; eauto.
  - rewrite (inv_collected _ _ _ Hinv).
    clear -Hgave. induction Hgave as [| r l [Ht _] _ IH]; simpl; [reflexivity |].
    unfold has_tracks at 1. rewrite Ht. exact IH.
  - pose proof (closed_accounts fetch _ _ Hinv Hclosed) as Hperm.
    destruct (arrived p) as [| r0 l] eqn:Ea.
    { simpl in Hperm. apply Permutation_nil in Hperm. congruence. }
    inversion Hgave as [| ? ? [Ht He] _]; subst.
    exists (offset r0). split.
    + eapply Permutation_in; [exact Hperm | left; reflexivity].
    + unfold finish. rewrite (inv_firstErr _ _ _ Hinv), Ea. simpl. rewrite He. reflexivity.
Qed.

End PoolMore.

(** ** The session: tokens, callback and status *)

Section SessionFacts.
Variable env : Env.

Lemma same_session_refl m : same_session m m.
Proof. repeat split. Qed.

Lemma same_session_set_tokens t m : same_session m (set_tokens t m).
Proof. repeat split. Qed.

Lemma same_session_trans m1 m2 m3 :
  same_session m1 m2 -> same_session m2 m3 -> same_session m1 m3.
Proof.
  unfold same_session. intros (A1 & A2 & A3 & A4 & A5 & A6) (B1 & B2 & B3 & B4 & B5 & B6).
  repeat split; congruence.
Qed.

Lemma saveTokens_frame t s :
  exists evs,
    trace (snd (saveTokens env t s)) = trace s ++ evs /\
    forallb is_background evs = true /\
    mgr (snd (saveTokens env t s)) = set_tokens (Some t) (mgr s) /\
    ticks (snd (saveTokens env t s)) = ticks s /\
    disk_follows env s (snd (saveTokens env t s)) /\
    (fst (saveTokens env t s) = Ok tt ->
     exists path, spotifyTokenPath env = Ok path /\
       files (snd (saveTokens env t s)) = <[path := json_MarshalIndent env t]> (files s)) /\
    fst (saveTokens env t s) <> Err ErrPanic.
Proof.
  unfold saveTokens, bind_ok, modify_mgr, disk_follows. mrun.
  destruct (spotifyTokenPath env) as [path | e] eqn:Ep; mrun.
  2: { exists []. rewrite app_nil_r. repeat split; auto; try discriminate.
       unfold spotifyTokenPath in Ep. destruct (getSpotiDownloaderDir env); inversion Ep.
       discriminate. }
  unfold os_MkdirAll. destruct (fsFault env OpMkdirAll (filepath_Dir env path)); mrun.
  { exists []. rewrite app_nil_r. repeat split; auto; discriminate. }
  unfold os_WriteFile. destruct (fsFault env OpWriteFile path); mrun.
  { eexists. repeat split; auto; discriminate. }
  eexists. split; [rewrite <- app_assoc; reflexivity |].
  split; [reflexivity |]. split; [reflexivity |]. split; [reflexivity |].
  split; [right; exists path, t; auto |].
  split; [intros _; exists path; auto | discriminate].
Qed.

Lemma forallb_app_true {A} (f : A -> bool) l1 l2 :
  forallb f l1 = true -> forallb f l2 = true -> forallb f (l1 ++ l2) = true.
Proof. intros H1 H2. rewrite forallb_app, H1, H2. reflexivity. Qed.

Ltac frame_done :=
  repeat split; try (left; reflexivity); try discriminate; try congruence; auto.

Lemma disk_follows_refl s : disk_follows env s s.
Proof. left. reflexivity. Qed.

Lemma ensureFresh_frame s :
  exists evs,
    trace (snd (ensureFreshTokenLocked env s)) = trace s ++ evs /\
    forallb is_background evs = true /\
    same_session (mgr s) (mgr (snd (ensureFreshTokenLocked env s))) /\
    disk_follows env s (snd (ensureFreshTokenLocked env s)) /\
    (fst (ensureFreshTokenLocked env s) = Ok tt ->
     tokens (mgr (snd (ensureFreshTokenLocked env s))) <> None) /\
    fst (ensureFreshTokenLocked env s) <> Err ErrPanic.
Proof.
  unfold ensureFreshTokenLocked. mrun.
  destruct (tokens (mgr s)) as [t |] eqn:Et.
  2: { mrun. exists []. rewrite app_nil_r.
       frame_done. }
  mrun. destruct (_ <? _)%Z.
  { mrun. exists []. rewrite app_nil_r.
    frame_done. }
  destruct (negb (nonempty (RefreshToken t))).
  { mrun. exists []. rewrite app_nil_r.
    frame_done. }
  unfold bind_ok. rewrite bind_run. rewrite refreshAccessToken_run. cbv zeta.
  destruct (newTokenRequest env).
  { mrun. eexists. split; [reflexivity |].
    frame_done. }
  destruct (reply_of env ErrRefreshFailed _) as [r | e] eqn:Er.
  2: { mrun. eexists. split; [reflexivity |].
       repeat split; try (left; reflexivity); try discriminate.
       intros H. inversion H. subst e. unfold reply_of in Er.
       destruct (http_Do env _ _) as [resp |]; [| discriminate].
       destruct (negb _); [discriminate |].
       destruct (json_decodeTokenResp env (Body resp)); discriminate. }
  cbn [fst snd].
  match goal with |- context [saveTokens env ?t' ?s1] =>
    destruct (saveTokens_frame t' s1) as (evs & Htr & Hbg & Hm & Htk & Hdisk & Hok & Hnp) end.
  eexists.
  split; [rewrite Htr; unfold with_trace; cbn [trace]; rewrite <- app_assoc; reflexivity |].
  split; [apply forallb_app_true; [reflexivity | exact Hbg] |].
  split; [rewrite Hm; apply same_session_set_tokens |].
  split; [exact Hdisk |].
  split; [intros _; rewrite Hm; discriminate | exact Hnp].
Qed.

Lemma fetchProfile_frame s :
  exists evs,
    trace (snd (fetchProfileLocked env s)) = trace s ++ evs /\
    forallb is_background evs = true /\
    same_session (mgr s) (mgr (snd (fetchProfileLocked env s))) /\
    disk_follows env s (snd (fetchProfileLocked env s)) /\
    (is_ok (fst (fetchProfileLocked env s)) = true ->
     tokens (mgr (snd (fetchProfileLocked env s))) <> None) /\
    fst (fetchProfileLocked env s) <> Err ErrPanic.
Proof.
  unfold fetchProfileLocked. mrun.
  destruct (tokens (mgr s)) as [t |] eqn:Et.
  2: { mrun. exists []. rewrite app_nil_r.
       frame_done. }
  unfold bind_ok. rewrite bind_run.
  destruct (ensureFresh_frame s) as (evs & Htr & Hbg & Hm & Hdisk & Hok & Hnp).
  destruct (ensureFreshTokenLocked env s) as [[[] | e] s1]; cbn [fst snd] in *.
  2: { mrun. exists evs. repeat split; auto; try apply Hm; try discriminate; congruence. }
  mrun. destruct (tokens (mgr s1)) as [t1 |] eqn:Et1; [| exfalso; apply Hok; reflexivity].
  mrun. exists (evs ++ [EvGetJSON spotifyMeURL (AccessToken t1)]).
  split; [rewrite Htr, <- app_assoc; reflexivity |].
  split; [apply forallb_app_true; [exact Hbg | reflexivity] |].
  split; [exact Hm |].
  split; [destruct Hdisk as [H | H]; [left | right]; exact H |].
  split; [intros _; congruence |].
  destruct (getJSON_profile env _ _ _); discriminate.
Qed.

Lemma loadTokens_frame s :
  trace (snd (loadTokensFromDisk env s)) = trace s /\
  files (snd (loadTokensFromDisk env s)) = files s /\
  ticks (snd (loadTokensFromDisk env s)) = ticks s /\
  same_session (mgr s) (mgr (snd (loadTokensFromDisk env s))) /\
  (forall e, fst (loadTokensFromDisk env s) = Err e -> exists l, e = ErrLib l) /\
  (is_ok (fst (loadTokensFromDisk env s)) = false ->
   mgr (snd (loadTokensFromDisk env s)) = mgr s) /\
  (is_ok (fst (loadTokensFromDisk env s)) = true ->
   tokens (mgr (snd (loadTokensFromDisk env s))) <> None).
Proof.
  unfold loadTokensFromDisk, spotifyTokenPath, bind_ok, modify_mgr.
  destruct (getSpotiDownloaderDir env) as [dir | e0]; mrun.
  2: { repeat split; auto; try discriminate; intros e H; inversion H; eauto. }
  unfold os_ReadFile. destruct (fsFault env OpReadFile _) as [e0 |]; mrun.
  { repeat split; auto; try discriminate; intros e H; inversion H; eauto. }
  destruct (files s !! _) as [data |]; mrun.
  2: { repeat split; auto; try discriminate; intros e H; inversion H; eauto. }
  destruct (json_Unmarshal env data) as [t | e0]; mrun.
  - repeat split; auto; discriminate.
  - repeat split; auto; try discriminate; intros e H; inversion H; eauto.
Qed.

(** X5: the nil checks are enough.  [ensureFreshTokenLocked],
    [fetchProfileLocked] and [status] never dereference a nil token, in
    any state of the manager and the disk and whatever the network
    answers. *)
Theorem session_never_panics (s : St) :
  fst (ensureFreshTokenLocked env s) <> Err ErrPanic /\
  fst (fetchProfileLocked env s) <> Err ErrPanic /\
  fst (status env s) <> Err ErrPanic.
Proof.
  split; [| split].
  - destruct (ensureFresh_frame s) as (evs & _ & _ & _ & _ & _ & H). exact H.
  - destruct (fetchProfile_frame s) as (evs & _ & _ & _ & _ & _ & H). exact H.
  - unfold status. rewrite bind_run. cbn [get_mgr fst snd]. rewrite bind_run.
    match goal with |- context [fst (?c s)] =>
      match c with context [loadTokensFromDisk] => set (pre := c s) end end.
    assert (Hload : fst pre = Ok tt \/ exists l, fst pre = Err (ErrLib l)).
    { unfold pre. destruct (tokens (mgr s)); [left; reflexivity |].
      rewrite bind_run. destruct (loadTokens_frame s) as (_ & _ & _ & _ & He & _).
      destruct (loadTokensFromDisk env s) as [[[] | e] s1]; cbn [fst snd] in *;
        [left; reflexivity |].
      destruct (He e eq_refl) as [l ->]. destruct (negb _); [right; eauto | left; reflexivity]. }
    destruct pre as [loaded s1]. cbn [fst snd] in *.
    destruct Hload as [-> | [l ->]]; [| mrun; discriminate].
    mrun. destruct (tokens (mgr s1)) eqn:Et1; [| mrun; discriminate].
    unfold bind_ok. rewrite bind_run.
    destruct (ensureFresh_frame s1) as (evs & _ & _ & Hm & _ & Hok & Hnp).
    destruct (ensureFreshTokenLocked env s1) as [[[] | e] s2]; cbn [fst snd] in *;
      [| mrun; intros H; inversion H; subst; apply Hnp; reflexivity].
    mrun. specialize (Hok eq_refl).
    destruct (profile (mgr s2)) as [pr |] eqn:Epr.
    + mrun. rewrite Epr. destruct (tokens (mgr s2)); [discriminate | congruence].
    + rewrite !bind_run.
      destruct (fetchProfile_frame s2) as (evs' & _ & _ & Hm' & _ & Hok' & Hnp').
      destruct (fetchProfileLocked env s2) as [[pr | e] s3]; cbn [fst snd] in *;
        [| mrun; intros H; inversion H; subst; apply Hnp'; reflexivity].
      unfold modify_mgr. mrun. cbn [profile set_profile tokens].
      specialize (Hok' eq_refl). destruct (tokens (mgr s3)); [discriminate | congruence].
Qed.

(** X6: with a token that has more than 30 seconds left and a profile
    in memory, [status] answers from memory: it reads the clock once,
    makes no request, touches neither the disk nor the manager, and
    reports the cached profile, the first image as avatar. *)
Theorem status_from_cache (s : St) (t : spotifyTokenStore) (p : spotifyUserProfile) :
  tokens (mgr s) = Some t -> profile (mgr s) = Some p ->
  (wrap64 (Unix (time_Now env (ticks s)) + 30) < ExpiresAt t)%Z ->
  status env s =
  (Ok {| Authenticated := true;
         status_DisplayName := DisplayName p;
         UserID := ID p;
         AvatarURL := match Images p with url :: _ => url | [] => ""%string end;
         status_ExpiresAt := ExpiresAt t;
         status_Scope := Scope t |},
   {| mgr := mgr s; files := files s; ticks := S (ticks s); trace := trace s |}).
Proof.
  intros Ht Hp Hfresh. unfold status. mrun. rewrite Ht. mrun. rewrite Ht.
  unfold bind_ok, ensureFreshTokenLocked. mrun. rewrite Ht. mrun.
  apply Z.ltb_lt in Hfresh. rewrite Hfresh. mrun. rewrite Hp. mrun. rewrite Hp, Ht.
  reflexivity.
Qed.

(** X7: the login channel keeps the first outcome.  [pushLoginError]
    fills the slot only when it is empty; a second push changes nothing,
    and a push on a nil channel or a full one is dropped. *)
Theorem pushLoginError_first_wins (e1 e2 : option error) (s : St) :
  pushLoginError e2 (snd (pushLoginError e1 s)) = (tt, snd (pushLoginError e1 s)) /\
  (loginWait (mgr s) = ChanEmpty ->
   loginWait (mgr (snd (pushLoginError e1 s))) = ChanFull e1) /\
  (loginWait (mgr s) <> ChanEmpty ->
   loginWait (mgr (snd (pushLoginError e1 s))) = loginWait (mgr s)).
Proof.
  unfold pushLoginError, modify_mgr. mrun.
  destruct (loginWait (mgr s)) eqn:E; cbn [loginWait set_loginWait]; rewrite ?E;
    repeat split; congruence.
Qed.

(** X8: a refresh that fails leaves the session as it was.  When the
    token is due and the refresh call fails, [ensureFreshTokenLocked]
    returns that error after one refresh call, with the stored token, the
    rest of the manager and the disk untouched. *)
Theorem failed_refresh_keeps_token (s : St) (t : spotifyTokenStore) (e : error) :
  tokens (mgr s) = Some t ->
  (ExpiresAt t <= wrap64 (Unix (time_Now env (ticks s)) + 30))%Z ->
  RefreshToken t <> ""%string ->
  fst (refreshAccessToken env (RefreshToken t) (snd (tick s))) = Err e ->
  fst (ensureFreshTokenLocked env s) = Err e /\
  mgr (snd (ensureFreshTokenLocked env s)) = mgr s /\
  files (snd (ensureFreshTokenLocked env s)) = files s /\
  refresh_calls (trace (snd (ensureFreshTokenLocked env s)))
    = S (refresh_calls (trace s)).
Proof.
  intros Ht Hstale Hrt Hfail. unfold ensureFreshTokenLocked. mrun. rewrite Ht. mrun.
  apply Z.ltb_ge in Hstale. rewrite Hstale.
  apply nonempty_true in Hrt. rewrite Hrt. cbn [negb].
  unfold bind_ok. rewrite bind_run. cbn [tick snd] in Hfail. rewrite Hfail.
  rewrite refreshAccessToken_run in *. cbv zeta in *.
  destruct (newTokenRequest env).
  - cbn [fst snd ret with_trace mgr files trace].
    repeat split. rewrite refresh_calls_app. cbn. lia.
  - destruct (reply_of env ErrRefreshFailed _); [discriminate |].
    cbn [fst snd ret with_trace mgr files trace].
    repeat split. rewrite refresh_calls_app. cbn. lia.
Qed.

(** X9: a freshness check touches nothing but the token.  Whatever it
    returns, [ensureFreshTokenLocked] leaves profile, verifier, state,
    redirect, server and login channel alone; the disk is as before or
    has the token now in memory written to the token file; on success a
    token is held; no code exchange is made and no response written. *)
Theorem freshness_check_frame (s : St) :
  same_session (mgr s) (mgr (snd (ensureFreshTokenLocked env s))) /\
  disk_follows env s (snd (ensureFreshTokenLocked env s)) /\
  (fst (ensureFreshTokenLocked env s) = Ok tt ->
   tokens (mgr (snd (ensureFreshTokenLocked env s))) <> None) /\
  exchange_calls (trace (snd (ensureFreshTokenLocked env s))) = exchange_calls (trace s) /\
  responses (trace (snd (ensureFreshTokenLocked env s))) = responses (trace s).
Proof.
  destruct (ensureFresh_frame s) as (evs & Htr & Hbg & Hm & Hd & Hok & _).
  split; [exact Hm |]. split; [exact Hd |]. split; [exact Hok |].
  rewrite Htr. clear -Hbg. unfold exchange_calls, responses.
  rewrite !List.filter_app, !length_app.
  assert (H : List.filter is_exchange evs = [] /\ List.filter is_response evs = []).
  { induction evs as [| x l IH]; [auto |]. simpl in Hbg.
    apply andb_true_iff in Hbg as [Hx Hl]. destruct (IH Hl) as [I1 I2].
    destruct x; simpl in *; try discriminate; auto. }
  destruct H as [-> ->]. simpl. lia.
Qed.

Lemma saveTokens_in_step t s :
  fst (saveTokens env t s) = Ok tt -> in_step env (snd (saveTokens env t s)).
Proof.
  intros Hok. destruct (saveTokens_frame t s) as (evs & _ & _ & Hm & _ & _ & Hw & _).
  destruct (Hw Hok) as (path & Hp & Hf). exists path, t.
  split; [exact Hp |]. split; [rewrite Hm; reflexivity |].
  rewrite Hf. apply lookup_insert_eq.
Qed.

Lemma ensureFresh_in_step s :
  fst (ensureFreshTokenLocked env s) = Ok tt -> in_step env s ->
  in_step env (snd (ensureFreshTokenLocked env s)).
Proof.
  unfold ensureFreshTokenLocked. mrun.
  destruct (tokens (mgr s)) as [t |] eqn:Et; [| mrun; discriminate].
  mrun. destruct (_ <? _)%Z.
  { mrun. intros _ (path & t' & Hp & Ht & Hf). exists path, t'. auto. }
  destruct (negb (nonempty (RefreshToken t))); [mrun; discriminate |].
  unfold bind_ok. rewrite bind_run.
  destruct (refreshAccessToken env _ _) as [[t' | e] s1]; cbn [fst snd];
    [| mrun; discriminate].
  intros Hok _. apply saveTokens_in_step. exact Hok.
Qed.

Lemma fetchProfile_in_step s :
  is_ok (fst (fetchProfileLocked env s)) = true -> in_step env s ->
  in_step env (snd (fetchProfileLocked env s)).
Proof.
  unfold fetchProfileLocked. mrun.
  destruct (tokens (mgr s)) as [t |] eqn:Et; [| mrun; discriminate].
  unfold bind_ok. rewrite bind_run.
  pose proof (ensureFresh_in_step s) as Hstep.
  destruct (ensureFreshTokenLocked env s) as [[[] | e] s1]; cbn [fst snd] in *;
    [| mrun; discriminate].
  mrun. intros Hok Hin. specialize (Hstep eq_refl Hin).
  destruct (tokens (mgr s1)) eqn:Et1; mrun; [| discriminate].
  destruct Hstep as (path & t' & Hp & Ht & Hf). exists path, t'. cbn. auto.
Qed.

Lemma counts_app evs1 evs2 :
  responses (evs1 ++ evs2) = responses evs1 + responses evs2 /\
  exchange_calls (evs1 ++ evs2) = exchange_calls evs1 + exchange_calls evs2.
Proof.
  unfold responses, exchange_calls. rewrite !List.filter_app, !length_app. auto.
Qed.

Lemma background_counts evs :
  forallb is_background evs = true -> responses evs = 0 /\ exchange_calls evs = 0.
Proof.
  unfold responses, exchange_calls.
  induction evs as [| x l IH]; [auto |]. simpl. intros H.
  apply andb_true_iff in H as [Hx Hl]. destruct (IH Hl) as [I1 I2].
  destruct x; simpl in *; try discriminate; auto.
Qed.

Lemma same_login_of_session m m' : same_session m m' -> same_login m m'.
Proof. unfold same_session, same_login. intuition. Qed.

Lemma same_login_trans m1 m2 m3 :
  same_login m1 m2 -> same_login m2 m3 -> same_login m1 m3.
Proof.
  unfold same_login. intros (A1 & A2 & A3 & A4 & A5) (B1 & B2 & B3 & B4 & B5).
  repeat split; congruence.
Qed.

Lemma answer_run e v s :
  trace (snd (answer e v s)) = trace s ++ [e] /\
  files (snd (answer e v s)) = files s /\
  pushed v (mgr s) (mgr (snd (answer e v s))).
Proof.
  unfold answer, pushLoginError, modify_mgr, pushed. mrun.
  destruct (loginWait (mgr s)) eqn:E; cbn; rewrite ?E; repeat split.
Qed.

Lemma callback_rejected_run r s :
  accepted r s = false ->
  handleCallback_body env r s =
  if negb (nonempty (query_state r)) || negb (nonempty (query_code r))
  then answer (EvHttpError "Invalid response from Spotify" 400)
              (Some ErrMissingStateOrCode) s
  else answer (EvHttpError "State mismatch" 400) (Some ErrStateMismatch) s.
Proof.
  unfold accepted, handleCallback_body, answer. intros H.
  destruct (nonempty (query_state r)), (nonempty (query_code r)); cbn [negb orb andb] in *;
    try reflexivity.
  rewrite bind_run. cbn [get_mgr fst snd]. rewrite H. reflexivity.
Qed.

Lemma callback_accepted_run r s :
  accepted r s = true ->
  handleCallback_body env r s =
  let ex := exchangeCodeForToken env (query_code r) (redirect (mgr s)) (verifier (mgr s)) s in
  match fst ex with
  | Err e => answer (EvHttpError "Failed to exchange code" 500) (Some e) (snd ex)
  | Ok t =>
      let sv := saveTokens env t (snd ex) in
      match fst sv with
      | Err e => answer (EvHttpError "Failed to persist token" 500) (Some e) (snd sv)
      | Ok _ =>
          let pf := fetchProfileLocked env (snd sv) in
          match fst pf with
          | Err e => answer (EvHttpError "Failed to fetch profile" 500) (Some e) (snd pf)
          | Ok p =>
              answer success_page None
                (with_mgr (set_profile (Some p) (mgr (snd pf))) (snd pf))
          end
      end
  end.
Proof.
  unfold accepted, handleCallback_body, answer. intros H.
  apply andb_true_iff in H as [H H3]. apply andb_true_iff in H as [H1 H2].
  rewrite H1, H2. cbn [negb orb]. rewrite bind_run. cbn [get_mgr fst snd].
  rewrite H3. cbn [negb]. rewrite bind_run. cbv zeta.
  destruct (fst (exchangeCodeForToken env _ _ _ s)); [| reflexivity].
  rewrite bind_run. destruct (fst (saveTokens env a _)); [| reflexivity].
  rewrite bind_run. destruct (fst (fetchProfileLocked env _)); [| reflexivity].
  unfold modify_mgr. rewrite !bind_run. reflexivity.
Qed.

Lemma closeServer_run s :
  exists evs,
    trace (snd (closeServer s)) = trace s ++ evs /\
    responses evs = 0 /\ exchange_calls evs = 0 /\
    files (snd (closeServer s)) = files s /\
    mgr (snd (closeServer s)) = set_server None (mgr s).
Proof.
  unfold closeServer, modify_mgr. mrun.
  destruct (server (mgr s)) as [port |]; mrun.
  - exists [EvServerClose port]. repeat split.
  - exists []. rewrite app_nil_r. repeat split.
Qed.

Lemma exchange_frame code redirectURI verifier' s :
  exists evs,
    trace (snd (exchangeCodeForToken env code redirectURI verifier' s)) = trace s ++ evs /\
    responses evs = 0 /\ exchange_calls evs = 1 /\
    mgr (snd (exchangeCodeForToken env code redirectURI verifier' s)) = mgr s /\
    files (snd (exchangeCodeForToken env code redirectURI verifier' s)) = files s.
Proof.
  rewrite exchangeCodeForToken_run. cbv zeta.
  destruct (newTokenRequest env); [eexists; repeat split; reflexivity |].
  destruct (reply_of env ErrTokenExchangeFailed _); eexists; repeat split; reflexivity.
Qed.

(** X10: every callback is answered exactly once, exchanges the code
    at most once (exactly once when the request passes the state and code
    tests), ends with the callback server torn down and the verifier and
    state kept, and reports one outcome to a waiting login: a free slot of
    the login channel is filled, a nil or a full one is left alone. *)
Theorem callback_answered_once (r : callbackRequest) (s : St) :
  exists evs,
    trace (snd (handleCallback env r s)) = trace s ++ evs /\
    responses evs = 1 /\
    exchange_calls evs = (if accepted r s then 1 else 0) /\
    server (mgr (snd (handleCallback env r s))) = None /\
    verifier (mgr (snd (handleCallback env r s))) = verifier (mgr s) /\
    state (mgr (snd (handleCallback env r s))) = state (mgr s) /\
    (loginWait (mgr s) = ChanEmpty ->
     exists v, loginWait (mgr (snd (handleCallback env r s))) = ChanFull v) /\
    (loginWait (mgr s) <> ChanEmpty ->
     loginWait (mgr (snd (handleCallback env r s))) = loginWait (mgr s)).
Proof.
  unfold handleCallback. rewrite bind_run.
  assert (Hbody : exists evs v s2,
    trace s2 = trace s ++ evs /\ responses evs = 0 /\
    exchange_calls evs = (if accepted r s then 1 else 0) /\
    same_login (mgr s) (mgr s2) /\
    exists e, is_response e = true /\ is_exchange e = false /\
              snd (handleCallback_body env r s) = snd (answer e v s2)).
  { destruct (accepted r s) eqn:Hacc.
    - rewrite (callback_accepted_run r s Hacc). cbv zeta.
      destruct (exchange_frame (query_code r) (redirect (mgr s)) (verifier (mgr s)) s)
        as (evs1 & T1 & R1 & X1 & M1 & _).
      destruct (exchangeCodeForToken env _ _ _ s) as [[t | e] s1]; cbn [fst snd] in *.
      2: { exists evs1, (Some e), s1.
           split; [exact T1 |]. split; [exact R1 |]. split; [exact X1 |].
           split; [rewrite M1; repeat split |].
           exists (EvHttpError "Failed to exchange code" 500). repeat split. }
      destruct (saveTokens_frame t s1) as (evs2 & T2 & B2 & M2 & _).
      destruct (background_counts _ B2) as [R2 X2].
      destruct (counts_app evs1 evs2) as [RA XA].
      assert (L2 : same_login (mgr s) (mgr (snd (saveTokens env t s1)))).
      { rewrite M2, M1. repeat split. }
      destruct (saveTokens env t s1) as [[[] | e] s2]; cbn [fst snd] in *.
      2: { exists (evs1 ++ evs2), (Some e), s2.
           split; [rewrite T2, T1, <- app_assoc; reflexivity |].
           split; [lia |]. split; [lia |]. split; [exact L2 |].
           exists (EvHttpError "Failed to persist token" 500). repeat split. }
      destruct (fetchProfile_frame s2) as (evs3 & T3 & B3 & M3 & _).
      destruct (background_counts _ B3) as [R3 X3].
      destruct (counts_app (evs1 ++ evs2) evs3) as [RB XB].
      assert (L3 : same_login (mgr s) (mgr (snd (fetchProfileLocked env s2)))).
      { eapply same_login_trans; [exact L2 |]. apply same_login_of_session. exact M3. }
      destruct (fetchProfileLocked env s2) as [[p | e] s3]; cbn [fst snd] in *.
      + exists ((evs1 ++ evs2) ++ evs3), None, (with_mgr (set_profile (Some p) (mgr s3)) s3).
        split; [cbn; rewrite T3, T2, T1, <- !app_assoc; reflexivity |].
        split; [lia |]. split; [lia |]. split; [exact L3 |].
        exists success_page. repeat split.
      + exists ((evs1 ++ evs2) ++ evs3), (Some e), s3.
        split; [rewrite T3, T2, T1, <- !app_assoc; reflexivity |].
        split; [lia |]. split; [lia |]. split; [exact L3 |].
        exists (EvHttpError "Failed to fetch profile" 500). repeat split.
    - rewrite (callback_rejected_run r s Hacc).
      destruct (negb _ || negb _);
        [ exists [], (Some ErrMissingStateOrCode), s
        | exists [], (Some ErrStateMismatch), s ];
        rewrite app_nil_r;
        (split; [reflexivity |]); (split; [reflexivity |]); (split; [reflexivity |]);
        (split; [repeat split |]);
        [ exists (EvHttpError "Invalid response from Spotify" 400)
        | exists (EvHttpError "State mismatch" 400) ]; repeat split. }
  destruct Hbody as (evs & v & s2 & T2 & R2 & X2 & (L1 & L2 & L3 & L4 & L5) & e & He & Hx & Hb).
  rewrite Hb. destruct (answer_run e v s2) as (Ta & _ & (P1 & P2 & P3 & P4 & P5 & P6 & P7)).
  destruct (closeServer_run (snd (answer e v s2))) as (evc & Tc & Rc & Xc & _ & Mc).
  exists (evs ++ [e] ++ evc).
  split; [rewrite Tc, Ta, T2, <- !app_assoc; reflexivity |].
  destruct (counts_app evs ([e] ++ evc)) as [RA XA].
  destruct (counts_app [e] evc) as [RB XB].
  assert (R1 : responses [e] = 1) by (unfold responses; simpl; rewrite He; reflexivity).
  assert (X1 : exchange_calls [e] = 0) by (unfold exchange_calls; simpl; rewrite Hx; reflexivity).
  split; [lia |]. split; [lia |].
  rewrite Mc. cbn [server verifier state loginWait set_server].
  split; [reflexivity |]. split; [congruence |]. split; [congruence |].
  rewrite P7, L5. split.
  - intros E. rewrite E. eauto.
  - intros E. destruct (loginWait (mgr s)); congruence.
Qed.

Lemma saveTokens_failed t s :
  is_ok (fst (saveTokens env t s)) = false -> files (snd (saveTokens env t s)) = files s.
Proof.
  unfold saveTokens, bind_ok, modify_mgr. mrun.
  destruct (spotifyTokenPath env) as [path | e]; mrun; [| reflexivity].
  unfold os_MkdirAll. destruct (fsFault env OpMkdirAll _); mrun; [reflexivity |].
  unfold os_WriteFile. destruct (fsFault env OpWriteFile path); mrun; [reflexivity |].
  discriminate.
Qed.

Lemma one_response evs a b :
  responses evs = 1 -> In a evs -> In b evs ->
  is_response a = true -> is_response b = true -> a = b.
Proof.
  unfold responses. induction evs as [| x l IH]; simpl; [intros _ [] |].
  intros Hn Ha Hb Hra Hrb.
  assert (Hnone : forall c, List.length (List.filter is_response l) = 0 -> In c l ->
                            is_response c = true -> False).
  { intros c H0 Hc Hrc. apply length_zero_iff_nil in H0.
    assert (Hin : In c (List.filter is_response l)) by (apply filter_In; auto).
    rewrite H0 in Hin. destruct Hin. }
  destruct (is_response x) eqn:Ex; simpl in Hn.
  - assert (H0 : List.length (List.filter is_response l) = 0) by lia.
    destruct Ha as [-> | Ha]; [| exfalso; eauto].
    destruct Hb as [-> | Hb]; [reflexivity | exfalso; eauto].
  - destruct Ha as [-> | Ha]; [congruence |].
    destruct Hb as [-> | Hb]; [congruence |]. eauto.
Qed.

Lemma callback_cases r s :
  exists evs e,
    trace (snd (handleCallback env r s)) = trace s ++ evs /\
    responses evs = 1 /\ In e evs /\ is_response e = true /\
    callback_outcome env r s (snd (handleCallback env r s)) e.
Proof.
  unfold handleCallback. rewrite bind_run.
  assert (Hbody : exists evs v s2 e,
    trace s2 = trace s ++ evs /\ responses evs = 0 /\ is_response e = true /\
    snd (handleCallback_body env r s) = snd (answer e v s2) /\
    forall s', trace s' = trace s2 ++ [e] -> files s' = files s2 ->
               pushed v (mgr s2) (mgr s') ->
               forall s'', files s'' = files s' -> mgr s'' = set_server None (mgr s') ->
               callback_outcome env r s s'' e).
  { destruct (accepted r s) eqn:Hacc.
    - rewrite (callback_accepted_run r s Hacc). cbv zeta.
      destruct (exchange_frame (query_code r) (redirect (mgr s)) (verifier (mgr s)) s)
        as (evs1 & T1 & R1 & X1 & M1 & F1).
      destruct (exchangeCodeForToken env _ _ _ s) as [[t | e] s1] eqn:Eex; cbn [fst snd] in *.
      2: { exists evs1, (Some e), s1, (EvHttpError "Failed to exchange code" 500).
           split; [exact T1 |]. split; [exact R1 |]. split; [reflexivity |].
           split; [reflexivity |].
           intros s' _ Hf (P1 & P2 & P3 & P4 & P5 & P6 & P7) s'' Hf' Hm'.
           rewrite M1 in *.
           apply (ExchangeFailed env r s s'' e);
             [ exact Hacc | rewrite Eex; reflexivity | .. ];
             rewrite ?Hm'; cbn [tokens profile loginWait set_server]; congruence. }
      destruct (saveTokens_frame t s1) as (evs2 & T2 & B2 & M2 & _).
      destruct (background_counts _ B2) as [R2 X2].
      destruct (counts_app evs1 evs2) as [RA XA].
      pose proof (saveTokens_failed t s1) as Hfail.
      pose proof (saveTokens_in_step t s1) as Hstep.
      destruct (saveTokens env t s1) as [[[] | e] s2]; cbn [fst snd] in *.
      2: { exists (evs1 ++ evs2), (Some e), s2, (EvHttpError "Failed to persist token" 500).
           split; [rewrite T2, T1, <- app_assoc; reflexivity |].
           split; [lia |]. split; [reflexivity |]. split; [reflexivity |].
           intros s' _ Hf (P1 & P2 & P3 & P4 & P5 & P6 & P7) s'' Hf' Hm'.
           specialize (Hfail eq_refl).
           apply (PersistFailed env r s s'' t e);
             [ exact Hacc | rewrite Eex; reflexivity | .. ];
             rewrite ?Hm'; cbn [tokens profile loginWait set_server].
           - rewrite P5, M2. reflexivity.
           - rewrite P6, M2, M1. reflexivity.
           - congruence.
           - rewrite P7, M2, M1. reflexivity. }
      destruct (fetchProfile_frame s2) as (evs3 & T3 & B3 & M3 & _).
      destruct (background_counts _ B3) as [R3 X3].
      destruct (counts_app (evs1 ++ evs2) evs3) as [RB XB].
      pose proof (fetchProfile_in_step s2) as Hstep3.
      destruct M3 as (Q1 & Q2 & Q3 & Q4 & Q5 & Q6).
      destruct (fetchProfileLocked env s2) as [[p | e] s3]; cbn [fst snd] in *.
      + exists ((evs1 ++ evs2) ++ evs3), None,
          (with_mgr (set_profile (Some p) (mgr s3)) s3), success_page.
        split; [cbn; rewrite T3, T2, T1, <- !app_assoc; reflexivity |].
        split; [lia |]. split; [reflexivity |]. split; [reflexivity |].
        intros s' _ Hf (P1 & P2 & P3 & P4 & P5 & P6 & P7) s'' Hf' Hm'.
        destruct (Hstep3 eq_refl (Hstep eq_refl)) as (path & t' & Hp & Ht' & Hfl).
        apply (LoggedIn env r s s'' p); [exact Hacc | ..];
          rewrite ?Hm'; cbn [tokens profile loginWait set_server].
        * exists path, t'. rewrite Hm', Hf', Hf.
          cbn [tokens set_server with_mgr files mgr]. rewrite P5.
          cbn [tokens set_profile with_mgr mgr]. auto.
        * rewrite P6. reflexivity.
        * rewrite P7. cbn [loginWait set_profile with_mgr mgr]. rewrite Q6, M2, M1. reflexivity.
      + exists ((evs1 ++ evs2) ++ evs3), (Some e), s3,
          (EvHttpError "Failed to fetch profile" 500).
        split; [rewrite T3, T2, T1, <- !app_assoc; reflexivity |].
        split; [lia |]. split; [reflexivity |]. split; [reflexivity |].
        intros s' _ Hf (P1 & P2 & P3 & P4 & P5 & P6 & P7) s'' Hf' Hm'.
        apply (ProfileFailed env r s s'' e); [exact Hacc | ..];
          rewrite ?Hm'; cbn [tokens profile loginWait set_server].
        * rewrite P6, Q1, M2, M1. reflexivity.
        * rewrite P7, Q6, M2, M1. reflexivity.
    - rewrite (callback_rejected_run r s Hacc).
      destruct (negb _ || negb _);
        [ exists [], (Some ErrMissingStateOrCode), s,
            (EvHttpError "Invalid response from Spotify" 400)
        | exists [], (Some ErrStateMismatch), s, (EvHttpError "State mismatch" 400) ];
        rewrite app_nil_r;
        (split; [reflexivity |]); (split; [reflexivity |]); (split; [reflexivity |]);
        (split; [reflexivity |]);
        intros s' _ Hf (P1 & P2 & P3 & P4 & P5 & P6 & P7) s'' Hf' Hm';
        apply Rejected; [exact Hacc | ..];
        rewrite ?Hm'; cbn [tokens profile loginWait set_server]; congruence. }
  destruct Hbody as (evs & v & s2 & e & T2 & R2 & He & Hb & Hout).
  rewrite Hb. destruct (answer_run e v s2) as (Ta & Fa & Pa).
  destruct (closeServer_run (snd (answer e v s2))) as (evc & Tc & Rc & Xc & Fc & Mc).
  exists (evs ++ [e] ++ evc), e.
  split; [rewrite Tc, Ta, T2, <- !app_assoc; reflexivity |].
  destruct (counts_app evs ([e] ++ evc)) as [RA _].
  destruct (counts_app [e] evc) as [RB _].
  assert (R1 : responses [e] = 1) by (unfold responses; simpl; rewrite He; reflexivity).
  split; [lia |].
  split; [apply in_or_app; right; left; reflexivity |].
  split; [exact He |].
  eapply Hout; eauto.
Qed.

Lemma callback_outcome_of r s evs e :
  trace (snd (handleCallback env r s)) = trace s ++ evs ->
  In e evs -> is_response e = true ->
  callback_outcome env r s (snd (handleCallback env r s)) e.
Proof.
  intros Htr Hin Hresp.
  destruct (callback_cases r s) as (evs0 & e0 & T0 & R0 & I0 & Re0 & Hout).
  rewrite T0 in Htr. apply app_inv_head in Htr. subst evs0.
  rewrite (one_response evs e e0 R0 Hin I0 Hresp Re0). exact Hout.
Qed.

(** X11: the success page is sent only when the login is complete: the
    request was accepted, the token in memory is the one in the token
    file, a profile is held, and a waiting login is told of the success. *)
Theorem success_page_means_logged_in (r : callbackRequest) (s : St) (evs : list event) :
  trace (snd (handleCallback env r s)) = trace s ++ evs ->
  In success_page evs ->
  accepted r s = true /\
  in_step env (snd (handleCallback env r s)) /\
  (exists p, profile (mgr (snd (handleCallback env r s))) = Some p) /\
  loginWait (mgr (snd (handleCallback env r s)))
  = match loginWait (mgr s) with ChanEmpty => ChanFull None | c => c end.
Proof.
  intros Htr Hin.
  pose proof (callback_outcome_of r s evs success_page Htr Hin eq_refl) as Hout.
  inversion Hout; subst. eauto.
Qed.

(** X12: a callback answered with [Failed to exchange code] has changed
    neither token, profile nor disk, and hands the exchange's own error
    to a waiting login. *)
Theorem failed_exchange_changes_nothing (r : callbackRequest) (s : St) (evs : list event) :
  trace (snd (handleCallback env r s)) = trace s ++ evs ->
  In (EvHttpError "Failed to exchange code" 500) evs ->
  tokens (mgr (snd (handleCallback env r s))) = tokens (mgr s) /\
  profile (mgr (snd (handleCallback env r s))) = profile (mgr s) /\
  files (snd (handleCallback env r s)) = files s /\
  exists e,
    fst (exchangeCodeForToken env (query_code r) (redirect (mgr s)) (verifier (mgr s)) s)
      = Err e /\
    loginWait (mgr (snd (handleCallback env r s)))
    = match loginWait (mgr s) with ChanEmpty => ChanFull (Some e) | c => c end.
Proof.
  intros Htr Hin.
  pose proof (callback_outcome_of r s evs _ Htr Hin eq_refl) as Hout.
  inversion Hout; subst. repeat split; auto. eauto.
Qed.

(** X13: a callback answered with [Failed to persist token] holds the
    exchanged token in memory although the disk is unchanged:
    [saveTokens] sets [m.tokens] before it writes. *)
Theorem unwritten_token_stays_in_memory (r : callbackRequest) (s : St) (evs : list event) :
  trace (snd (handleCallback env r s)) = trace s ++ evs ->
  In (EvHttpError "Failed to persist token" 500) evs ->
  exists t,
    fst (exchangeCodeForToken env (query_code r) (redirect (mgr s)) (verifier (mgr s)) s)
      = Ok t /\
    tokens (mgr (snd (handleCallback env r s))) = Some t /\
    files (snd (handleCallback env r s)) = files s /\
    profile (mgr (snd (handleCallback env r s))) = profile (mgr s).
Proof.
  intros Htr Hin.
  pose proof (callback_outcome_of r s evs _ Htr Hin eq_refl) as Hout.
  inversion Hout; subst. eauto.
Qed.

Lemma status_cases s :
  (fst (status env s) = Ok SpotifyAuthStatus_zero /\
   tokens (mgr s) = None /\ tokens (mgr (snd (status env s))) = None /\
   trace (snd (status env s)) = trace s /\ files (snd (status env s)) = files s) \/
  (exists e, fst (status env s) = Err e) \/
  (exists t p,
     fst (status env s) =
       Ok {| Authenticated := true;
             status_DisplayName := DisplayName p;
             UserID := ID p;
             AvatarURL := match Images p with url :: _ => url | [] => ""%string end;
             status_ExpiresAt := ExpiresAt t;
             status_Scope := Scope t |} /\
     tokens (mgr (snd (status env s))) = Some t /\
     profile (mgr (snd (status env s))) = Some p /\
     (in_step env s -> in_step env (snd (status env s)))).
Proof.
  unfold status. rewrite bind_run. cbn [get_mgr fst snd]. rewrite bind_run.
  match goal with |- context [fst (?c s)] =>
    match c with context [loadTokensFromDisk] => set (pre := c s) end end.
  assert (Hpre : (exists e, fst pre = Err e) \/
                 (fst pre = Ok tt /\ trace (snd pre) = trace s /\ files (snd pre) = files s /\
                  (tokens (mgr s) <> None -> snd pre = s) /\
                  (tokens (mgr (snd pre)) = None -> tokens (mgr s) = None))).
  { unfold pre. destruct (tokens (mgr s)) eqn:Et.
    - right. cbn. repeat split; auto; try discriminate; try congruence.
    - rewrite bind_run.
      destruct (loadTokens_frame s) as (T & F & _ & _ & _ & Hfail & Hok).
      destruct (loadTokensFromDisk env s) as [[[] | e] s1]; cbn [fst snd] in *.
      + right. cbn. repeat split; auto; congruence.
      + destruct (negb (is_not_exist e)); [left; eexists; reflexivity |].
        right. cbn. repeat split; auto; congruence. }
  destruct pre as [loaded s1]. cbn [fst snd] in *.
  destruct Hpre as [[e ->] | (-> & T1 & F1 & Hsame & Hnone)].
  { right. left. mrun. eauto. }
  mrun. destruct (tokens (mgr s1)) as [t1 |] eqn:Et1.
  2: { left. mrun. repeat split; auto. }
  unfold bind_ok. rewrite bind_run.
  pose proof (ensureFresh_in_step s1) as Hstep.
  destruct (ensureFresh_frame s1) as (evs & _ & _ & (Q1 & _) & _ & Hok & _).
  destruct (ensureFreshTokenLocked env s1) as [[[] | e] s2]; cbn [fst snd] in *.
  2: { right. left. mrun. eauto. }
  specialize (Hok eq_refl). specialize (Hstep eq_refl).
  right. mrun. destruct (profile (mgr s2)) as [pr |] eqn:Epr.
  - mrun. rewrite Epr. destruct (tokens (mgr s2)) as [t2 |] eqn:Et2; [| congruence].
    right. exists t2, pr. repeat split; auto.
    intros Hin. apply Hstep. rewrite Hsame; [exact Hin |].
    destruct Hin as (? & ? & _ & Ht & _). congruence.
  - rewrite !bind_run.
    pose proof (fetchProfile_in_step s2) as Hstep'.
    destruct (fetchProfile_frame s2) as (evs' & _ & _ & _ & _ & Hok' & _).
    destruct (fetchProfileLocked env s2) as [[pr | e] s3]; cbn [fst snd] in *.
    2: { left. mrun. eauto. }
    unfold modify_mgr. mrun. cbn [profile set_profile tokens].
    specialize (Hok' eq_refl).
    destruct (tokens (mgr s3)) as [t3 |] eqn:Et3; [| congruence].
    right. exists t3, pr. repeat split; auto.
    intros Hin.
    assert (Hin3 : in_step env s3).
    { apply Hstep'; [reflexivity |]. apply Hstep. rewrite Hsame; [exact Hin |].
      destruct Hin as (? & ? & _ & Ht & _). congruence. }
    destruct Hin3 as (path & t' & Hp & Ht' & Hf). exists path, t'. cbn. auto.
Qed.

(** X14: what [status] reports is what the manager holds afterwards.
    An unauthenticated report is the zero value, leaves no token in
    memory and has made no request or write; an authenticated report
    carries the expiry and scope of the token held and the id and name of
    the profile held; a token file in step with memory stays in step. *)
Theorem status_reports_the_session (s : St) (st : SpotifyAuthStatus) :
  fst (status env s) = Ok st ->
  (Authenticated st = false ->
   st = SpotifyAuthStatus_zero /\ tokens (mgr (snd (status env s))) = None /\
   trace (snd (status env s)) = trace s /\ files (snd (status env s)) = files s) /\
  (Authenticated st = true ->
   exists t p,
     tokens (mgr (snd (status env s))) = Some t /\
     profile (mgr (snd (status env s))) = Some p /\
     status_ExpiresAt st = ExpiresAt t /\ status_Scope st = Scope t /\
     UserID st = ID p /\ status_DisplayName st = DisplayName p) /\
  (in_step env s -> in_step env (snd (status env s))).
Proof.
  intros Hst.
  destruct (status_cases s) as [(H0 & Hn & Hn' & T & F) | [[e He] | (t & p & H1 & Ht & Hp & Hin)]].
  - rewrite H0 in Hst. inversion Hst; subst.
    split; [intros _; repeat split; auto |]. split; [cbn; discriminate |].
    intros (? & ? & _ & Ht & _). congruence.
  - congruence.
  - rewrite H1 in Hst. inversion Hst; subst.
    split; [cbn; discriminate |].
    split; [| exact Hin]. intros _. exists t, p. cbn. repeat split; assumption.
Qed.

(** X15: what [saveTokens] writes, [loadTokensFromDisk] reads back.
    After a successful save a manager created anew holds the saved
    token, as long as the file can be read and the JSON decoding undoes
    the encoding. *)
Theorem saved_tokens_load_back (t : spotifyTokenStore) (s : St) :
  fst (saveTokens env t s) = Ok tt ->
  (forall path, fsFault env OpReadFile path = None) ->
  json_Unmarshal env (json_MarshalIndent env t) = Got t ->
  fst (loadTokensFromDisk env (with_mgr manager_zero (snd (saveTokens env t s)))) = Ok tt /\
  tokens (mgr (snd (newSpotifyAuthManager env (snd (saveTokens env t s))))) = Some t.
Proof.
  intros Hok Hread Hcodec.
  destruct (saveTokens_frame t s) as (evs & _ & _ & _ & _ & _ & Hw & _).
  destruct (Hw Hok) as (path & Hp & Hf).
  assert (Hload : forall s1, files s1 = files (snd (saveTokens env t s)) ->
            fst (loadTokensFromDisk env s1) = Ok tt /\
            tokens (mgr (snd (loadTokensFromDisk env s1))) = Some t).
  { intros s1 Hs1. unfold loadTokensFromDisk, bind_ok, modify_mgr. rewrite Hp.
    rewrite bind_run. unfold os_ReadFile. rewrite Hread. mrun.
    rewrite Hs1, Hf, lookup_insert_eq. mrun. rewrite Hcodec. mrun. auto. }
  split.
  - apply Hload. reflexivity.
  - unfold newSpotifyAuthManager. mrun. apply Hload. reflexivity.
Qed.

Lemma expiresAfter_exact (now : Time) (lifetime : Z) :
  (0 <= Nanosecond now < 1000000000)%Z ->
  (- 2 ^ 63 <= lifetime * 1000000000 < 2 ^ 63)%Z ->
  expiresAfter now lifetime = (Unix now + lifetime)%Z.
Proof.
  intros Hn Hl. unfold expiresAfter. rewrite wrap64_small by exact Hl.
  rewrite Z.div_add by lia. rewrite Z.div_small by exact Hn. lia.
Qed.

(** X16: a token obtained by the code exchange or by a refresh expires
    [expires_in] seconds after the clock reading taken when the response
    was decoded, as long as the lifetime in nanoseconds fits an [int64];
    the record comes from a response of the token endpoint that decoded. *)
Theorem expiry_is_issue_time_plus_lifetime :
  (forall code redirectURI verifier' s t,
     fst (exchangeCodeForToken env code redirectURI verifier' s) = Ok t ->
     exists resp r,
       http_Do env (ticks s)
         (request_of env (AuthorizationCode code redirectURI verifier') s) = Got resp /\
       json_decodeTokenResp env (Body resp) = Got r /\
       ((0 <= Nanosecond (time_Now env (S (ticks s))) < 1000000000)%Z ->
        (- 2 ^ 63 <= ExpiresIn r * 1000000000 < 2 ^ 63)%Z ->
        ExpiresAt t = (Unix (time_Now env (S (ticks s))) + ExpiresIn r)%Z)) /\
  (forall refreshToken s t,
     fst (refreshAccessToken env refreshToken s) = Ok t ->
     exists resp r,
       http_Do env (ticks s) (request_of env (RefreshGrant refreshToken) s) = Got resp /\
       json_decodeTokenResp env (Body resp) = Got r /\
       ((0 <= Nanosecond (time_Now env (S (ticks s))) < 1000000000)%Z ->
        (- 2 ^ 63 <= ExpiresIn r * 1000000000 < 2 ^ 63)%Z ->
        ExpiresAt t = (Unix (time_Now env (S (ticks s))) + ExpiresIn r)%Z)).
Proof.
  split.
  - intros code redirectURI verifier' s t. rewrite exchangeCodeForToken_run. cbv zeta.
    destruct (newTokenRequest env); [discriminate |].
    destruct (reply_of env ErrTokenExchangeFailed _) as [r | e] eqn:E; [| discriminate].
    cbn [fst]. intros H. inversion H; subst.
    apply reply_of_ok in E as (resp & E1 & E2 & E3).
    exists resp, r. split; [exact E1 |]. split; [exact E3 |].
    intros Hn Hl. cbn. apply expiresAfter_exact; assumption.
  - intros refreshToken s t. rewrite refreshAccessToken_run. cbv zeta.
    destruct (newTokenRequest env); [discriminate |].
    destruct (reply_of env ErrRefreshFailed _) as [r | e] eqn:E; [| discriminate].
    cbn [fst]. intros H. inversion H; subst.
    apply reply_of_ok in E as (resp & E1 & E2 & E3).
    exists resp, r. split; [exact E1 |]. split; [exact E3 |].
    intros Hn Hl. cbn. apply expiresAfter_exact; assumption.
Qed.

End SessionFacts.

(** ** The shape of a random string *)

Lemma string_length_of_list (l : list ascii) :
  String.length (string_of_list_ascii l) = List.length l.
Proof. induction l; simpl; auto. Qed.

Lemma substring_length (n : nat) (s : string) :
  n <= String.length s -> String.length (String.substring 0 n s) = n.
Proof.
  revert s. induction n as [| n IH]; intros s H.
  - destruct s; reflexivity.
  - destruct s as [| c s]; simpl in *; [lia |]. rewrite IH; lia.
Qed.

Lemma substring_chars (n : nat) (s : string) (c : ascii) :
  In c (list_ascii_of_string (String.substring 0 n s)) -> In c (list_ascii_of_string s).
Proof.
  revert s. induction n as [| n IH]; intros s.
  - destruct s; simpl; tauto.
  - destruct s as [| c' s]; simpl; [tauto |]. intros [H | H]; auto.
Qed.

Lemma encode_char_in_alphabet (v : N) :
  (v < 64)%N ->
  In (Base64.encode_char Base64.encodeURL v) (list_ascii_of_string Base64.encodeURL).
Proof.
  intros Hv. unfold Base64.encode_char. apply nth_In.
  change (List.length (list_ascii_of_string Base64.encodeURL)) with 64. lia.
Qed.

Lemma alphabet_url_safe c :
  In c (list_ascii_of_string Base64.encodeURL) -> url_safe c = true.
Proof.
  intros H.
  assert (Hall : forallb url_safe (list_ascii_of_string Base64.encodeURL) = true)
    by (vm_compute; reflexivity).
  rewrite forallb_forall in Hall. apply Hall. exact H.
Qed.

(** X17: [randomString(length)] returns, when the random source
    answers, exactly [length] characters, each a letter, a digit, [-] or
    [_] (safe in a URL query without escaping); it reads the random
    source once and leaves the manager alone. *)
Theorem randomString_shape (env : Env) (length : nat) (s : St) (str : string) :
  fst (randomString env length s) = Ok str ->
  String.length str = length /\
  forallb url_safe (list_ascii_of_string str) = true /\
  ticks (snd (randomString env length s)) = S (ticks s) /\
  mgr (snd (randomString env length s)) = mgr s /\
  trace (snd (randomString env length s)) = trace s.
Proof.
  rewrite randomString_run. cbn [fst snd ticks mgr trace].
  destruct (rand_Read env (ticks s)) as [stream | e]; [| discriminate].
  intros H. inversion H; subst. clear H. split; [| split; [| auto]].
  - unfold randomString_of. apply substring_length.
    unfold Base64.encodeRawURL. rewrite string_length_of_list, length_map.
    pose proof (sextets_longer (filled length stream)). rewrite filled_length in H. exact H.
  - apply forallb_forall. intros c Hc. apply alphabet_url_safe.
    unfold randomString_of in Hc. apply substring_chars in Hc.
    unfold Base64.encodeRawURL in Hc. rewrite list_ascii_of_string_of_list_ascii in Hc.
    apply in_map_iff in Hc as (v & <- & Hv).
    apply encode_char_in_alphabet.
    pose proof (sextets_bounded (filled length stream)) as Hb.
    eapply List.Forall_forall in Hb; eauto.
Qed.

Section LoginMore.
Variable env : Env.

Ltac login_end :=
  cbn [tokens profile server loginWait redirect set_server set_redirect set_verifier
       set_state set_loginWait];
  (split; [reflexivity |]); (split; [reflexivity |]); (split; [reflexivity |]);
  (split; [ intros ? H; try discriminate H;
            eexists; eexists; (split; [reflexivity |]); (split; [reflexivity |]);
            (split; [reflexivity |]);
            (split; [rewrite <- !app_assoc; reflexivity |]);
            rewrite !app_assoc; apply last_last |]);
  (split; [ intros ? H; try discriminate H; inversion H; subst;
            (split; [reflexivity |]); (split; [reflexivity |]);
            first [ left; eexists; reflexivity
                  | right; eexists; eexists;
                    (split; [rewrite <- !app_assoc; reflexivity |]);
                    rewrite !app_assoc; apply last_last ] |]);
  intros old Ho;
  match goal with Hc : forall o, _ -> _ = [EvServerClose o] |- _ => rewrite (Hc old Ho) end;
  eexists;
  rewrite <- !app_assoc; reflexivity.
Ltac login_rest env :=
  mrun; rewrite !randomString_run; cbn [fst snd ticks mgr files trace];
  match goal with |- context [rand_Read env ?n] =>
    destruct (rand_Read env n) as [? | ?]; [| mrun; login_end];
    mrun; rewrite !randomString_run; cbn [fst snd ticks mgr files trace];
    destruct (rand_Read env (S n)) as [? | ?]; [| mrun; login_end];
    mrun;
    match goal with |- context [spotifyClientID env ?s3] =>
      let Eid := fresh "Eid" in
      destruct (spotifyClientID_run env s3) as [Eid _];
      destruct (spotifyClientID env s3) as [? ?]
    end;
    cbn [fst snd] in *; subst; mrun; login_end
  end.

(** X18: [startLogin] never touches token, profile or disk.  On success
    a callback server is running on the port of the redirect URI, the
    login channel is fresh and empty, and serving is the last thing
    started; on failure no server is left and the login channel is the
    old one, and unless no listener could be opened the listener was
    closed last; a server left from an earlier login is closed first. *)
Theorem startLogin_outcomes (s : St) :
  tokens (mgr (snd (startLogin env s))) = tokens (mgr s) /\
  profile (mgr (snd (startLogin env s))) = profile (mgr s) /\
  files (snd (startLogin env s)) = files s /\
  (forall resp, fst (startLogin env s) = Ok resp ->
     exists port evs,
       server (mgr (snd (startLogin env s))) = Some port /\
       loginWait (mgr (snd (startLogin env s))) = ChanEmpty /\
       redirect (mgr (snd (startLogin env s)))
         = ("http://127.0.0.1:" ++ pretty port ++ "/callback")%string /\
       trace (snd (startLogin env s)) = trace s ++ evs /\
       List.last evs (EvServe 0) = EvServe port) /\
  (forall e, fst (startLogin env s) = Err e ->
     server (mgr (snd (startLogin env s))) = None /\
     loginWait (mgr (snd (startLogin env s))) = loginWait (mgr s) /\
     ((exists l, e = ErrListener (ErrLib l)) \/
      exists port evs,
        trace (snd (startLogin env s)) = trace s ++ evs /\
        List.last evs (EvServe 0) = EvListenerClose port)) /\
  (forall old, server (mgr s) = Some old ->
     exists evs, trace (snd (startLogin env s)) = trace s ++ EvServerClose old :: evs).
Proof.
  unfold startLogin, closeServer, generateCodeVerifier, buildAuthorizeURL, modify_mgr.
  mrun.
  assert (Hclose :
            (match server (mgr s) with
             | Some port => emit (EvServerClose port)
             | None => ret tt
             end) s
            = (tt, {| mgr := mgr s; files := files s; ticks := ticks s;
                      trace := trace s ++ match server (mgr s) with
                                          | Some port => [EvServerClose port]
                                          | None => []
                                          end |})).
  { destruct (server (mgr s)); cbn [emit ret]; [reflexivity |].
    rewrite app_nil_r. destruct s; reflexivity. }
  rewrite Hclose. clear Hclose. mrun.
  set (closing := match server (mgr s) with
                  | Some port => [EvServerClose port]
                  | None => []
                  end).
  assert (Hold : forall old, server (mgr s) = Some old -> closing = [EvServerClose old]).
  { intros old H. unfold closing. rewrite H. reflexivity. }
  clearbody closing.
  destruct (net_Listen env (ticks s) defaultCallbackHost) as [port | e0].
  - login_rest env.
  - mrun. destruct (net_Listen env (S (ticks s)) "127.0.0.1:0") as [port | e0'];
      cbn [lift]; [| mrun; login_end].
    login_rest env.
Qed.

End LoginMore.

(** ** Custom client credentials *)

Section ClientSettingsFacts.
Variable env : Env.

Lemma os_Remove_absent path s :
  fsFault env OpRemove path = None -> files s !! path = None ->
  os_Remove env path s = (Err (ErrLib NotExist), s).
Proof.
  intros Hf Hn. unfold os_Remove. rewrite Hf. mrun. rewrite Hn. reflexivity.
Qed.

Lemma os_Remove_files path s :
  fsFault env OpRemove path = None ->
  files (snd (os_Remove env path s)) = delete path (files s) /\
  mgr (snd (os_Remove env path s)) = mgr s /\
  (fst (os_Remove env path s) = Ok tt \/
   fst (os_Remove env path s) = Err (ErrLib NotExist)).
Proof.
  intros Hf. unfold os_Remove. rewrite Hf. mrun.
  destruct (files s !! path) eqn:E; mrun.
  - repeat split. left. reflexivity.
  - rewrite delete_id by exact E. repeat split. right. reflexivity.
Qed.

Lemma os_ReadFile_found path data s :
  fsFault env OpReadFile path = None -> files s !! path = Some data ->
  os_ReadFile env path s = (Ok data, s).
Proof.
  intros Hf Hd. unfold os_ReadFile. rewrite Hf. mrun. rewrite Hd. reflexivity.
Qed.

Lemma os_ReadFile_absent path s :
  files s !! path = None ->
  exists e, os_ReadFile env path s = (Err (ErrLib e), s).
Proof.
  intros Hn. unfold os_ReadFile. destruct (fsFault env OpReadFile path) as [e |].
  - exists e. reflexivity.
  - mrun. rewrite Hn. exists NotExist. reflexivity.
Qed.

(** What a successful write of a settings file leaves. *)
Lemma settings_write dir path data s :
  fst (bind_ok (os_MkdirAll env dir) (fun _ => os_WriteFile env path data) s) = Ok tt ->
  files (snd (bind_ok (os_MkdirAll env dir) (fun _ => os_WriteFile env path data) s))
  = <[path := data]> (files s) /\
  mgr (snd (bind_ok (os_MkdirAll env dir) (fun _ => os_WriteFile env path data) s)) = mgr s.
Proof.
  unfold bind_ok, os_MkdirAll, os_WriteFile.
  destruct (fsFault env OpMkdirAll dir); mrun; [discriminate |].
  destruct (fsFault env OpWriteFile path); mrun; [discriminate |].
  intros _. split; reflexivity.
Qed.

(** A settings call changes its own file at most, and nothing when it fails. *)
Lemma settings_frame dir path data s :
  mgr (snd (bind_ok (os_MkdirAll env dir) (fun _ => os_WriteFile env path data) s)) = mgr s /\
  (fst (bind_ok (os_MkdirAll env dir) (fun _ => os_WriteFile env path data) s) <> Ok tt ->
   files (snd (bind_ok (os_MkdirAll env dir) (fun _ => os_WriteFile env path data) s))
   = files s) /\
  (forall other, other <> path ->
     files (snd (bind_ok (os_MkdirAll env dir) (fun _ => os_WriteFile env path data) s))
       !! other = files s !! other).
Proof.
  unfold bind_ok, os_MkdirAll, os_WriteFile.
  destruct (fsFault env OpMkdirAll dir); mrun; [repeat split |].
  destruct (fsFault env OpWriteFile path); mrun; [repeat split |].
  split; [reflexivity |]. split; [intros H; exfalso; apply H; reflexivity |].
  intros other Ho. apply lookup_insert_ne. congruence.
Qed.

Lemma remove_frame path s :
  mgr (snd (os_Remove env path s)) = mgr s /\
  (is_ok (fst (os_Remove env path s)) = false ->
   files (snd (os_Remove env path s)) = files s) /\
  (forall other, other <> path ->
     files (snd (os_Remove env path s)) !! other = files s !! other).
Proof.
  unfold os_Remove. destruct (fsFault env OpRemove path); mrun; [repeat split |].
  destruct (files s !! path) eqn:E; mrun; [| repeat split].
  split; [reflexivity |]. split; [discriminate |].
  intros other Ho. apply lookup_delete_ne. congruence.
Qed.

(** X19: a custom client ID that was stored is the one in use.  After a
    successful [SetSpotifyClientID] with an ID that is not blank, the
    settings file holds the trimmed ID, [GetSpotifyClientID] returns it
    and [spotifyClientID] prefers it to the built-in one, as long as the
    file can be read and trimming a trimmed string changes nothing. *)
Theorem custom_client_id_is_used (id : string) (s : St) :
  fst (SetSpotifyClientID env id s) = Ok tt ->
  strings_TrimSpace env id <> ""%string ->
  (forall path, fsFault env OpReadFile path = None) ->
  strings_TrimSpace env (strings_TrimSpace env id) = strings_TrimSpace env id ->
  (exists path, spotifyClientIDPath env = Ok path /\
                files (snd (SetSpotifyClientID env id s))
                = <[path := strings_TrimSpace env id]> (files s)) /\
  mgr (snd (SetSpotifyClientID env id s)) = mgr s /\
  fst (GetSpotifyClientID env (snd (SetSpotifyClientID env id s)))
  = Ok (strings_TrimSpace env id) /\
  fst (spotifyClientID env (snd (SetSpotifyClientID env id s)))
  = strings_TrimSpace env id.
Proof.
  intros Hok Hne Hread Hidem.
  unfold spotifyClientID, GetSpotifyClientID. mrun.
  revert Hok. unfold SetSpotifyClientID.
  destruct (spotifyClientIDPath env) as [path | e]; [| discriminate].
  apply nonempty_true in Hne. unfold nonempty in Hne.
  apply negb_true_iff in Hne. rewrite Hne. cbv beta iota zeta.
  intros Hok. destruct (settings_write _ _ _ _ Hok) as [Hfiles Hmgr].
  set (s' := snd (bind_ok _ _ s)) in *.
  rewrite !bind_run.
  rewrite (os_ReadFile_found path (strings_TrimSpace env id) s' (Hread path))
    by (rewrite Hfiles; apply lookup_insert_eq).
  mrun. rewrite Hidem.
  split; [exists path; split; [reflexivity | exact Hfiles] |].
  split; [exact Hmgr |]. split; [reflexivity |].
  unfold nonempty. rewrite Hne. reflexivity.
Qed.

(** X20: a blank client ID restores the built-in one.  When the settings
    path resolves and the removal is not refused, [SetSpotifyClientID]
    with a blank ID succeeds whether or not a custom ID was stored,
    removes the settings file and nothing else, after which
    [spotifyClientID] is the built-in ID; doing it again changes
    nothing. *)
Theorem blank_client_id_restores_builtin (id path : string) (s : St) :
  spotifyClientIDPath env = Ok path ->
  fsFault env OpRemove path = None ->
  strings_TrimSpace env id = ""%string ->
  fst (SetSpotifyClientID env id s) = Ok tt /\
  files (snd (SetSpotifyClientID env id s)) = delete path (files s) /\
  mgr (snd (SetSpotifyClientID env id s)) = mgr s /\
  fst (spotifyClientID env (snd (SetSpotifyClientID env id s))) = builtinClientID /\
  SetSpotifyClientID env id (snd (SetSpotifyClientID env id s))
  = (Ok tt, snd (SetSpotifyClientID env id s)).
Proof.
  intros Hpath Hrm Hblank.
  unfold spotifyClientID, GetSpotifyClientID, SetSpotifyClientID.
  rewrite Hpath, Hblank. cbn [String.eqb]. mrun.
  destruct (os_Remove_files path s Hrm) as (Hfiles & Hmgr & Hres).
  set (r := os_Remove env path s) in *.
  assert (Hrun : (match fst r with
                  | Ok _ => ret (Ok tt)
                  | Err e => if is_not_exist e then ret (Ok tt) else ret (Err e)
                  end) (snd r) = (Ok tt, snd r)).
  { destruct Hres as [-> | ->]; reflexivity. }
  rewrite Hrun. cbn [fst snd].
  assert (Hgone : files (snd r) !! path = None).
  { rewrite Hfiles. apply lookup_delete_eq. }
  destruct (os_ReadFile_absent path (snd r) Hgone) as [e He].
  rewrite (os_Remove_absent path (snd r) Hrm Hgone). rewrite He. cbn [fst snd].
  split; [reflexivity |]. split; [exact Hfiles |]. split; [exact Hmgr |].
  split; [| reflexivity].
  destruct e; reflexivity.
Qed.

(** X21: the same for the client secret: one that was stored is the one
    in use. *)
Theorem custom_client_secret_is_used (secret : string) (s : St) :
  fst (SetSpotifyClientSecret env secret s) = Ok tt ->
  strings_TrimSpace env secret <> ""%string ->
  (forall path, fsFault env OpReadFile path = None) ->
  strings_TrimSpace env (strings_TrimSpace env secret) = strings_TrimSpace env secret ->
  (exists path, spotifyClientSecretPath env = Ok path /\
                files (snd (SetSpotifyClientSecret env secret s))
                = <[path := strings_TrimSpace env secret]> (files s)) /\
  mgr (snd (SetSpotifyClientSecret env secret s)) = mgr s /\
  fst (GetSpotifyClientSecret env (snd (SetSpotifyClientSecret env secret s)))
  = Ok (strings_TrimSpace env secret) /\
  fst (spotifyClientSecret env (snd (SetSpotifyClientSecret env secret s)))
  = strings_TrimSpace env secret.
Proof.
  intros Hok Hne Hread Hidem.
  unfold spotifyClientSecret, GetSpotifyClientSecret. mrun.
  revert Hok. unfold SetSpotifyClientSecret.
  destruct (spotifyClientSecretPath env) as [path | e]; [| discriminate].
  apply nonempty_true in Hne. unfold nonempty in Hne.
  apply negb_true_iff in Hne. rewrite Hne. cbv beta iota zeta.
  intros Hok. destruct (settings_write _ _ _ _ Hok) as [Hfiles Hmgr].
  set (s' := snd (bind_ok _ _ s)) in *.
  rewrite !bind_run.
  rewrite (os_ReadFile_found path (strings_TrimSpace env secret) s' (Hread path))
    by (rewrite Hfiles; apply lookup_insert_eq).
  mrun. rewrite Hidem.
  split; [exists path; split; [reflexivity | exact Hfiles] |].
  split; [exact Hmgr |]. split; [reflexivity |].
  unfold nonempty. rewrite Hne. reflexivity.
Qed.

(** X22: a blank client secret restores the built-in one, in the same
    way. *)
Theorem blank_client_secret_restores_builtin (secret path : string) (s : St) :
  spotifyClientSecretPath env = Ok path ->
  fsFault env OpRemove path = None ->
  strings_TrimSpace env secret = ""%string ->
  fst (SetSpotifyClientSecret env secret s) = Ok tt /\
  files (snd (SetSpotifyClientSecret env secret s)) = delete path (files s) /\
  mgr (snd (SetSpotifyClientSecret env secret s)) = mgr s /\
  fst (spotifyClientSecret env (snd (SetSpotifyClientSecret env secret s)))
  = builtinClientSecret /\
  SetSpotifyClientSecret env secret (snd (SetSpotifyClientSecret env secret s))
  = (Ok tt, snd (SetSpotifyClientSecret env secret s)).
Proof.
  intros Hpath Hrm Hblank.
  unfold spotifyClientSecret, GetSpotifyClientSecret, SetSpotifyClientSecret.
  rewrite Hpath, Hblank. cbn [String.eqb]. mrun.
  destruct (os_Remove_files path s Hrm) as (Hfiles & Hmgr & Hres).
  set (r := os_Remove env path s) in *.
  assert (Hrun : (match fst r with
                  | Ok _ => ret (Ok tt)
                  | Err e => if is_not_exist e then ret (Ok tt) else ret (Err e)
                  end) (snd r) = (Ok tt, snd r)).
  { destruct Hres as [-> | ->]; reflexivity. }
  rewrite Hrun. cbn [fst snd].
  assert (Hgone : files (snd r) !! path = None).
  { rewrite Hfiles. apply lookup_delete_eq. }
  destruct (os_ReadFile_absent path (snd r) Hgone) as [e He].
  rewrite (os_Remove_absent path (snd r) Hrm Hgone). rewrite He. cbn [fst snd].
  split; [reflexivity |]. split; [exact Hfiles |]. split; [exact Hmgr |].
  split; [| reflexivity].
  destruct e; reflexivity.
Qed.

(** X23: the settings calls keep to their own file.  Whatever they are
    given and whatever the disk does, [SetSpotifyClientID] and
    [SetSpotifyClientSecret] leave the manager alone, change no file but
    their own (the token file is safe), and change nothing at all when
    they return an error. *)
Theorem client_settings_keep_to_their_file (v : string) (s : St) :
  (mgr (snd (SetSpotifyClientID env v s)) = mgr s /\
   (is_ok (fst (SetSpotifyClientID env v s)) = false ->
    files (snd (SetSpotifyClientID env v s)) = files s) /\
   (forall path other, spotifyClientIDPath env = Ok path -> other <> path ->
      files (snd (SetSpotifyClientID env v s)) !! other = files s !! other)) /\
  (mgr (snd (SetSpotifyClientSecret env v s)) = mgr s /\
   (is_ok (fst (SetSpotifyClientSecret env v s)) = false ->
    files (snd (SetSpotifyClientSecret env v s)) = files s) /\
   (forall path other, spotifyClientSecretPath env = Ok path -> other <> path ->
      files (snd (SetSpotifyClientSecret env v s)) !! other = files s !! other)).
Proof.
  split.
  - unfold SetSpotifyClientID.
    destruct (spotifyClientIDPath env) as [path | e]; [| repeat split; discriminate].
    destruct (String.eqb (strings_TrimSpace env v) "").
    + mrun. destruct (remove_frame path s) as (Hm & Hf & Ho).
      destruct (os_Remove env path s) as [[[] | e] s'] eqn:E; cbn [fst snd] in *.
      * split; [exact Hm |]. split; [discriminate |].
        intros p other Hp Hne. inversion Hp; subst. apply Ho. exact Hne.
      * assert (Hs' : files s' = files s) by (apply Hf; reflexivity).
        destruct (is_not_exist e); cbn [ret fst snd];
          (split; [exact Hm |]); (split; [intros _; exact Hs' |]);
          intros p other Hp Hne; rewrite Hs'; reflexivity.
    + destruct (settings_frame (filepath_Dir env path) path (strings_TrimSpace env v) s)
        as (Hm & Hf & Ho).
      split; [exact Hm |]. split.
      * intros H. apply Hf. intros H'. rewrite H' in H. discriminate.
      * intros p other Hp Hne. inversion Hp; subst. apply Ho. exact Hne.
  - unfold SetSpotifyClientSecret.
    destruct (spotifyClientSecretPath env) as [path | e]; [| repeat split; discriminate].
    destruct (String.eqb (strings_TrimSpace env v) "").
    + mrun. destruct (remove_frame path s) as (Hm & Hf & Ho).
      destruct (os_Remove env path s) as [[[] | e] s'] eqn:E; cbn [fst snd] in *.
      * split; [exact Hm |]. split; [discriminate |].
        intros p other Hp Hne. inversion Hp; subst. apply Ho. exact Hne.
      * assert (Hs' : files s' = files s) by (apply Hf; reflexivity).
        destruct (is_not_exist e); cbn [ret fst snd];
          (split; [exact Hm |]); (split; [intros _; exact Hs' |]);
          intros p other Hp Hne; rewrite Hs'; reflexivity.
    + destruct (settings_frame (filepath_Dir env path) path (strings_TrimSpace env v) s)
        as (Hm & Hf & Ho).
      split; [exact Hm |]. split.
      * intros H. apply Hf. intros H'. rewrite H' in H. discriminate.
      * intros p other Hp Hne. inversion Hp; subst. apply Ho. exact Hne.
Qed.

End ClientSettingsFacts.

(** ** The fetchers of the user's library *)

Lemma to_nat_nonpos_div (a limit : Z) :
  (0 < limit)%Z -> (a < limit)%Z -> Z.to_nat (a / limit) = 0.
Proof.
  intros Hl Ha. assert (a / limit <= 0)%Z.
  { assert (a / limit < 1)%Z; [apply Z.div_lt_upper_bound; lia |].
    set (q := (a / limit)%Z) in *. lia. }
  set (q := (a / limit)%Z) in *. lia.
Qed.

Lemma offsets_loop_closed (limit total : Z) (fuel : nat) :
  (0 < limit)%Z -> (total + limit < 2 ^ 63)%Z ->
  forall (offset : Z) (offsets : list Z),
    (0 <= offset)%Z ->
    (total - offset <= Z.of_nat fuel * limit)%Z ->
    offsets_loop fuel limit total offset offsets
    = offsets ++ map (fun k => (offset + limit * Z.of_nat k)%Z)
                     (seq 0 (Z.to_nat ((total - offset + limit - 1) / limit))).
Proof.
  intros Hl Hbig. induction fuel as [| fuel IH]; intros offset offsets Ho Hfuel.
  - simpl. rewrite to_nat_nonpos_div by lia. simpl. rewrite app_nil_r. reflexivity.
  - cbn [offsets_loop]. destruct (offset <? total)%Z eqn:E.
    + apply Z.ltb_lt in E.
      rewrite wrap64_small by lia.
      rewrite IH by lia.
      replace ((total - offset + limit - 1) / limit)%Z
        with ((total - (offset + limit) + limit - 1) / limit + 1)%Z.
      2: { replace (total - offset + limit - 1)%Z
             with ((total - (offset + limit) + limit - 1) + 1 * limit)%Z by lia.
           rewrite Z.div_add by lia. reflexivity. }
      assert (Hq : (0 <= (total - (offset + limit) + limit - 1) / limit)%Z).
      { apply Z.div_pos; lia. }
      set (q := ((total - (offset + limit) + limit - 1) / limit)%Z) in *.
      rewrite Z2Nat.inj_add by lia.
      change (Z.to_nat 1) with 1%nat. rewrite Nat.add_comm. cbn [Nat.add seq map].
      rewrite <- app_assoc. cbn [app]. f_equal. f_equal.
      * lia.
      * rewrite <- seq_shift, map_map. apply map_ext. intros k. lia.
    + apply Z.ltb_ge in E.
      rewrite to_nat_nonpos_div by lia. simpl. rewrite app_nil_r. reflexivity.
Qed.

Lemma page_offsets_closed (limit total : Z) :
  (0 < limit)%Z -> (total + limit < 2 ^ 63)%Z ->
  page_offsets limit total
  = map (fun k => (limit * Z.of_nat (S k))%Z) (seq 0 (Z.to_nat ((total - 1) / limit))).
Proof.
  intros Hl Hbig. unfold page_offsets.
  rewrite offsets_loop_closed by nia.
  cbn [app]. replace (total - limit + limit - 1)%Z with (total - 1)%Z by lia.
  apply map_ext. intros k. lia.
Qed.

Lemma page_offsets_are_the_multiples_aux (limit total : Z) :
  (0 < limit)%Z -> (total + limit < 2 ^ 63)%Z ->
  (forall o, In o (page_offsets limit total) <->
             exists k, (0 < k)%Z /\ o = (k * limit)%Z /\ (o < total)%Z) /\
  StronglySorted Z.lt (page_offsets limit total).
Proof.
  intros Hl Hbig. rewrite page_offsets_closed by assumption.
  split.
  - intros o. rewrite in_map_iff. split.
    + intros (k & <- & Hk). apply in_seq in Hk.
      exists (Z.of_nat (S k)). split; [lia |]. split; [lia |].
      assert (H : (Z.of_nat (S k) <= (total - 1) / limit)%Z).
      { destruct Hk as [_ Hk]. simpl in Hk.
        set (q := ((total - 1) / limit)%Z) in *. lia. }
      assert (H' : (limit * ((total - 1) / limit) <= total - 1)%Z).
      { apply Z.mul_div_le. lia. }
      set (q := ((total - 1) / limit)%Z) in *. nia.
    + intros (k & Hk & -> & Hlt).
      exists (Z.to_nat (k - 1)).
      split; [replace (Z.of_nat (S (Z.to_nat (k - 1)))) with k by lia; ring |].
      apply in_seq. split; [lia |]. simpl.
      assert (H : (k <= (total - 1) / limit)%Z).
      { apply Z.div_le_lower_bound; lia. }
      set (q := ((total - 1) / limit)%Z) in *. lia.
  - generalize (Z.to_nat ((total - 1) / limit)). intros m.
    generalize 0 at 1. induction m as [| m IH]; intros a; simpl; constructor.
    + apply IH.
    + apply List.Forall_forall. intros o Ho. apply in_map_iff in Ho as (k & <- & Hk).
      apply in_seq in Hk. nia.
Qed.

(** X24: the offsets the two fetchers ask for are the positive multiples
    of [limit] below [total], each once, in ascending order: with the
    first page the requests cover the positions [0 .. total) without a
    gap or an overlap.  The loop ends within [total] rounds, as long as
    [total + limit] fits an [int] (more fuel changes nothing). *)
Theorem page_offsets_are_the_multiples (limit total : Z) :
  (0 < limit)%Z -> (total + limit < 2 ^ 63)%Z ->
  (forall o, In o (page_offsets limit total) <->
             exists k, (0 < k)%Z /\ o = (k * limit)%Z /\ (o < total)%Z) /\
  StronglySorted Z.lt (page_offsets limit total) /\
  List.length (page_offsets limit total) = Z.to_nat ((total - 1) / limit) /\
  (forall fuel, Z.to_nat total <= fuel ->
     offsets_loop fuel limit total limit [] = page_offsets limit total).
Proof.
  intros Hl Hbig.
  destruct (page_offsets_are_the_multiples_aux limit total Hl Hbig) as [Hin Hsorted].
  split; [exact Hin |]. split; [exact Hsorted |]. split.
  - rewrite page_offsets_closed by assumption.
    rewrite length_map, length_seq. reflexivity.
  - intros fuel Hfuel. rewrite page_offsets_closed by assumption.
    rewrite offsets_loop_closed by nia.
    cbn [app]. replace (total - limit + limit - 1)%Z with (total - 1)%Z by lia.
    apply map_ext. intros k. lia.
Qed.

Lemma flat_map_agree {A B} (f g : A -> list B) (l : list A) :
  (forall a, In a l -> f a = g a) -> flat_map f l = flat_map g l.
Proof.
  induction l as [| a l IH]; intros H; simpl; [reflexivity |].
  rewrite (H a) by (left; reflexivity). rewrite IH; [reflexivity |].
  intros b Hb. apply H. right. exact Hb.
Qed.

Lemma flat_map_map {A B C} (f : B -> list C) (g : A -> B) (l : list A) :
  flat_map f (map g l) = flat_map (fun a => f (g a)) l.
Proof.
  induction l as [| a l IH]; simpl; [reflexivity |]. rewrite IH. reflexivity.
Qed.

Lemma firstn_flat_chunks {A} (n m : nat) (l : list A) :
  flat_map (fun k => firstn n (skipn (n * k) l)) (seq 0 m) = firstn (n * m) l.
Proof.
  induction m as [| m IH].
  - rewrite Nat.mul_0_r. reflexivity.
  - rewrite seq_S, flat_map_app, IH. cbn [flat_map Nat.add]. rewrite app_nil_r.
    replace (n * S m) with (n * m + n) by lia.
    apply take_take_drop.
Qed.

Lemma savedTracks_pageURL (o : Z) :
  ("https://api.spotify.com/v1/me/tracks?limit=" ++ pretty 50%Z ++ "&offset=" ++ pretty o)%string
  = ("https://api.spotify.com/v1/me/tracks?limit=50&offset=" ++ pretty o)%string.
Proof. reflexivity. Qed.

Lemma playlist_pageURL (playlistID : string) (o : Z) :
  ("https://api.spotify.com/v1/playlists/" ++ playlistID ++ "/tracks?limit="
   ++ pretty 100%Z ++ "&offset=" ++ pretty o)%string
  = ("https://api.spotify.com/v1/playlists/" ++ playlistID ++ "/tracks?limit=100&offset="
     ++ pretty o)%string.
Proof. reflexivity. Qed.

Lemma ensureFresh_has_token (env : Env) s s1 :
  ensureFreshTokenLocked env s = (Ok tt, s1) -> tokens (mgr s) <> None.
Proof.
  intros H Hn. unfold ensureFreshTokenLocked in H. rewrite bind_run in H.
  cbn [get_mgr fst snd] in H. rewrite Hn in H. discriminate.
Qed.

Section PoolOutcomes.
Context {AlbumTrackMetadata : Type}.

(** The pool, for a fetch that succeeds on every offset of a sorted list:
    the live runs return the tracks of the pages in the order of the
    offsets, and there is such a run. *)
Lemma pool_live_tracks (fetch : Z -> option (list AlbumTrackMetadata) * option error)
    (offsets : list Z) :
  StronglySorted Z.le offsets ->
  (forall o, In o offsets -> snd (fetch o) = None) ->
  (exists out, runTrackPageWorkers_live fetch offsets out) /\
  (forall out, runTrackPageWorkers_live fetch offsets out ->
     snd out = None /\
     all_tracks (elems (fst out)) = flat_map (fun o => elems (fst (fetch o))) offsets).
Proof.
  intros Hsorted Hok. split.
  - unfold runTrackPageWorkers_live. destruct offsets as [| o l] eqn:Eo; simpl.
    + eexists. reflexivity.
    + destruct (completes fetch (o :: l) (start (o :: l)) ltac:(discriminate)
                  (Inv_start fetch _))
        as (acts & p & Hex & Hc & Hctx).
      exists (finish p), acts, p. repeat split; auto.
  - intros out Hrun.
    assert (Hseq : all_tracks (sequential_pages fetch offsets)
                   = flat_map (fun o => elems (fst (fetch o))) offsets).
    { unfold all_tracks, sequential_pages. clear.
      induction offsets as [| o l IH]; simpl; [reflexivity |]. rewrite IH. reflexivity. }
    unfold runTrackPageWorkers_live in Hrun.
    destruct offsets as [| o l] eqn:Eo; simpl in Hrun.
    + subst out. split; reflexivity.
    + destruct Hrun as (acts & p & Hex & Hc & Hlive & ->).
      rewrite (live_outcome fetch _ _ _ Hok Hex Hc Hlive). cbn [fst snd elems].
      split; [reflexivity |].
      rewrite sortSlice_filter_pages, all_tracks_filter.
      rewrite sortSlice_sorted_id; [exact Hseq | |].
      * apply sequential_sorted. exact Hsorted.
      * apply sequential_share_offsets.
Qed.

(** The pool, for a fetch that fails on one of the offsets: every run
    ends in an error wrapped with an offset of the list. *)
Lemma pool_failure (fetch : Z -> option (list AlbumTrackMetadata) * option error)
    (offsets : list Z) (o : Z) (e : error) :
  In o offsets -> snd (fetch o) = Some e ->
  (exists out, runTrackPageWorkers fetch offsets out) /\
  (forall out, runTrackPageWorkers fetch offsets out ->
     fst out = None /\ exists o' e', In o' offsets /\ snd out = Some (ErrOffset o' e')).
Proof.
  intros Hin Hfail.
  assert (Hne : offsets <> []) by (intros ->; destruct Hin).
  split.
  - unfold runTrackPageWorkers. rewrite (launch_nonempty _ Hne).
    destruct (completes fetch offsets (start offsets) Hne (Inv_start fetch _))
      as (acts & p & Hex & Hc & _).
    exists (finish p), acts, p. auto.
  - intros out Hrun. unfold runTrackPageWorkers in Hrun.
    rewrite (launch_nonempty _ Hne) in Hrun.
    destruct Hrun as (acts & p & Hex & Hc & ->).
    pose proof (Inv_exec fetch _ _ _ _ (Inv_start fetch offsets) Hex) as Hinv.
    pose proof (closed_accounts fetch _ _ Hinv Hc) as Hperm.
    pose proof (inv_arrived _ _ _ Hinv) as Hsound.
    assert (Ho : In o (map offset (arrived p))).
    { eapply Permutation_in; [symmetry; exact Hperm | exact Hin]. }
    apply in_map_iff in Ho as (r0 & Hr0 & Hin0).
    assert (Herr0 : err r0 <> None).
    { eapply List.Forall_forall in Hsound; [| exact Hin0].
      destruct Hsound as [[c Hc0] _]. rewrite Hc0, Hr0. unfold job_result.
      destruct c; [discriminate |].
      destruct (fetch o) as [ts [e0 |]]; simpl in *; [discriminate | congruence]. }
    destruct (first_failed_some _ _ Hin0 Herr0) as (r & e' & Hff & He' & Hr).
    unfold finish. rewrite (inv_firstErr _ _ _ Hinv), first_failure_found, Hff, He'.
    split; [reflexivity |]. exists (offset r), e'. split; [| reflexivity].
    eapply Permutation_in; [exact Hperm |]. apply in_map. exact Hr.
Qed.

End PoolOutcomes.

Section ConvertFacts.
Context {trackFull AlbumTrackMetadata : Type}.
Variable convertTrackToAlbumTrack : trackFull -> AlbumTrackMetadata.

Local Abbreviation convert := (convertSavedTrackItems convertTrackToAlbumTrack).


Lemma convert_fold (items : list (option trackFull)) (converted : list AlbumTrackMetadata) :
  fold_left (fun converted item =>
               match item with
               | Some track => converted ++ [convertTrackToAlbumTrack track]
               | None => converted
               end) items converted
  = converted ++ convert items.
Proof.
  unfold convertSavedTrackItems.
  revert converted. induction items as [| item items IH] using rev_ind; intros converted.
  - simpl. rewrite app_nil_r. reflexivity.
  - rewrite !fold_left_app. simpl. rewrite IH.
    destruct item; [rewrite app_assoc |]; reflexivity.
Qed.

Lemma convert_app (a b : list (option trackFull)) :
  convert (a ++ b) = convert a ++ convert b.
Proof.
  unfold convertSavedTrackItems at 1. rewrite fold_left_app.
  fold (convert a). apply convert_fold.
Qed.

Lemma convert_flat_map {A} (f : A -> list (option trackFull)) (l : list A) :
  convert (flat_map f l) = flat_map (fun a => convert (f a)) l.
Proof.
  induction l as [| a l IH]; simpl; [reflexivity |].
  rewrite convert_app, IH. reflexivity.
Qed.

(** X25: [convertSavedTrackItems] converts the tracks that are there, in
    order, and skips the nil ones; so it does not matter where the
    server cuts the pages: converting page by page and appending gives
    the conversion of the whole list. *)
Theorem convertSavedTrackItems_pagewise (a b : list (option trackFull)) :
  convertSavedTrackItems convertTrackToAlbumTrack (a ++ b)
  = convertSavedTrackItems convertTrackToAlbumTrack a
    ++ convertSavedTrackItems convertTrackToAlbumTrack b /\
  convertSavedTrackItems convertTrackToAlbumTrack a
  = flat_map (fun item => match item with
                          | Some track => [convertTrackToAlbumTrack track]
                          | None => []
                          end) a /\
  List.length (convertSavedTrackItems convertTrackToAlbumTrack a) <= List.length a.
Proof.
  split; [apply convert_app |].
  assert (H : convert a = flat_map (fun item => match item with
                                    | Some track => [convertTrackToAlbumTrack track]
                                    | None => []
                                    end) a).
  { induction a as [| item a IH]; [reflexivity |].
    change (item :: a) with ([item] ++ a). rewrite convert_app, IH.
    destruct item; reflexivity. }
  split; [exact H |]. rewrite H. clear H.
  induction a as [| [track |] a IH]; simpl in *; lia.
Qed.

Lemma slice_first (library : list (option trackFull)) (limit : Z) :
  slice_of library limit 0 = firstn (Z.to_nat limit) library.
Proof. reflexivity. Qed.

(** What the pool returns for a library served in slices of [limit]. *)
Lemma paged_library (limit : Z) (library : list (option trackFull))
    (fetch : Z -> option (list AlbumTrackMetadata) * option error) :
  (0 < limit)%Z -> (Z.of_nat (List.length library) + limit < 2 ^ 63)%Z ->
  (forall k, (0 < k)%Z -> (k * limit < Z.of_nat (List.length library))%Z ->
     fetch (k * limit)%Z = (Some (convert (slice_of library limit (k * limit))), None)) ->
  (exists out,
     runTrackPageWorkers_live fetch (page_offsets limit (Z.of_nat (List.length library))) out) /\
  (forall out,
     runTrackPageWorkers_live fetch (page_offsets limit (Z.of_nat (List.length library))) out ->
     snd out = None /\
     convert (slice_of library limit 0) ++ all_tracks (elems (fst out)) = convert library).
Proof.
  intros Hl Hbig Hfetch.
  set (total := Z.of_nat (List.length library)) in *.
  destruct (page_offsets_are_the_multiples_aux limit total Hl Hbig) as (Hin & Hsorted).
  assert (Hok : forall o, In o (page_offsets limit total) ->
                  fetch o = (Some (convert (slice_of library limit o)), None)).
  { intros o Ho. apply Hin in Ho as (k & Hk & -> & Hlt). apply Hfetch; assumption. }
  destruct (pool_live_tracks fetch (page_offsets limit total)) as [Hex Hall].
  { clear -Hsorted. induction Hsorted as [| o l _ IH Ho]; constructor; [exact IH |].
    eapply List.Forall_impl; [| exact Ho]. intros; lia. }
  { intros o Ho. rewrite (Hok o Ho). reflexivity. }
  split; [exact Hex |].
  intros out Hrun. destruct (Hall out Hrun) as [Herr Htracks].
  split; [exact Herr |]. rewrite Htracks.
  rewrite (flat_map_agree _ (fun o => convert (slice_of library limit o))).
  2: { intros o Ho. rewrite (Hok o Ho). reflexivity. }
  rewrite <- convert_flat_map, <- convert_app. f_equal.
  rewrite page_offsets_closed by assumption.
  rewrite flat_map_map. unfold slice_of.
  set (n := Z.to_nat limit). set (m := Z.to_nat ((total - 1) / limit)).
  rewrite (flat_map_agree _ (fun k => firstn n (skipn (n * S k) library))).
  2: { intros k _. f_equal. f_equal. unfold n. lia. }
  replace (Z.to_nat 0) with (n * 0) by lia.
  assert (E : firstn n (skipn (n * 0) library)
              ++ flat_map (fun k => firstn n (skipn (n * S k) library)) (seq 0 m)
              = flat_map (fun k => firstn n (skipn (n * k) library)) (seq 0 (S m))).
  { rewrite <- cons_seq. cbn [flat_map]. f_equal.
    rewrite <- seq_shift, flat_map_map. reflexivity. }
  rewrite E, firstn_flat_chunks. apply firstn_all2.
  assert (Hq : (total - 1 < limit * ((total - 1) / limit + 1))%Z).
  { pose proof (Z.mul_succ_div_gt (total - 1) limit Hl). lia. }
  assert (Hq0 : (0 <= (total - 1) / limit + 1)%Z).
  { assert (-1 <= (total - 1) / limit)%Z; [| lia].
    apply Z.div_le_lower_bound; lia. }
  unfold n, m. set (q := ((total - 1) / limit)%Z) in *. 
  destruct (Z_le_gt_dec 0 q); [nia |].
  assert (q = -1)%Z by lia. subst total. nia.
Qed.

End ConvertFacts.

Section TrackFetcherFacts.
Context {trackFull AlbumTrackMetadata : Type}.
Variable env : Env.
Variable convertTrackToAlbumTrack : trackFull -> AlbumTrackMetadata.
Variable getJSON_tracks : nat -> string -> string -> outcome (tracksPage trackFull).
Variable maxSliceCap : Z.

Local Abbreviation convert := (convertSavedTrackItems convertTrackToAlbumTrack).

(** X27: [fetchUserSavedTracks] returns the whole library, each saved
    track once and in the order of the library, whatever the schedule of
    the page workers.  For a server that reports the size of the
    library and serves it in slices of 50 at the offsets asked for, every
    run in which the context stays live returns the conversion of the
    library, and such a run exists; the manager and the disk are as the
    freshness check left them. *)
Theorem saved_tracks_complete_and_ordered
    (s s1 : St) (t : spotifyTokenStore) (library : list (option trackFull)) :
  ensureFreshTokenLocked env s = (Ok tt, s1) ->
  tokens (mgr s1) = Some t ->
  (Z.of_nat (List.length library) <= maxSliceCap)%Z ->
  (maxSliceCap < 2 ^ 62)%Z ->
  (exists first,
     getJSON_tracks (ticks s1) "https://api.spotify.com/v1/me/tracks?limit=50&offset=0"
       (AccessToken t) = Got first /\
     page_Items first = slice_of library 50 0 /\
     page_Total first = Z.of_nat (List.length library)) ->
  (forall k, (0 < k)%Z -> (k * 50 < Z.of_nat (List.length library))%Z ->
     exists pg,
       getJSON_tracks (S (ticks s1))
         ("https://api.spotify.com/v1/me/tracks?limit=50&offset=" ++ pretty (k * 50)%Z)
         (AccessToken t) = Got pg /\
       page_Items pg = slice_of library 50 (k * 50)) ->
  (exists r s',
     fetchUserSavedTracks_live env convertTrackToAlbumTrack getJSON_tracks maxSliceCap
       s r s') /\
  (forall r s',
     fetchUserSavedTracks_live env convertTrackToAlbumTrack getJSON_tracks maxSliceCap
       s r s' ->
     r = Ok (convertSavedTrackItems convertTrackToAlbumTrack library) /\
     mgr s' = mgr s1 /\ files s' = files s1).
Proof.
  intros Hfresh Ht Hcap Hmax (first & Hfirst & Hitems & Htotal) Hpages.
  pose proof (ensureFresh_has_token env s s1 Hfresh) as Hs.
  destruct (tokens (mgr s)) as [t0 |] eqn:Et; [clear Hs | congruence].
  unfold fetchUserSavedTracks_live, fetchUserSavedTracks_begin.
  mrun. rewrite Et. mrun. rewrite Hfresh. mrun. rewrite Ht. mrun.
  change ("https://api.spotify.com/v1/me/tracks?limit=" ++ pretty 50%Z ++ "&offset=0")%string
    with "https://api.spotify.com/v1/me/tracks?limit=50&offset=0"%string.
  rewrite Hfirst. unfold make_fits. rewrite Htotal, Hitems.
  replace ((0 <=? Z.of_nat (List.length library))
           && (Z.of_nat (List.length library) <=? maxSliceCap))%Z with true
    by (symmetry; apply andb_true_iff; split; apply Z.leb_le; lia).
  cbn [negb app]. rewrite slice_first.
  change (Z.to_nat 50) with 50.
  destruct (Z.of_nat (List.length library) <=? Z.of_nat (List.length (firstn 50 library)))%Z
    eqn:E; mrun.
  - apply Z.leb_le in E. rewrite length_firstn in E.
    assert (Hshort : List.length library <= 50) by lia.
    rewrite firstn_all2 by exact Hshort.
    split; [eexists; eexists; split; reflexivity |].
    intros r s' [-> ->]. repeat split.
  - apply Z.leb_gt in E. rewrite length_firstn in E.
    destruct (paged_library convertTrackToAlbumTrack 50 library
                (savedTracks_pageFetcher convertTrackToAlbumTrack getJSON_tracks
                   (S (ticks s1)) (AccessToken t) 50))
      as [(out & Hout) Hall]; [lia | lia | |].
    { intros k Hk Hlt. destruct (Hpages k Hk Hlt) as (pg & Hpg & Hpi).
      unfold savedTracks_pageFetcher. rewrite savedTracks_pageURL, Hpg, Hpi. reflexivity. }
    split.
    + exists (append_pages (convert (firstn 50 library)) (fun tracks => tracks) out).
      eexists. split; [reflexivity |]. exists out. split; [exact Hout | reflexivity].
    + intros r s' (-> & out' & Hrun & ->).
      destruct (Hall out' Hrun) as [Herr Htracks].
      unfold append_pages. rewrite Herr. rewrite slice_first in Htracks.
      change (Z.to_nat 50) with 50 in Htracks. rewrite Htracks. repeat split.
Qed.

(** X30: [fetchUserSavedTracks] returns no partial library.  When the
    request for one of the later pages fails, every run of the call,
    under every schedule and with or without cancellation, returns an
    error wrapped with the offset of a page that was asked for, never a
    list of tracks; such a run exists, and the manager and the disk are
    as the freshness check left them. *)
Theorem failed_page_fails_saved_tracks
    (s s1 : St) (t : spotifyTokenStore) (first : tracksPage trackFull) (k : Z)
    (e : liberror) :
  ensureFreshTokenLocked env s = (Ok tt, s1) ->
  tokens (mgr s1) = Some t ->
  getJSON_tracks (ticks s1) "https://api.spotify.com/v1/me/tracks?limit=50&offset=0"
    (AccessToken t) = Got first ->
  (Z.of_nat (List.length (page_Items first)) < page_Total first <= maxSliceCap)%Z ->
  (maxSliceCap < 2 ^ 62)%Z ->
  (0 < k)%Z -> (k * 50 < page_Total first)%Z ->
  getJSON_tracks (S (ticks s1))
    ("https://api.spotify.com/v1/me/tracks?limit=50&offset=" ++ pretty (k * 50)%Z)
    (AccessToken t) = Failed e ->
  (exists r s',
     fetchUserSavedTracks env convertTrackToAlbumTrack getJSON_tracks maxSliceCap s r s') /\
  (forall r s',
     fetchUserSavedTracks env convertTrackToAlbumTrack getJSON_tracks maxSliceCap s r s' ->
     exists o' e',
       r = Err (ErrOffset o' e') /\
       In o' (page_offsets 50 (page_Total first)) /\
       mgr s' = mgr s1 /\ files s' = files s1).
Proof.
  intros Hfresh Ht Hfirst Htotal Hmax Hk Hlt Hfail.
  pose proof (ensureFresh_has_token env s s1 Hfresh) as Hs.
  destruct (tokens (mgr s)) as [t0 |] eqn:Et; [clear Hs | congruence].
  unfold fetchUserSavedTracks, fetchUserSavedTracks_begin.
  mrun. rewrite Et. mrun. rewrite Hfresh. mrun. rewrite Ht. mrun.
  change ("https://api.spotify.com/v1/me/tracks?limit=" ++ pretty 50%Z ++ "&offset=0")%string
    with "https://api.spotify.com/v1/me/tracks?limit=50&offset=0"%string.
  rewrite Hfirst. unfold make_fits.
  replace ((0 <=? page_Total first) && (page_Total first <=? maxSliceCap))%Z with true
    by (symmetry; apply andb_true_iff; split; apply Z.leb_le; lia).
  cbn [negb app].
  replace (page_Total first <=? Z.of_nat (List.length (page_Items first)))%Z with false
    by (symmetry; apply Z.leb_gt; lia).
  mrun.
  destruct (pool_failure
              (savedTracks_pageFetcher convertTrackToAlbumTrack getJSON_tracks
                 (S (ticks s1)) (AccessToken t) 50)
              (page_offsets 50 (page_Total first)) (k * 50)%Z (ErrLib e))
    as [(out & Hout) Hall].
  { apply page_offsets_are_the_multiples_aux; [lia | lia |]. exists k. auto. }
  { unfold savedTracks_pageFetcher. rewrite savedTracks_pageURL, Hfail. reflexivity. }
  split.
  - eexists. eexists. split; [reflexivity |]. exists out. split; [exact Hout | reflexivity].
  - intros r s' (-> & out' & Hrun & ->).
    destruct (Hall out' Hrun) as (_ & o' & e' & Hin & Herr).
    exists o', e'. unfold append_pages. rewrite Herr. repeat split. exact Hin.
Qed.

Variable getJSON_playlist : nat -> string -> string -> outcome playlistInfo.

(** X28: [fetchPlaylistWithTracks] returns the whole playlist, each track
    once and in playlist order, whatever the schedule of the page
    workers, under the summary read from the playlist's metadata.  For a
    server that reports the size of the playlist and serves it in slices
    of 100 at the offsets asked for, every run in which the context
    stays live returns the conversion of the playlist, and such a run
    exists. *)
Theorem playlist_tracks_complete_and_ordered
    (playlistID : string) (s s1 : St) (t : spotifyTokenStore) (info : playlistInfo)
    (library : list (option trackFull)) :
  ensureFreshTokenLocked env s = (Ok tt, s1) ->
  tokens (mgr s1) = Some t ->
  (Z.of_nat (List.length library) <= maxSliceCap)%Z ->
  (maxSliceCap < 2 ^ 62)%Z ->
  getJSON_playlist (ticks s1) ("https://api.spotify.com/v1/playlists/" ++ playlistID)
    (AccessToken t) = Got info ->
  info_TracksTotal info = Z.of_nat (List.length library) ->
  (exists first,
     getJSON_tracks (S (ticks s1))
       ("https://api.spotify.com/v1/playlists/" ++ playlistID
        ++ "/tracks?limit=100&offset=0")
       (AccessToken t) = Got first /\
     page_Items first = slice_of library 100 0) ->
  (forall k, (0 < k)%Z -> (k * 100 < Z.of_nat (List.length library))%Z ->
     exists pg,
       getJSON_tracks (S (S (ticks s1)))
         ("https://api.spotify.com/v1/playlists/" ++ playlistID
          ++ "/tracks?limit=100&offset=" ++ pretty (k * 100)%Z)
         (AccessToken t) = Got pg /\
       page_Items pg = slice_of library 100 (k * 100)) ->
  (exists r s',
     fetchPlaylistWithTracks_live env convertTrackToAlbumTrack getJSON_tracks
       getJSON_playlist maxSliceCap playlistID s r s') /\
  (forall r s',
     fetchPlaylistWithTracks_live env convertTrackToAlbumTrack getJSON_tracks
       getJSON_playlist maxSliceCap playlistID s r s' ->
     r = Ok (playlist_with info (convertSavedTrackItems convertTrackToAlbumTrack library)) /\
     mgr s' = mgr s1 /\ files s' = files s1).
Proof.
  intros Hfresh Ht Hcap Hmax Hinfo Htotal (first & Hfirst & Hitems) Hpages.
  pose proof (ensureFresh_has_token env s s1 Hfresh) as Hs.
  destruct (tokens (mgr s)) as [t0 |] eqn:Et; [clear Hs | congruence].
  unfold fetchPlaylistWithTracks_live, fetchPlaylistWithTracks_begin.
  mrun. rewrite Et. mrun. rewrite Hfresh. mrun. rewrite Ht. mrun.
  rewrite Hinfo. mrun.
  change ("https://api.spotify.com/v1/playlists/" ++ playlistID ++ "/tracks?limit="
          ++ pretty 100%Z ++ "&offset=0")%string
    with ("https://api.spotify.com/v1/playlists/" ++ playlistID
          ++ "/tracks?limit=100&offset=0")%string.
  rewrite Hfirst. unfold make_fits. rewrite Htotal, Hitems.
  replace ((0 <=? Z.of_nat (List.length library))
           && (Z.of_nat (List.length library) <=? maxSliceCap))%Z with true
    by (symmetry; apply andb_true_iff; split; apply Z.leb_le; lia).
  cbn [negb app]. rewrite slice_first.
  change (Z.to_nat 100) with 100.
  destruct (Z.of_nat (List.length (firstn 100 library)) <? Z.of_nat (List.length library))%Z
    eqn:E; mrun.
  - apply Z.ltb_lt in E. rewrite length_firstn in E.
    destruct (paged_library convertTrackToAlbumTrack 100 library
                (playlist_pageFetcher convertTrackToAlbumTrack getJSON_tracks
                   (S (S (ticks s1))) (AccessToken t) playlistID 100))
      as [(out & Hout) Hall]; [lia | lia | |].
    { intros k Hk Hlt. destruct (Hpages k Hk Hlt) as (pg & Hpg & Hpi).
      unfold playlist_pageFetcher. rewrite playlist_pageURL, Hpg, Hpi. reflexivity. }
    split.
    + exists (append_pages (convert (firstn 100 library)) (playlist_with info) out).
      eexists. split; [reflexivity |]. exists out. split; [exact Hout | reflexivity].
    + intros r s' (-> & out' & Hrun & ->).
      destruct (Hall out' Hrun) as [Herr Htracks].
      unfold append_pages. rewrite Herr. rewrite slice_first in Htracks.
      change (Z.to_nat 100) with 100 in Htracks. rewrite Htracks. repeat split.
  - apply Z.ltb_ge in E. rewrite length_firstn in E.
    assert (Hshort : List.length library <= 100) by lia.
    rewrite firstn_all2 by exact Hshort.
    split; [eexists; eexists; split; reflexivity |].
    intros r s' [-> ->]. repeat split.
Qed.

Variable getJSON_playlists : nat -> string -> string -> outcome playlistsPage.

(** X26: without a usable token no fetcher asks the server for anything.
    With no token in memory each of the three fetchers returns the
    not-authenticated error and leaves the state untouched; when the
    freshness check fails each returns the check's error and leaves the
    state as the check left it. *)
Theorem no_library_request_without_token (playlistID : string) (fuel : nat) (s : St) :
  (tokens (mgr s) = None ->
   fetchUserPlaylists env getJSON_playlists fuel s = (Some (Err ErrNotAuthenticated), s) /\
   (forall r s',
      fetchUserSavedTracks env convertTrackToAlbumTrack getJSON_tracks maxSliceCap s r s'
      <-> r = Err ErrNotAuthenticated /\ s' = s) /\
   (forall r s',
      fetchPlaylistWithTracks env convertTrackToAlbumTrack getJSON_tracks getJSON_playlist
        maxSliceCap playlistID s r s'
      <-> r = Err ErrNotAuthenticated /\ s' = s)) /\
  (forall e s1,
     tokens (mgr s) <> None ->
     ensureFreshTokenLocked env s = (Err e, s1) ->
     fetchUserPlaylists env getJSON_playlists fuel s = (Some (Err e), s1) /\
     (forall r s',
        fetchUserSavedTracks env convertTrackToAlbumTrack getJSON_tracks maxSliceCap s r s'
        <-> r = Err e /\ s' = s1) /\
     (forall r s',
        fetchPlaylistWithTracks env convertTrackToAlbumTrack getJSON_tracks getJSON_playlist
          maxSliceCap playlistID s r s'
        <-> r = Err e /\ s' = s1)).
Proof.
  split.
  - intros Hn.
    unfold fetchUserPlaylists, fetchUserSavedTracks, fetchPlaylistWithTracks,
      fetchUserSavedTracks_begin, fetchPlaylistWithTracks_begin.
    mrun. rewrite Hn. mrun.
    split; [reflexivity |]. split; intros r s'; tauto.
  - intros e s1 Hs Hfresh.
    unfold fetchUserPlaylists, fetchUserSavedTracks, fetchPlaylistWithTracks,
      fetchUserSavedTracks_begin, fetchPlaylistWithTracks_begin.
    mrun. destruct (tokens (mgr s)) as [t0 |]; [| congruence].
    mrun. rewrite Hfresh. mrun.
    split; [reflexivity |]. split; intros r s'; tauto.
Qed.

End TrackFetcherFacts.

Section PlaylistsFacts.
Variable env : Env.
Variable getJSON_playlists : nat -> string -> string -> outcome playlistsPage.

Lemma summaries_fold (items : list playlistItem) (all : list PlaylistSummary) :
  fold_left (fun all p => all ++ [summary_of_item p]) items all
  = all ++ map summary_of_item items.
Proof.
  revert all. induction items as [| p items IH]; intros all; simpl.
  - rewrite app_nil_r. reflexivity.
  - rewrite IH, <- app_assoc. reflexivity.
Qed.

Lemma playlists_loop_run (token : string) (pages : list playlistsPage) :
  forall (fuel : nat) (url : string) (all : list PlaylistSummary) (s : St),
    next_chain getJSON_playlists (ticks s) token url pages ->
    List.length pages < fuel ->
    exists evs,
      playlists_loop getJSON_playlists fuel token url all s
      = (Some (Ok (all ++ flat_map (fun p => map summary_of_item (playlists_Items p)) pages)),
         {| mgr := mgr s; files := files s; ticks := ticks s + List.length pages;
            trace := trace s ++ evs |}) /\
      List.length evs = List.length pages /\
      Forall (fun ev => exists u, ev = EvGetJSON u token) evs.
Proof.
  induction pages as [| p pages IH]; intros fuel url all s Hchain Hfuel.
  - simpl in Hchain. subst url. destruct fuel as [| fuel]; [simpl in Hfuel; lia |].
    exists []. simpl. rewrite !app_nil_r, Nat.add_0_r. destruct s; auto.
  - destruct Hchain as (Hne & Hp & Hrest).
    destruct fuel as [| fuel]; [simpl in Hfuel; lia |].
    cbn [playlists_loop].
    apply nonempty_true in Hne. unfold nonempty in Hne. apply negb_true_iff in Hne.
    rewrite Hne. mrun. rewrite Hp.
    set (s1 := {| mgr := mgr s; files := files s; ticks := S (ticks s);
                  trace := trace s ++ [EvGetJSON url token] |}).
    destruct (IH fuel (playlists_Next p)
                (fold_left (fun all p => all ++ [summary_of_item p]) (playlists_Items p) all)
                s1 Hrest ltac:(simpl in Hfuel; lia))
      as (evs & Hrun & Hlen & Hall).
    exists (EvGetJSON url token :: evs). rewrite Hrun. split; [| split].
    + rewrite summaries_fold. subst s1. cbn [flat_map mgr files ticks trace List.length].
      rewrite <- !app_assoc. cbn [app]. f_equal. f_equal. lia.
    + simpl. rewrite Hlen. reflexivity.
    + constructor; [eexists; reflexivity | exact Hall].
Qed.

(** X29: [fetchUserPlaylists] follows the [next] links to the end.  When
    the links lead from the first page through [pages] to a page with no
    next, the call makes one request per page and returns the summaries
    of all playlists in the order the server lists them; the loop ends
    after that many rounds (more fuel changes nothing), and the manager
    and the disk are as the freshness check left them. *)
Theorem playlists_follow_next_links
    (s s1 : St) (t : spotifyTokenStore) (pages : list playlistsPage) (fuel : nat) :
  ensureFreshTokenLocked env s = (Ok tt, s1) ->
  tokens (mgr s1) = Some t ->
  next_chain getJSON_playlists (ticks s1) (AccessToken t)
    "https://api.spotify.com/v1/me/playlists?limit=50" pages ->
  List.length pages < fuel ->
  exists evs,
    fetchUserPlaylists env getJSON_playlists fuel s
    = (Some (Ok (flat_map (fun p => map summary_of_item (playlists_Items p)) pages)),
       {| mgr := mgr s1; files := files s1; ticks := ticks s1 + List.length pages;
          trace := trace s1 ++ evs |}) /\
    List.length evs = List.length pages /\
    Forall (fun ev => exists u, ev = EvGetJSON u (AccessToken t)) evs.
Proof.
  intros Hfresh Ht Hchain Hfuel.
  pose proof (ensureFresh_has_token env s s1 Hfresh) as Hs.
  destruct (tokens (mgr s)) as [t0 |] eqn:Et; [clear Hs | congruence].
  unfold fetchUserPlaylists. mrun. rewrite Et. mrun. rewrite Hfresh. mrun. rewrite Ht.
  destruct (playlists_loop_run (AccessToken t) pages fuel _ [] s1 Hchain Hfuel)
    as (evs & Hrun & Hlen & Hall).
  exists evs. rewrite Hrun. auto.
Qed.

End PlaylistsFacts.

(** ** The further properties at concrete inputs *)

Lemma every_schedule_is_short_witness :
  List.length schedule_one <= 3 + 3 * List.length [50%Z] + Nat.min 8 (List.length [50%Z]).
Proof.
  exact (every_schedule_is_short fetch_ok [50%Z] schedule_one _ eq_refl).
Defined.

Lemma no_schedule_gets_stuck_witness :
  exists more p',
    exec fetch_ok ([ASend 0; AWork 0] ++ more) (start [50%Z]) = Some p' /\
    feeder p' = DClosed /\ ctx_err p' = None.
Proof.
  exact (proj2 (no_schedule_gets_stuck fetch_ok [50%Z] [ASend 0; AWork 0] _
                  ltac:(discriminate) eq_refl)).
Defined.

Lemma every_offset_accounted_witness :
  exists p, exec fetch_ok schedule_one (start [50%Z]) = Some p /\
            map offset (arrived p) ≡ₚ [50%Z].
Proof.
  destruct (every_offset_accounted fetch_ok [50%Z] schedule_one _ eq_refl)
    as (_ & _ & _ & H).
  eexists. split; [reflexivity | apply H; reflexivity].
Defined.

Lemma cancelled_before_start_witness :
  exists p o,
    exec fetch_ok (ACancel (ErrLib (OtherError "context canceled")) :: schedule_one)
         (start [50%Z]) = Some p /\
    In o [50%Z] /\
    finish p = (None, Some (ErrOffset o (ErrLib (OtherError "context canceled")))).
Proof.
  destruct (cancelled_before_start fetch_ok (ErrLib (OtherError "context canceled"))
              [50%Z] schedule_one _ ltac:(discriminate) eq_refl eq_refl)
    as (_ & _ & o & Hin & Hf).
  eexists. exists o. split; [reflexivity | split; assumption].
Defined.

Lemma status_from_cache_witness :
  fst (status (test_env no_fault resp_ok)
         (st_with (set_profile (Some profile0) (manager_with (Some tok_fresh) "")) no_files))
  = Ok {| Authenticated := true; status_DisplayName := "User One"; UserID := "user-1";
          AvatarURL := "https://i.scdn.co/image/1"; status_ExpiresAt := 4102444800;
          status_Scope := spotifyScopes |}.
Proof.
  rewrite (status_from_cache (test_env no_fault resp_ok)
             (st_with (set_profile (Some profile0) (manager_with (Some tok_fresh) "")) no_files)
             tok_fresh profile0 eq_refl eq_refl ltac:(vm_compute; reflexivity)).
  reflexivity.
Defined.

Lemma failed_refresh_keeps_token_witness :
  mgr (snd (ensureFreshTokenLocked env_offline
              (st_with (manager_with (Some tok_stale) "") no_files)))
  = manager_with (Some tok_stale) "".
Proof.
  exact (proj1 (proj2 (failed_refresh_keeps_token env_offline
                         (st_with (manager_with (Some tok_stale) "") no_files) tok_stale
                         (ErrLib (OtherError "dial tcp: connection refused"))
                         eq_refl ltac:(vm_compute; discriminate) ltac:(discriminate)
                         ltac:(vm_compute; reflexivity)))).
Defined.

Lemma success_page_means_logged_in_witness :
  exists p,
    profile (mgr (snd (handleCallback (test_env no_fault resp_ok) callback_ok
                         (st_with (manager_with None "issued") no_files))))
    = Some p.
Proof.
  refine (proj1 (proj2 (proj2
            (success_page_means_logged_in (test_env no_fault resp_ok) callback_ok
               (st_with (manager_with None "issued") no_files) _ eq_refl _)))).
  vm_compute. auto 20.
Defined.

Lemma failed_exchange_changes_nothing_witness :
  files (snd (handleCallback env_offline callback_ok
                (st_with (manager_with None "issued") no_files)))
  = no_files.
Proof.
  refine (proj1 (proj2 (proj2
            (failed_exchange_changes_nothing env_offline callback_ok
               (st_with (manager_with None "issued") no_files) _ eq_refl _)))).
  vm_compute. auto 20.
Defined.

Lemma unwritten_token_stays_in_memory_witness :
  exists t,
    tokens (mgr (snd (handleCallback (test_env write_refused resp_ok) callback_ok
                        (st_with (manager_with None "issued") no_files))))
    = Some t /\
    files (snd (handleCallback (test_env write_refused resp_ok) callback_ok
                  (st_with (manager_with None "issued") no_files)))
    = no_files.
Proof.
  destruct (unwritten_token_stays_in_memory (test_env write_refused resp_ok) callback_ok
              (st_with (manager_with None "issued") no_files) _ eq_refl
              ltac:(vm_compute; auto 20))
    as (t & _ & Ht & Hf & _).
  exists t. split; assumption.
Defined.

Lemma status_reports_the_session_witness :
  exists t p,
    tokens (mgr (snd (status (test_env no_fault resp_ok)
                        (st_with (manager_with (Some tok_fresh) "") no_files))))
    = Some t /\
    profile (mgr (snd (status (test_env no_fault resp_ok)
                         (st_with (manager_with (Some tok_fresh) "") no_files))))
    = Some p /\
    ExpiresAt t = 4102444800%Z /\ ID p = "user-1"%string.
Proof.
  destruct (status_reports_the_session (test_env no_fault resp_ok)
              (st_with (manager_with (Some tok_fresh) "") no_files) _ eq_refl)
    as (_ & Hauth & _).
  destruct (Hauth eq_refl) as (t & p & Ht & Hp & He & _ & Hid & _).
  exists t, p. split; [exact Ht |]. split; [exact Hp |].
  split; [symmetry; exact He | symmetry; exact Hid].
Defined.

Lemma saved_tokens_load_back_witness :
  tokens (mgr (snd (newSpotifyAuthManager (test_env no_fault resp_ok)
                      (snd (saveTokens (test_env no_fault resp_ok) tok_fresh
                              (st_with (manager_with None "") no_files))))))
  = Some tok_fresh.
Proof.
  exact (proj2 (saved_tokens_load_back (test_env no_fault resp_ok) tok_fresh
                  (st_with (manager_with None "") no_files)
                  eq_refl (fun _ => eq_refl) eq_refl)).
Defined.

Lemma randomString_shape_witness :
  exists str,
    fst (randomString (test_env no_fault resp_ok) 32
           (st_with (manager_with None "") no_files)) = Ok str /\
    String.length str = 32.
Proof.
  eexists. split; [reflexivity |].
  exact (proj1 (randomString_shape (test_env no_fault resp_ok) 32
                  (st_with (manager_with None "") no_files) _ eq_refl)).
Defined.

Lemma custom_client_id_is_used_witness :
  fst (spotifyClientID (test_env no_fault resp_ok)
         (snd (SetSpotifyClientID (test_env no_fault resp_ok) "my-client-id"
                 (st_with (manager_with None "") no_files))))
  = "my-client-id"%string.
Proof.
  exact (proj2 (proj2 (proj2
           (custom_client_id_is_used (test_env no_fault resp_ok) "my-client-id"
              (st_with (manager_with None "") no_files)
              ltac:(vm_compute; reflexivity) ltac:(discriminate)
              (fun _ => eq_refl) eq_refl)))).
Defined.

Lemma blank_client_id_restores_builtin_witness :
  fst (spotifyClientID (test_env no_fault resp_ok)
         (snd (SetSpotifyClientID (test_env no_fault resp_ok) ""
                 (st_with (manager_with None "") custom_files))))
  = builtinClientID.
Proof.
  exact (proj1 (proj2 (proj2 (proj2
           (blank_client_id_restores_builtin (test_env no_fault resp_ok) "" clientIDPath
              (st_with (manager_with None "") custom_files)
              eq_refl eq_refl eq_refl))))).
Defined.

Lemma custom_client_secret_is_used_witness :
  fst (spotifyClientSecret (test_env no_fault resp_ok)
         (snd (SetSpotifyClientSecret (test_env no_fault resp_ok) "my-secret"
                 (st_with (manager_with None "") no_files))))
  = "my-secret"%string.
Proof.
  exact (proj2 (proj2 (proj2
           (custom_client_secret_is_used (test_env no_fault resp_ok) "my-secret"
              (st_with (manager_with None "") no_files)
              ltac:(vm_compute; reflexivity) ltac:(discriminate)
              (fun _ => eq_refl) eq_refl)))).
Defined.

Lemma blank_client_secret_restores_builtin_witness :
  fst (spotifyClientSecret (test_env no_fault resp_ok)
         (snd (SetSpotifyClientSecret (test_env no_fault resp_ok) ""
                 (st_with (manager_with None "") custom_files))))
  = builtinClientSecret.
Proof.
  exact (proj1 (proj2 (proj2 (proj2
           (blank_client_secret_restores_builtin (test_env no_fault resp_ok) ""
              clientSecretPath (st_with (manager_with None "") custom_files)
              eq_refl eq_refl eq_refl))))).
Defined.

(** With a custom ID on disk [spotifyClientID] is that ID, and no longer
    once a blank one is set. *)
Example custom_then_blank_client_id :
  fst (spotifyClientID (test_env no_fault resp_ok)
         (st_with (manager_with None "") custom_files)) = "custom-id"%string /\
  fst (spotifyClientID (test_env no_fault resp_ok)
         (snd (SetSpotifyClientID (test_env no_fault resp_ok) ""
                 (st_with (manager_with None "") custom_files))))
  = "5f573c9620494bae87890c0f08a60293"%string.
Proof. split; vm_compute; reflexivity. Qed.

Lemma page_offsets_are_the_multiples_witness :
  In 100%Z (page_offsets 50 120) /\ List.length (page_offsets 50 120) = 2.
Proof.
  destruct (page_offsets_are_the_multiples 50 120 eq_refl eq_refl) as (Hin & _ & Hlen & _).
  split; [| exact Hlen].
  apply Hin. exists 2%Z. repeat split.
Defined.

Lemma st_fresh_checked :
  ensureFreshTokenLocked (test_env no_fault resp_ok) st_fresh = (Ok tt, st_checked).
Proof. vm_compute. reflexivity. Qed.

Lemma saved_tracks_complete_and_ordered_witness :
  exists r s',
    fetchUserSavedTracks_live (test_env no_fault resp_ok) convert_test (server_tracks 0)
      1000000%Z st_fresh r s'.
Proof.
  refine (proj1 (saved_tracks_complete_and_ordered (test_env no_fault resp_ok) convert_test
                   (server_tracks 0) 1000000%Z st_fresh st_checked tok_fresh library120
                   st_fresh_checked eq_refl _ eq_refl _ _)).
  - vm_compute. discriminate.
  - eexists. split; [reflexivity |]. split; reflexivity.
  - intros k Hk Hlt. change (Z.of_nat (List.length library120)) with 120%Z in Hlt.
    assert (Hcases : k = 1%Z \/ k = 2%Z) by lia.
    destruct Hcases as [-> | ->]; eexists; split; reflexivity.
Defined.

Lemma playlist_tracks_complete_and_ordered_witness :
  exists r s',
    fetchPlaylistWithTracks_live (test_env no_fault resp_ok) convert_test (server_tracks 0)
      server_playlist 1000000%Z "pl1" st_fresh r s'.
Proof.
  refine (proj1 (playlist_tracks_complete_and_ordered (test_env no_fault resp_ok)
                   convert_test (server_tracks 0) 1000000%Z server_playlist "pl1"
                   st_fresh st_checked tok_fresh info_pl1 library120
                   st_fresh_checked eq_refl _ eq_refl eq_refl eq_refl _ _)).
  - vm_compute. discriminate.
  - eexists. split; reflexivity.
  - intros k Hk Hlt. change (Z.of_nat (List.length library120)) with 120%Z in Hlt.
    assert (Hcase : k = 1%Z) by lia.
    subst k. eexists. split; reflexivity.
Defined.

Lemma playlists_follow_next_links_witness :
  fst (fetchUserPlaylists (test_env no_fault resp_ok) server_playlists 3 st_fresh)
  = Some (Ok [summary_of_item item_pl1; summary_of_item item_pl2]).
Proof.
  destruct (playlists_follow_next_links (test_env no_fault resp_ok) server_playlists
              st_fresh st_checked tok_fresh [playlists_page1; playlists_page2] 3
              st_fresh_checked eq_refl)
    as (evs & Hrun & _).
  - simpl. repeat split; discriminate.
  - simpl. lia.
  - rewrite Hrun. reflexivity.
Defined.

Lemma failed_page_fails_saved_tracks_witness :
  exists r s',
    fetchUserSavedTracks (test_env no_fault resp_ok) convert_test (server_tracks 100)
      1000000%Z st_fresh r s'.
Proof.
  refine (proj1 (failed_page_fails_saved_tracks (test_env no_fault resp_ok) convert_test
                   (server_tracks 100) 1000000%Z st_fresh st_checked tok_fresh
                   {| page_Items := slice_of library120 50 0; page_Total := 120 |} 2
                   (OtherError "unexpected status 502")
                   st_fresh_checked eq_refl eq_refl _ eq_refl eq_refl eq_refl eq_refl)).
  vm_compute. split; [reflexivity | discriminate].
Defined.

(** The saved tracks of the test server, fetched page by page: all 119
    tracks that are not nil, the first page in front. *)
Example saved_tracks_of_test_server :
  List.length (convertSavedTrackItems convert_test library120) = 119 /\
  page_offsets 50 120 = [50; 100]%Z /\
  page_offsets 100 120 = [100]%Z /\
  page_offsets 50 50 = [] /\
  page_offsets 50 (-3) = [].
Proof. repeat split; vm_compute; reflexivity. Qed.
